(** * kratos: the application lifecycle manager of [app.go]

    A shallow embedding of [App] ([New], [Append], [AppendHook], [Run],
    [Stop]) together with the parts of the Go runtime and of the
    [context], [os/signal] and [errgroup] packages that [Run] relies on.

    [Run] is concurrent: every hook callback runs in a goroutine of an
    [errgroup.Group]. The embedding is an interleaving semantics: a state
    holds the [App], the clock, the cancel functions that have been
    called, the group's first error, one program counter per spawned
    goroutine and the signal channel; a labelled, executable step function
    moves one goroutine, or the environment (the clock, the OS that sends
    signals, any goroutine that calls [Stop]), at a time.

    Granularity. The statements of [Run] up to [g.Wait()] are one step
    ([Run_spawn]): a goroutine that [g.Go] has created and that has not
    run yet cannot be told from one that is not created yet, since [g.Go]
    only counts it. The return of a task function, its deferred [cancel()]
    and the [errOnce] of the group's wrapper are one step: the first two
    touch nothing that another goroutine reads. Data races on the field
    [a.cancel] are outside the model. *)

From Stdlib Require Import ZArith Lia Ascii String.
From stdpp Require Import base decidable option list strings gmap.

Open Scope Z_scope.

(** ** Data *)

(** [syscall.Signal] is an [int]; the numbers are those of Linux. *)
Definition Signal := Z.
Definition SIGINT : Signal := 2.
Definition SIGQUIT : Signal := 3.
Definition SIGTERM : Signal := 15.

(** [time.Duration] is an [int64] count of nanoseconds; [Time] is an
    instant of the monotonic clock, in nanoseconds. *)
Definition Duration := Z.
Definition Time := Z.
Definition Second : Duration := 1000000000.

(** A Go [error] value is nil or an error: [context.Canceled],
    [context.DeadlineExceeded], or an error made by a callback. *)
Inductive err :=
| Canceled
| DeadlineExceeded
| Failure (msg : string).

Definition error := option err.

(** *** Contexts

    A context is the chain of its derivations from [context.Background()].
    Each derivation owns a cancel function, named here by a [cid].
    [context.WithTimeout(p, d)] is [context.WithDeadline(p, now + d)]. *)
Inductive cid :=
| CRoot
| CGroup
| CCall (t : nat).

Inductive Context :=
| Background
| WithCancel (parent : Context) (k : cid)
| WithDeadline (parent : Context) (deadline : Time) (k : cid).

Definition WithTimeout (parent : Context) (now : Time) (d : Duration) (k : cid)
  : Context :=
  WithDeadline parent (now + d) k.

Inductive CancelFunc :=
| CancelOf (c : Context).

#[global] Instance err_eq_dec : EqDecision err.
Proof. solve_decision. Defined.

#[global] Instance cid_eq_dec : EqDecision cid.
Proof. solve_decision. Defined.

(** [ctx.Err()] at instant [now], when the cancel functions named in [cs]
    have been called in time. A cancel function only takes effect on a
    context that has no error yet ([cancel_ctx] below), so a recorded
    cancellation always came first. *)
Fixpoint ctx_err (now : Time) (cs : list cid) (c : Context) : error :=
  match c with
  | Background => None
  | WithCancel p k =>
      if bool_decide (k ∈ cs) then Some Canceled else ctx_err now cs p
  | WithDeadline p d k =>
      if bool_decide (k ∈ cs) then Some Canceled
      else match ctx_err now cs p with
           | Some e => Some e
           | None => if d <=? now then Some DeadlineExceeded else None
           end
  end.

Definition cancel_ctx (now : Time) (c : Context) (cs : list cid) : list cid :=
  match ctx_err now cs c with
  | Some _ => cs
  | None =>
      match c with
      | Background => cs
      | WithCancel _ k | WithDeadline _ _ k => k :: cs
      end
  end.

(** *** Callbacks and hooks

    A callback [func(context.Context) error] is user code. It is modelled
    by what it does when it is looked at: given the context it was called
    with, the clock and [ctx.Err()], it has either returned some error
    value or is still blocked. *)
Record view := {
  v_ctx : Context;
  v_now : Time;
  v_err : error
}.

Inductive outcome :=
| Returns (e : error)
| Blocks.

Definition callback := view → outcome.

(** [type Lifecycle interface { Start(ctx) error; Stop(ctx) error }] *)
Module Lifecycle.

Class t (T : Type) := {
  Start : T → callback;
  Stop : T → callback
}.

End Lifecycle.

Record Hook := {
  OnStart : option callback;
  OnStop : option callback
}.

(** *** Options

    What a signal handler [func(a, sig)], called on the [App] and the
    received [os.Signal], does with the [App]: it calls [a.Stop()] or it
    leaves the [App] alone. *)
Inductive reaction :=
| CallStop
| NoCall.

(** Modelled from the spec: the declaration of the [options] struct and of
    [Option] is not in [app.go]; the fields are those that [New] sets and
    [Run] reads; an [Option] is a function that updates an [options] in
    place. *)
Record options := {
  id : string;
  name : string;
  version : string;
  endpoints : list string;
  startTimeout : Duration;
  stopTimeout : Duration;
  sigs : list Signal;
  sigFn : option (Signal → reaction)
}.

Definition Option := options → options.

Record App := {
  opts : options;
  hooks : list Hook;
  cancel : option CancelFunc
}.

(** [os.Getenv]: the value of the variable, empty when it is unset. *)
Definition Getenv (env : gmap string string) (key : string) : string :=
  default EmptyString (env !! key).

(** [strings.Split(s, sep)] for a one-byte separator. *)
Fixpoint Split (s : string) (sep : ascii) : list string :=
  match s with
  | EmptyString => [EmptyString]
  | String c s' =>
      if Ascii.eqb c sep then EmptyString :: Split s' sep
      else match Split s' sep with
           | [] => [String c EmptyString]
           | w :: ws => String c w :: ws
           end
  end.

Definition default_sigFn (sig : Signal) : reaction :=
  if (sig =? SIGINT) || (sig =? SIGQUIT) || (sig =? SIGTERM) then CallStop
  else NoCall.

Definition default_options (env : gmap string string) : options :=
  {| id := Getenv env "KRATOS_SERVICE_ID";
     name := Getenv env "KRATOS_SERVICE_NAME";
     version := Getenv env "KRATOS_SERVICE_VERSION";
     endpoints := Split (Getenv env "KRATOS_SERVICE_ENDPOINTS") ","%char;
     startTimeout := Second * 30;
     stopTimeout := Second * 30;
     sigs := [SIGTERM; SIGQUIT; SIGINT];
     sigFn := Some default_sigFn |}.

Definition New (env : gmap string string) (os : list Option) : App :=
  {| opts := fold_left (λ acc o, o acc) os (default_options env);
     hooks := [];
     cancel := None |}.

Definition Append {T} `{Lifecycle.t T} (lc : T) (a : App) : App :=
  {| opts := opts a;
     hooks := hooks a ++ [ {| OnStart := Some (λ ctx, Lifecycle.Start lc ctx);
                              OnStop := Some (λ ctx, Lifecycle.Stop lc ctx) |} ];
     cancel := cancel a |}.

Definition AppendHook (hook : Hook) (a : App) : App :=
  {| opts := opts a;
     hooks := hooks a ++ [hook];
     cancel := cancel a |}.

(** ** The running program *)

(** The goroutines that [Run] hands to [g.Go]: one per present callback
    ([h] is the index of the hook in [a.hooks]) and the signal listener. *)
Inductive kind :=
| KStart
| KStop.

Inductive task_body :=
| HookTask (k : kind) (h : nat) (f : callback)
| SignalTask.

(** Where a goroutine is. [Spawned]: a stop task is blocked on
    [<-ctx.Done()], a start task is about to derive its context, the
    listener is in its [select]. [Calling ctx]: inside the callback.
    [Finished e]: the function returned [e] and the group has seen it. *)
Inductive pc :=
| Spawned
| Calling (ctx : Context)
| Finished (e : error).

Record task := {
  t_body : task_body;
  t_pc : pc
}.

Inductive status :=
| Idle
| Running
| Returned (e : error).

(** History of what the goroutines did, newest first. It is written by the
    steps and read by no step. *)
Inductive event :=
| EvCall (k : kind) (h : nat) (ctx : Context) (now : Time) (shared : error)
| EvReturn (k : kind) (h : nat) (e : error)
| EvRelay (sig : Signal)
| EvHandle (sig : Signal)
| EvListenerExit (e : error).

Record state := {
  st_app : App;
  st_now : Time;
  st_canceled : list cid;
  st_gerr : error;
  st_tasks : list task;
  st_chan : list Signal;
  st_notify : bool;
  st_status : status;
  st_log : list event
}.

Definition set_app (a : App) (st : state) : state :=
  {| st_app := a; st_now := st_now st; st_canceled := st_canceled st;
     st_gerr := st_gerr st; st_tasks := st_tasks st; st_chan := st_chan st;
     st_notify := st_notify st; st_status := st_status st;
     st_log := st_log st |}.

Definition set_now (t : Time) (st : state) : state :=
  {| st_app := st_app st; st_now := t; st_canceled := st_canceled st;
     st_gerr := st_gerr st; st_tasks := st_tasks st; st_chan := st_chan st;
     st_notify := st_notify st; st_status := st_status st;
     st_log := st_log st |}.

Definition set_canceled (cs : list cid) (st : state) : state :=
  {| st_app := st_app st; st_now := st_now st; st_canceled := cs;
     st_gerr := st_gerr st; st_tasks := st_tasks st; st_chan := st_chan st;
     st_notify := st_notify st; st_status := st_status st;
     st_log := st_log st |}.

Definition set_gerr (e : error) (st : state) : state :=
  {| st_app := st_app st; st_now := st_now st; st_canceled := st_canceled st;
     st_gerr := e; st_tasks := st_tasks st; st_chan := st_chan st;
     st_notify := st_notify st; st_status := st_status st;
     st_log := st_log st |}.

Definition set_tasks (ts : list task) (st : state) : state :=
  {| st_app := st_app st; st_now := st_now st; st_canceled := st_canceled st;
     st_gerr := st_gerr st; st_tasks := ts; st_chan := st_chan st;
     st_notify := st_notify st; st_status := st_status st;
     st_log := st_log st |}.

Definition set_chan (c : list Signal) (st : state) : state :=
  {| st_app := st_app st; st_now := st_now st; st_canceled := st_canceled st;
     st_gerr := st_gerr st; st_tasks := st_tasks st; st_chan := c;
     st_notify := st_notify st; st_status := st_status st;
     st_log := st_log st |}.

Definition set_notify (b : bool) (st : state) : state :=
  {| st_app := st_app st; st_now := st_now st; st_canceled := st_canceled st;
     st_gerr := st_gerr st; st_tasks := st_tasks st; st_chan := st_chan st;
     st_notify := b; st_status := st_status st;
     st_log := st_log st |}.

Definition set_status (s : status) (st : state) : state :=
  {| st_app := st_app st; st_now := st_now st; st_canceled := st_canceled st;
     st_gerr := st_gerr st; st_tasks := st_tasks st; st_chan := st_chan st;
     st_notify := st_notify st; st_status := s;
     st_log := st_log st |}.

Definition record (ev : event) (st : state) : state :=
  {| st_app := st_app st; st_now := st_now st; st_canceled := st_canceled st;
     st_gerr := st_gerr st; st_tasks := st_tasks st; st_chan := st_chan st;
     st_notify := st_notify st; st_status := st_status st;
     st_log := ev :: st_log st |}.

Definition set_pc (i : nat) (p : pc) (st : state) : state :=
  set_tasks (alter (λ t, {| t_body := t_body t; t_pc := p |}) i (st_tasks st)) st.

(** [ctx.Err()] in a state, and calling a cancel function. *)
Definition Err (st : state) (c : Context) : error :=
  ctx_err (st_now st) (st_canceled st) c.

Definition call_cancel (f : CancelFunc) (st : state) : state :=
  match f with
  | CancelOf c => set_canceled (cancel_ctx (st_now st) c (st_canceled st)) st
  end.

(** The two contexts of [Run]: line 84, [context.WithCancel] of the
    background, and line 85, the context of [errgroup.WithContext], which
    shadows the first as [ctx]. *)
Definition rootCtx : Context := WithCancel Background CRoot.
Definition groupCtx : Context := WithCancel rootCtx CGroup.

(** *** [App.Stop] *)
Definition Stop (st : state) : state :=
  match cancel (st_app st) with
  | Some f => call_cancel f st
  | None => st
  end.

(** *** [App.Run], up to [g.Wait()]

    The loop over [a.hooks] (lines 86 to 103) and the listener (lines 104
    to 120), as the list of goroutines given to [g.Go], in order. *)
Fixpoint spawn_hooks (h : nat) (hs : list Hook) : list task_body :=
  match hs with
  | [] => []
  | hook :: hs' =>
      match OnStop hook with
      | Some f => [HookTask KStop h f]
      | None => []
      end ++
      match OnStart hook with
      | Some f => [HookTask KStart h f]
      | None => []
      end ++ spawn_hooks (S h) hs'
  end.

Definition spawn_listener (o : options) : list task_body :=
  match sigs o with
  | [] => []
  | _ :: _ => [SignalTask]
  end.

Definition spawn (a : App) : list task_body :=
  spawn_hooks 0 (hooks a) ++ spawn_listener (opts a).

Definition Run_spawn (st : state) : option state :=
  match st_status st with
  | Idle =>
      let a := st_app st in
      Some {| st_app := {| opts := opts a; hooks := hooks a;
                           cancel := Some (CancelOf rootCtx) |};
              st_now := st_now st;
              st_canceled := [];
              st_gerr := None;
              st_tasks := (λ b, {| t_body := b; t_pc := Spawned |}) <$> spawn a;
              st_chan := [];
              st_notify := match sigs (opts a) with [] => false | _ => true end;
              st_status := Running;
              st_log := st_log st |}
  | _ => None
  end.

(** *** [errgroup]

    The wrapper that [g.Go] puts around a task: a non-nil result is kept
    by [errOnce] if it is the first, and then cancels the group's context.
    [errOnce] has fired exactly when [g.err] is non-nil. *)
Definition group_done (e : error) (st : state) : state :=
  match e with
  | None => st
  | Some _ =>
      match st_gerr st with
      | Some _ => st
      | None => call_cancel (CancelOf groupCtx) (set_gerr e st)
      end
  end.

Definition finished (t : task) : bool :=
  match t_pc t with
  | Finished _ => true
  | _ => false
  end.

(** [g.Wait()]: returns when every task is done, cancels the group's
    context and yields [g.err], which [Run] returns. *)
Definition Run_wait (st : state) : option state :=
  match st_status st with
  | Running =>
      if forallb finished (st_tasks st)
      then Some (set_status (Returned (st_gerr st))
                   (call_cancel (CancelOf groupCtx) st))
      else None
  | _ => None
  end.

(** *** The hook tasks (lines 89 to 94 and 97 to 101) *)
Definition timeout_of (k : kind) (o : options) : Duration :=
  match k with
  | KStart => startTimeout o
  | KStop => stopTimeout o
  end.

Definition look (st : state) (c : Context) : view :=
  {| v_ctx := c; v_now := st_now st; v_err := Err st c |}.

Definition call (i : nat) (k : kind) (h : nat) (st : state) : state :=
  let c := WithTimeout Background (st_now st) (timeout_of k (opts (st_app st)))
             (CCall i) in
  record (EvCall k h c (st_now st) (Err st groupCtx)) (set_pc i (Calling c) st).

Definition step_task (i : nat) (st : state) : option state :=
  match st_tasks st !! i with
  | Some {| t_body := HookTask k h f; t_pc := Spawned |} =>
      match k, Err st groupCtx with
      | KStop, None => None
      | _, _ => Some (call i k h st)
      end
  | Some {| t_body := HookTask k h f; t_pc := Calling c |} =>
      match f (look st c) with
      | Returns e =>
          Some (group_done e
                  (call_cancel (CancelOf c)
                     (record (EvReturn k h e) (set_pc i (Finished e) st))))
      | Blocks => None
      end
  | _ => None
  end.

(** *** The signal listener (lines 107 to 120)

    [signal.Notify] relays a signal of [a.opts.sigs] to [c] unless the
    buffer of [c] is full. The [select] takes either branch that is ready. *)
Definition deliver (sig : Signal) (st : state) : option state :=
  if st_notify st && bool_decide (sig ∈ sigs (opts (st_app st))) then
    if bool_decide (length (st_chan st) < length (sigs (opts (st_app st))))%nat
    then Some (record (EvRelay sig) (set_chan (st_chan st ++ [sig]) st))
    else Some st
  else None.

Definition select_done (i : nat) (st : state) : option state :=
  match st_tasks st !! i with
  | Some {| t_body := SignalTask; t_pc := Spawned |} =>
      match Err st groupCtx with
      | Some e =>
          Some (group_done (Some e)
                  (record (EvListenerExit (Some e))
                     (set_pc i (Finished (Some e)) st)))
      | None => None
      end
  | _ => None
  end.

Definition handle (sig : Signal) (st : state) : state :=
  match sigFn (opts (st_app st)) with
  | Some fn =>
      match fn sig with
      | CallStop => Stop (record (EvHandle sig) st)
      | NoCall => record (EvHandle sig) st
      end
  | None => st
  end.

Definition select_recv (i : nat) (st : state) : option state :=
  match st_tasks st !! i with
  | Some {| t_body := SignalTask; t_pc := Spawned |} =>
      match st_chan st with
      | sig :: rest => Some (handle sig (set_chan rest st))
      | [] => None
      end
  | _ => None
  end.

(** *** Steps and executions *)
Inductive label :=
| LRun
| LStop
| LTick (d : Duration)
| LSignal (sig : Signal)
| LTask (i : nat)
| LSelectDone (i : nat)
| LSelectRecv (i : nat)
| LWait.

Definition step (l : label) (st : state) : option state :=
  match l with
  | LRun => Run_spawn st
  | LStop => Some (Stop st)
  | LTick d => if 0 <? d then Some (set_now (st_now st + d) st) else None
  | LSignal sig => deliver sig st
  | LTask i => step_task i st
  | LSelectDone i => select_done i st
  | LSelectRecv i => select_recv i st
  | LWait => Run_wait st
  end.

Fixpoint exec (ls : list label) (st : state) : option state :=
  match ls with
  | [] => Some st
  | l :: ls' =>
      match step l st with
      | Some st' => exec ls' st'
      | None => None
      end
  end.

(** The state of a process that holds [a] and has not called [Run]. *)
Definition boot (a : App) (now : Time) : state :=
  {| st_app := a; st_now := now; st_canceled := []; st_gerr := None;
     st_tasks := []; st_chan := []; st_notify := false; st_status := Idle;
     st_log := [] |}.

(** ** The step function as a relation

    One constructor per way a step can be taken, with the state it leads
    to; [step_Step] and [Step_step] show it is the graph of [step]. *)
Inductive Step : label → state → state → Prop :=
| Step_run st st' :
    Run_spawn st = Some st' →
    Step LRun st st'
| Step_stop st :
    Step LStop st (Stop st)
| Step_tick d st :
    0 < d →
    Step (LTick d) st (set_now (st_now st + d) st)
| Step_relay sig st :
    st_notify st = true →
    sig ∈ sigs (opts (st_app st)) →
    (length (st_chan st) < length (sigs (opts (st_app st))))%nat →
    Step (LSignal sig) st (record (EvRelay sig) (set_chan (st_chan st ++ [sig]) st))
| Step_drop sig st :
    st_notify st = true →
    sig ∈ sigs (opts (st_app st)) →
    ¬ (length (st_chan st) < length (sigs (opts (st_app st))))%nat →
    Step (LSignal sig) st st
| Step_call i k h f st :
    st_tasks st !! i = Some {| t_body := HookTask k h f; t_pc := Spawned |} →
    (k = KStop → Err st groupCtx ≠ None) →
    Step (LTask i) st (call i k h st)
| Step_return i k h f c e st :
    st_tasks st !! i = Some {| t_body := HookTask k h f; t_pc := Calling c |} →
    f (look st c) = Returns e →
    Step (LTask i) st
      (group_done e
         (call_cancel (CancelOf c)
            (record (EvReturn k h e) (set_pc i (Finished e) st))))
| Step_exit i e st :
    st_tasks st !! i = Some {| t_body := SignalTask; t_pc := Spawned |} →
    Err st groupCtx = Some e →
    Step (LSelectDone i) st
      (group_done (Some e)
         (record (EvListenerExit (Some e)) (set_pc i (Finished (Some e)) st)))
| Step_recv i sig rest st :
    st_tasks st !! i = Some {| t_body := SignalTask; t_pc := Spawned |} →
    st_chan st = sig :: rest →
    Step (LSelectRecv i) st (handle sig (set_chan rest st))
| Step_wait st :
    st_status st = Running →
    forallb finished (st_tasks st) = true →
    Step LWait st
      (set_status (Returned (st_gerr st)) (call_cancel (CancelOf groupCtx) st)).


(** ** Auxiliary definitions for the proofs *)

(** The fields after an operation, from the fields before: what
    [errgroup] keeps as [g.err], and the cancel functions called by the
    wrapper, by [Stop] and by the signal handler. *)
Definition keep_first (g e : error) : error :=
  match g with
  | Some _ => g
  | None => e
  end.

Definition cancel_group (e g : error) (now : Time) (cs : list cid) : list cid :=
  match e, g with
  | Some _, None => cancel_ctx now groupCtx cs
  | _, _ => cs
  end.

Definition cancel_app (a : App) (now : Time) (cs : list cid) : list cid :=
  match cancel a with
  | Some (CancelOf c) => cancel_ctx now c cs
  | None => cs
  end.

Definition handled (o : options) (sig : Signal) (lg : list event) : list event :=
  match sigFn o with
  | Some _ => EvHandle sig :: lg
  | None => lg
  end.

Definition cancel_handler (a : App) (sig : Signal) (now : Time)
    (cs : list cid) : list cid :=
  match sigFn (opts a) with
  | Some fn =>
      match fn sig with
      | CallStop => cancel_app a now cs
      | NoCall => cs
      end
  | None => cs
  end.

(** The cancel function that a derivation owns. *)
Definition ctx_key (c : Context) : option cid :=
  match c with
  | Background => None
  | WithCancel _ k | WithDeadline _ _ k => Some k
  end.

(** The callback of kind [k] of a hook, and the callbacks registered with
    an [App]. *)
Definition slot (k : kind) (hook : Hook) : option callback :=
  match k with
  | KStart => OnStart hook
  | KStop => OnStop hook
  end.

Definition registered (a : App) (k : kind) (h : nat) (f : callback) : Prop :=
  ∃ hook, hooks a !! h = Some hook ∧ slot k hook = Some f.

(** Shape of the states of a run of [a]. *)
Record wf (a : App) (st : state) : Prop := {
  wf_opts : opts (st_app st) = opts a;
  wf_hooks : hooks (st_app st) = hooks a;
  wf_idle :
    st_status st = Idle →
    cancel (st_app st) = None ∧ st_canceled st = [] ∧ st_gerr st = None ∧
    st_tasks st = [] ∧ st_chan st = [] ∧ st_notify st = false ∧ st_log st = [];
  wf_spawned :
    st_status st ≠ Idle →
    cancel (st_app st) = Some (CancelOf rootCtx) ∧
    t_body <$> st_tasks st = spawn a;
  wf_returned r :
    st_status st = Returned r →
    r = st_gerr st ∧ forallb finished (st_tasks st) = true;
  wf_listener i c :
    st_tasks st !! i ≠ Some {| t_body := SignalTask; t_pc := Calling c |}
}.

(** What the history says of the goroutines of a run of [a]: a recorded
    call was made by a spawned task with a context derived from the
    background by the configured timeout, a stop callback was called when
    the group's context was done, a recorded return is what a registered
    callback returned, and the listener left with [context.Canceled]. *)
Record log_ok (a : App) (st : state) : Prop := {
  log_call k h c t sh :
    EvCall k h c t sh ∈ st_log st →
    ∃ i f, spawn a !! i = Some (HookTask k h f) ∧
           c = WithTimeout Background t (timeout_of k (opts a)) (CCall i) ∧
           t ≤ st_now st ∧
           (k = KStop → sh = Some Canceled);
  log_return k h e :
    EvReturn k h e ∈ st_log st →
    ∃ f v, registered a k h f ∧ f v = Returns e;
  log_exit e :
    EvListenerExit e ∈ st_log st → e = Some Canceled
}.

(** What the program counter of task [i] says of the history and of the
    cancel function of its call. *)
Definition pc_ok (a : App) (st : state) (i : nat) (t : task) : Prop :=
  match t_body t, t_pc t with
  | HookTask k h f, Spawned => CCall i ∉ st_canceled st
  | HookTask k h f, Calling c =>
      (CCall i ∉ st_canceled st) ∧
      ∃ t0 sh, c = WithTimeout Background t0 (timeout_of k (opts a)) (CCall i) ∧
               EvCall k h c t0 sh ∈ st_log st
  | HookTask k h f, Finished e =>
      (EvReturn k h e ∈ st_log st) ∧
      ∃ c t0 sh, EvCall k h c t0 sh ∈ st_log st
  | SignalTask, Finished e =>
      e = Some Canceled ∧ EvListenerExit e ∈ st_log st
  | SignalTask, _ => True
  end.

Definition pcs_ok (a : App) (st : state) : Prop :=
  ∀ i t, st_tasks st !! i = Some t → pc_ok a st i t.

(** The first failure of the history: the oldest event that carries a
    non-nil result. *)
Definition result (ev : event) : error :=
  match ev with
  | EvReturn _ _ e | EvListenerExit e => e
  | _ => None
  end.

Fixpoint first_failure (lg : list event) : option event :=
  match lg with
  | [] => None
  | ev :: older =>
      match first_failure older with
      | Some x => Some x
      | None => match result ev with Some _ => Some ev | None => None end
      end
  end.

(** [g.err] is the result of the first failure, and a failure or the
    return of [Run] leaves the group's context done. *)
Record group_ok (st : state) : Prop := {
  group_err : st_gerr st = first_failure (st_log st) ≫= result;
  group_canceled : st_gerr st ≠ None → Err st groupCtx = Some Canceled;
  group_returned r : st_status st = Returned r → Err st groupCtx = Some Canceled
}.

(** All of the above: the invariant of the runs of [a]. *)
Record inv (a : App) (st : state) : Prop := {
  inv_wf : wf a st;
  inv_pcs : pcs_ok a st;
  inv_log : log_ok a st;
  inv_group : group_ok st
}.

(** ** Sample callbacks, components and applications *)
Definition succeed : callback := λ _, Returns None.

Definition fail_with (msg : string) : callback :=
  λ _, Returns (Some (Failure msg)).

(** A component given by its two methods. *)
Record component := {
  comp_start : callback;
  comp_stop : callback
}.

#[global] Instance component_lifecycle : Lifecycle.t component :=
  {| Lifecycle.Start := comp_start; Lifecycle.Stop := comp_stop |}.

(** An option that replaces the signal set. *)
Definition with_sigs (ss : list Signal) : Option :=
  λ o, {| id := id o; name := name o; version := version o;
          endpoints := endpoints o; startTimeout := startTimeout o;
          stopTimeout := stopTimeout o; sigs := ss; sigFn := sigFn o |}.

Definition quiet_app : App := New ∅ [with_sigs []].
Definition server_app : App :=
  Append {| comp_start := succeed; comp_stop := succeed |} (New ∅ []).
Definition failing_app : App :=
  AppendHook {| OnStart := Some (fail_with "listen"); OnStop := Some succeed |}
    (New ∅ []).
Definition two_failures_app : App :=
  AppendHook {| OnStart := Some (fail_with "second"); OnStop := None |}
    (AppendHook {| OnStart := Some (fail_with "first"); OnStop := Some succeed |}
       (New ∅ [with_sigs []])).

(** The events of the hook tasks. *)
Definition hook_event (ev : event) : Prop :=
  match ev with
  | EvCall _ _ _ _ _ | EvReturn _ _ _ => True
  | _ => False
  end.

(** The signals that [signal.Notify] put into the channel and the signals
    that the listener gave to the handler, newest first. *)
Definition relayed (ev : event) : option Signal :=
  match ev with
  | EvRelay sig => Some sig
  | _ => None
  end.

Definition handed (ev : event) : option Signal :=
  match ev with
  | EvHandle sig => Some sig
  | _ => None
  end.

(** As long as nobody asked for a stop (the root context is not
    cancelled), stop tasks and the listener wait for a failure: before the
    first failure only start tasks have moved, and the first failure is
    the return of a start callback. *)
Record start_first (st : state) : Prop := {
  sf_quiet :
    first_failure (st_log st) = None →
    (Err st groupCtx = None ∨ ∃ r, st_status st = Returned r) ∧
    ∀ i t, st_tasks st !! i = Some t → t_pc t ≠ Spawned →
           ∃ h f, t_body t = HookTask KStart h f;
  sf_failed ev :
    first_failure (st_log st) = Some ev →
    ∃ h e, ev = EvReturn KStart h (Some e)
}.

(** The steps of the program (a goroutine moves, or [g.Wait] returns), as
    opposed to those of its environment; and a bound on the number of such
    steps that a run can still take: two per spawned task, one per running
    callback, one per signal in the channel, one for [g.Wait]. *)
Definition goroutine (l : label) : bool :=
  match l with
  | LTask _ | LSelectDone _ | LSelectRecv _ | LWait => true
  | _ => false
  end.

Definition weight (t : task) : nat :=
  match t_pc t with
  | Spawned => 2
  | Calling _ => 1
  | Finished _ => 0
  end.

Definition remaining (st : state) : nat :=
  sum_list (weight <$> st_tasks st) + length (st_chan st) +
  match st_status st with
  | Running => 1
  | _ => 0
  end.

(** What [Run] returns after a clean stop: nil without a listener, and
    the [context.Canceled] of the listener otherwise. *)
Definition clean_result (a : App) : error :=
  match sigs (opts a) with
  | [] => None
  | _ :: _ => Some Canceled
  end.

(** ** Further definitions: the registry, the tasks and the history *)

(** The applications that a program can hold before [Run]: made by [New]
    and extended by [Append] and [AppendHook]. *)
Inductive built : App → Prop :=
| built_New env os :
    built (New env os)
| built_Append {T} `{Lifecycle.t T} (lc : T) a :
    built a → built (Append lc a)
| built_AppendHook hook a :
    built a → built (AppendHook hook a).

(** The tasks of one hook, and how many callbacks a hook has. *)
Definition hook_tasks (h : nat) (hook : Hook) : list task_body :=
  match OnStop hook with
  | Some f => [HookTask KStop h f]
  | None => []
  end ++
  match OnStart hook with
  | Some f => [HookTask KStart h f]
  | None => []
  end.

Definition present (hook : Hook) : nat :=
  match OnStop hook with Some _ => 1 | None => 0 end +
  match OnStart hook with Some _ => 1 | None => 0 end.

(** The hook that a task belongs to; the listener comes after all hooks. *)
Definition hook_of (n : nat) (b : task_body) : nat :=
  match b with
  | HookTask _ h _ => h
  | SignalTask => n
  end.

(** How often a byte occurs in a string. *)
Fixpoint occurrences (c : ascii) (s : string) : nat :=
  match s with
  | EmptyString => 0
  | String c' s' => (if Ascii.eqb c' c then 1 else 0) + occurrences c s'
  end.

#[global] Instance kind_eq_dec : EqDecision kind.
Proof. solve_decision. Defined.

(** The calls and the returns of the callback [(k, h)] in a history. *)
Definition call_of (k : kind) (h : nat) (ev : event) : bool :=
  match ev with
  | EvCall k' h' _ _ _ => bool_decide (k' = k ∧ h' = h)
  | _ => false
  end.

Definition return_of (k : kind) (h : nat) (ev : event) : bool :=
  match ev with
  | EvReturn k' h' _ => bool_decide (k' = k ∧ h' = h)
  | _ => false
  end.

Definition count (p : event → bool) (lg : list event) : nat :=
  length (List.filter p lg).

(** The calls and returns that a program counter stands for. *)
Definition calls_at (p : pc) : nat :=
  match p with
  | Spawned => 0
  | _ => 1
  end.

Definition returns_at (p : pc) : nat :=
  match p with
  | Finished _ => 1
  | _ => 0
  end.

(** A callback that waits for its context and returns [ctx.Err()]. *)
Definition wait_done : callback :=
  λ v, match v_err v with
       | Some e => Returns (Some e)
       | None => Blocks
       end.

Definition waiting_app : App :=
  AppendHook {| OnStart := Some wait_done; OnStop := Some succeed |}
    (New ∅ []).

(** The history of every hook task agrees with its program counter. *)
Definition once_ok (st : state) : Prop :=
  ∀ i k h f p,
    st_tasks st !! i = Some {| t_body := HookTask k h f; t_pc := p |} →
    count (call_of k h) (st_log st) = calls_at p ∧
    count (return_of k h) (st_log st) = returns_at p.
Lemma step_Step l st st' : step l st = Some st' → Step l st st'.
Proof.
  destruct l; simpl; intros Hs.
  - by constructor.
  - injection Hs as <-. constructor.
  - destruct (0 <? d) eqn:Hd; [|done]. injection Hs as <-.
    constructor. lia.
  - unfold deliver in Hs.
    destruct (st_notify st) eqn:Hn; [|done]. simpl in Hs.
    case_bool_decide; [|done]. case_bool_decide; injection Hs as <-.
    + by apply Step_relay.
    + by apply Step_drop.
  - unfold step_task in Hs.
    destruct (st_tasks st !! i) as [[[k h f|] [|c|e]]|] eqn:Ht; try done.
    + destruct k.
      * injection Hs as <-. by eapply Step_call.
      * destruct (Err st groupCtx) eqn:He; [|done].
        injection Hs as <-. eapply Step_call; [done|]. by rewrite He.
    + destruct (f (look st c)) eqn:Hf; [|done].
      injection Hs as <-. by eapply Step_return.
  - unfold select_done in Hs.
    destruct (st_tasks st !! i) as [[[k h f|] [|c|e]]|] eqn:Ht; try done.
    destruct (Err st groupCtx) eqn:He; [|done].
    injection Hs as <-. by apply Step_exit.
  - unfold select_recv in Hs.
    destruct (st_tasks st !! i) as [[[k h f|] [|c|e]]|] eqn:Ht; try done.
    destruct (st_chan st) eqn:Hc; [done|].
    injection Hs as <-. by apply Step_recv.
  - unfold Run_wait in Hs.
    destruct (st_status st) eqn:Hst; try done.
    destruct (forallb finished (st_tasks st)) eqn:Hf; [|done].
    injection Hs as <-. by constructor.
Qed.

Lemma Step_step l st st' : Step l st st' → step l st = Some st'.
Proof.
  destruct 1; simpl; try done.
  - destruct (0 <? d) eqn:Hd; [done|lia].
  - unfold deliver. rewrite H. simpl.
    rewrite bool_decide_eq_true_2 by done.
    by rewrite bool_decide_eq_true_2 by done.
  - unfold deliver. rewrite H. simpl.
    rewrite bool_decide_eq_true_2 by done.
    by rewrite bool_decide_eq_false_2 by done.
  - unfold step_task. rewrite H.
    destruct k; [done|].
    destruct (Err st groupCtx); [done|]. by destruct H0.
  - unfold step_task. by rewrite H, H0.
  - unfold select_done. by rewrite H, H0.
  - unfold select_recv. by rewrite H, H0.
  - unfold Run_wait. by rewrite H, H0.
Qed.

Lemma exec_app ls1 ls2 st :
  exec (ls1 ++ ls2) st = exec ls1 st ≫= exec ls2.
Proof.
  revert st. induction ls1 as [|l ls1 IH]; intros st; simpl; [done|].
  destruct (step l st); [apply IH|done].
Qed.

(** A property kept by every step holds along every execution. *)
Lemma exec_invariant (P : state → Prop) :
  (∀ l st st', P st → Step l st st' → P st') →
  ∀ ls st st', P st → exec ls st = Some st' → P st'.
Proof.
  intros Hstep ls. induction ls as [|l ls IH]; intros st st' HP; simpl.
  - by intros [= <-].
  - destruct (step l st) as [st1|] eqn:Hs; [|done].
    apply IH. eapply Hstep; [done|]. by apply step_Step.
Qed.

(** ** Normal forms of the operations *)
Lemma set_canceled_id st : set_canceled (st_canceled st) st = st.
Proof. by destruct st. Qed.

Lemma call_cancel_eq c st :
  call_cancel (CancelOf c) st =
  set_canceled (cancel_ctx (st_now st) c (st_canceled st)) st.
Proof. done. Qed.

Lemma Stop_eq st :
  Stop st = set_canceled (cancel_app (st_app st) (st_now st) (st_canceled st)) st.
Proof.
  unfold Stop, cancel_app. destruct (cancel (st_app st)) as [[c]|]; [done|].
  by rewrite set_canceled_id.
Qed.

Lemma group_done_eq e st :
  group_done e st =
  set_canceled (cancel_group e (st_gerr st) (st_now st) (st_canceled st))
    (set_gerr (keep_first (st_gerr st) e) st).
Proof.
  unfold group_done, cancel_group, keep_first.
  destruct st as [a now cs g ts ch n s lg]; simpl.
  by destruct e, g.
Qed.

Lemma handle_eq sig st :
  handle sig st =
  set_canceled (cancel_handler (st_app st) sig (st_now st) (st_canceled st))
    {| st_app := st_app st; st_now := st_now st; st_canceled := st_canceled st;
       st_gerr := st_gerr st; st_tasks := st_tasks st; st_chan := st_chan st;
       st_notify := st_notify st; st_status := st_status st;
       st_log := handled (opts (st_app st)) sig (st_log st) |}.
Proof.
  unfold handle, cancel_handler, handled.
  destruct (sigFn (opts (st_app st))) as [fn|]; [|by destruct st].
  destruct (fn sig); [|done]. by rewrite Stop_eq.
Qed.

Lemma Run_spawn_eq st st' :
  Run_spawn st = Some st' →
  st_status st = Idle ∧
  st' = {| st_app := {| opts := opts (st_app st); hooks := hooks (st_app st);
                        cancel := Some (CancelOf rootCtx) |};
           st_now := st_now st;
           st_canceled := [];
           st_gerr := None;
           st_tasks := (λ b, {| t_body := b; t_pc := Spawned |}) <$> spawn (st_app st);
           st_chan := [];
           st_notify := match sigs (opts (st_app st)) with [] => false | _ => true end;
           st_status := Running;
           st_log := st_log st |}.
Proof. unfold Run_spawn. destruct (st_status st); by intros [= <-]. Qed.

Ltac norm :=
  rewrite ?group_done_eq, ?call_cancel_eq, ?handle_eq, ?Stop_eq;
  unfold call, set_pc; simpl.

Ltac norm_in H :=
  rewrite ?group_done_eq, ?call_cancel_eq, ?handle_eq, ?Stop_eq in H;
  unfold call, set_pc in H; simpl in H.

(** ** Tasks: bodies never change, program counters change one at a time *)
Lemma fmap_body_alter i p (ts : list task) :
  t_body <$> alter (λ t, {| t_body := t_body t; t_pc := p |}) i ts = t_body <$> ts.
Proof.
  revert i. induction ts as [|t ts IH]; intros [|i]; csimpl; [done..|].
  f_equal. apply IH.
Qed.

Lemma lookup_alter_pc i j p (ts : list task) t :
  alter (λ t, {| t_body := t_body t; t_pc := p |}) i ts !! j = Some t →
  (i = j ∧ ∃ t0, ts !! j = Some t0 ∧ t = {| t_body := t_body t0; t_pc := p |}) ∨
  (i ≠ j ∧ ts !! j = Some t).
Proof.
  destruct (decide (i = j)) as [->|Hne].
  - rewrite list_lookup_alter_eq. destruct (ts !! j) as [t0|]; simpl; [|done].
    intros [= <-]. left. eauto.
  - rewrite list_lookup_alter_ne by done. eauto.
Qed.

Lemma forallb_finished_lookup (ts : list task) i t :
  forallb finished ts = true → ts !! i = Some t → ∃ e, t_pc t = Finished e.
Proof.
  rewrite forallb_forall. intros Hall Ht.
  specialize (Hall t). rewrite <-list_elem_of_In in Hall.
  specialize (Hall (list_elem_of_lookup_2 _ _ _ Ht)).
  unfold finished in Hall. destruct (t_pc t); try done. eauto.
Qed.

Lemma wf_boot a now : cancel a = None → wf a (boot a now).
Proof. intros Ha. split; simpl; done. Qed.

Lemma wf_step a l st st' : wf a st → Step l st st' → wf a st'.
Proof.
  intros [Ho Hh Hi Hs Hr Hl] HS. destruct HS.
  - apply Run_spawn_eq in H as [Hidle ->].
    split; simpl; try done.
    + intros _. split; [done|]. rewrite <-list_fmap_compose.
      unfold spawn. rewrite Ho, Hh. apply list_fmap_id.
    + intros i c. rewrite list_lookup_fmap.
      destruct (spawn (st_app st) !! i); simpl; congruence.
  - split; norm; try done.
    intros Hidle. destruct (Hi Hidle) as (Hc & Hcs & ?). unfold cancel_app.
    by rewrite Hc.
  - split; norm; done.
  - split; norm; try done.
    intros Hidle. destruct (Hi Hidle) as (_ & _ & _ & _ & _ & Hn & _). congruence.
  - by split.
  - assert (st_status st ≠ Idle) as Hni.
    { intros Hidle. destruct (Hi Hidle) as (_ & _ & _ & Ht & _).
      by rewrite Ht in H. }
    split; norm; try done.
    + intros _. split; [by apply Hs|]. rewrite fmap_body_alter. by apply Hs.
    + intros r Hret. destruct (Hr r Hret) as [_ Hfin].
      destruct (forallb_finished_lookup _ _ _ Hfin H) as [e He]. done.
    + intros j c' Hj. apply lookup_alter_pc in Hj as [(-> & t0 & Ht0 & Heq)|[_ Hj]].
      * rewrite H in Ht0. by simplify_eq.
      * by eapply Hl.
  - assert (st_status st ≠ Idle) as Hni.
    { intros Hidle. destruct (Hi Hidle) as (_ & _ & _ & Ht & _).
      by rewrite Ht in H. }
    split; norm; try done.
    + intros _. split; [by apply Hs|]. rewrite fmap_body_alter. by apply Hs.
    + intros r Hret. destruct (Hr r Hret) as [_ Hfin].
      destruct (forallb_finished_lookup _ _ _ Hfin H) as [e' He]. done.
    + intros j c' Hj. apply lookup_alter_pc in Hj as [(-> & t0 & Ht0 & Heq)|[_ Hj]].
      * done.
      * by eapply Hl.
  - assert (st_status st ≠ Idle) as Hni.
    { intros Hidle. destruct (Hi Hidle) as (_ & _ & _ & Ht & _).
      by rewrite Ht in H. }
    split; norm; try done.
    + intros _. split; [by apply Hs|]. rewrite fmap_body_alter. by apply Hs.
    + intros r Hret. destruct (Hr r Hret) as [_ Hfin].
      destruct (forallb_finished_lookup _ _ _ Hfin H) as [e' He]. done.
    + intros j c' Hj. apply lookup_alter_pc in Hj as [(-> & t0 & Ht0 & Heq)|[_ Hj]].
      * done.
      * by eapply Hl.
  - assert (st_status st ≠ Idle) as Hni.
    { intros Hidle. destruct (Hi Hidle) as (_ & _ & _ & Ht & _).
      by rewrite Ht in H. }
    split; norm; try done.
  - split; norm; try done.
    + intros _. apply Hs. congruence.
    + intros r [= <-]. done.
Qed.

(** ** What [Run] spawns *)
Lemma elem_of_spawn_hooks k h f n hs :
  HookTask k h f ∈ spawn_hooks n hs ↔
  ∃ h' hook, h = (n + h')%nat ∧ hs !! h' = Some hook ∧ slot k hook = Some f.
Proof.
  revert n. induction hs as [|hook hs IH]; intros n; simpl.
  - split; [by intros ?%elem_of_nil|]. by intros (h' & hook & _ & ? & _).
  - rewrite !elem_of_app, IH. split.
    + intros [Hin|[Hin|(h' & hk & -> & Hh & Hs)]].
      * destruct (OnStop hook) as [g|] eqn:Hg; [|by apply elem_of_nil in Hin].
        apply list_elem_of_singleton in Hin as [= -> -> ->].
        exists 0%nat, hook. split; [lia|done].
      * destruct (OnStart hook) as [g|] eqn:Hg; [|by apply elem_of_nil in Hin].
        apply list_elem_of_singleton in Hin as [= -> -> ->].
        exists 0%nat, hook. split; [lia|done].
      * exists (S h'), hk. split; [lia|done].
    + intros ([|h'] & hk & -> & Hh & Hs); simpl in Hh.
      * injection Hh as ->. replace (n + 0)%nat with n by lia.
        destruct k; simpl in Hs; rewrite Hs.
        -- right; left. by apply list_elem_of_singleton.
        -- left. by apply list_elem_of_singleton.
      * right; right. exists h', hk. split; [lia|done].
Qed.

Lemma SignalTask_not_in_spawn_hooks n hs : SignalTask ∉ spawn_hooks n hs.
Proof.
  revert n. induction hs as [|hook hs IH]; intros n; simpl.
  - apply not_elem_of_nil.
  - rewrite !elem_of_app. intros [Hin|[Hin|Hin]].
    + destruct (OnStop hook); [|by apply elem_of_nil in Hin].
      by apply list_elem_of_singleton in Hin.
    + destruct (OnStart hook); [|by apply elem_of_nil in Hin].
      by apply list_elem_of_singleton in Hin.
    + by eapply IH.
Qed.

Lemma elem_of_spawn a k h f : HookTask k h f ∈ spawn a ↔ registered a k h f.
Proof.
  unfold spawn, registered. rewrite elem_of_app, elem_of_spawn_hooks. split.
  - intros [(h' & hook & -> & Hh & Hs)|Hin]; [eauto|].
    unfold spawn_listener in Hin. destruct (sigs (opts a)).
    + by apply elem_of_nil in Hin.
    + by apply list_elem_of_singleton in Hin.
  - intros (hook & Hh & Hs). left. eauto.
Qed.

Lemma SignalTask_in_spawn a : SignalTask ∈ spawn a ↔ sigs (opts a) ≠ [].
Proof.
  unfold spawn, spawn_listener. rewrite elem_of_app. split.
  - intros [Hin|Hin]; [by apply SignalTask_not_in_spawn_hooks in Hin|].
    destruct (sigs (opts a)); [by apply elem_of_nil in Hin|done].
  - intros Hne. right. destruct (sigs (opts a)); [done|].
    by apply list_elem_of_singleton.
Qed.

(** The tasks of a hook sit at distinct positions: [(k, h)] names a task. *)
Lemma spawn_hooks_bound n hs i k h f :
  spawn_hooks n hs !! i = Some (HookTask k h f) → (n ≤ h)%nat.
Proof.
  intros Hi. apply list_elem_of_lookup_2 in Hi.
  apply elem_of_spawn_hooks in Hi as (h' & _ & -> & _). lia.
Qed.

Lemma spawn_hooks_inj n hs i j k h f g :
  spawn_hooks n hs !! i = Some (HookTask k h f) →
  spawn_hooks n hs !! j = Some (HookTask k h g) →
  i = j.
Proof.
  revert n i j. induction hs as [|hook hs IH]; intros n i j; simpl; [done|].
  destruct (OnStop hook) as [fs|] eqn:Hs, (OnStart hook) as [fa|] eqn:Ha; simpl.
  - destruct i as [|[|i]], j as [|[|j]]; simpl; intros Hi Hj; simplify_eq; try done.
    all: try (apply spawn_hooks_bound in Hi; lia).
    all: try (apply spawn_hooks_bound in Hj; lia).
    do 2 f_equal. by eapply IH.
  - destruct i as [|i], j as [|j]; simpl; intros Hi Hj; simplify_eq; try done.
    all: try (apply spawn_hooks_bound in Hi; lia).
    all: try (apply spawn_hooks_bound in Hj; lia).
    f_equal. by eapply IH.
  - destruct i as [|i], j as [|j]; simpl; intros Hi Hj; simplify_eq; try done.
    all: try (apply spawn_hooks_bound in Hi; lia).
    all: try (apply spawn_hooks_bound in Hj; lia).
    f_equal. by eapply IH.
  - by apply IH.
Qed.

Lemma spawn_lookup_hooks a i k h f :
  spawn a !! i = Some (HookTask k h f) →
  spawn_hooks 0 (hooks a) !! i = Some (HookTask k h f).
Proof.
  unfold spawn. intros Hi.
  apply lookup_app_Some in Hi as [Hi|[_ Hi]]; [done|].
  unfold spawn_listener in Hi. destruct (sigs (opts a)); [done|].
  by destruct (i - _)%nat.
Qed.

Lemma spawn_inj a i j k h f g :
  spawn a !! i = Some (HookTask k h f) →
  spawn a !! j = Some (HookTask k h g) →
  i = j.
Proof.
  intros Hi%spawn_lookup_hooks Hj%spawn_lookup_hooks.
  by eapply spawn_hooks_inj.
Qed.

(** ** Contexts and cancel functions *)
#[global] Arguments ctx_err : simpl never.
#[global] Arguments cancel_ctx : simpl never.
#[global] Arguments cancel_group : simpl never.
#[global] Arguments cancel_app : simpl never.
#[global] Arguments cancel_handler : simpl never.
#[global] Arguments keep_first : simpl never.
#[global] Arguments handled : simpl never.

Lemma cancel_ctx_cases now c cs :
  cancel_ctx now c cs = cs ∨
  ∃ k, ctx_key c = Some k ∧ cancel_ctx now c cs = k :: cs.
Proof.
  unfold cancel_ctx. destruct (ctx_err now cs c); [by left|].
  destruct c; simpl; eauto.
Qed.

Lemma cancel_ctx_incl now c cs k : k ∈ cs → k ∈ cancel_ctx now c cs.
Proof.
  destruct (cancel_ctx_cases now c cs) as [->|(k' & _ & ->)]; [done|].
  by constructor.
Qed.

Lemma elem_of_cancel_ctx now c cs k :
  k ∈ cancel_ctx now c cs → k ∈ cs ∨ ctx_key c = Some k.
Proof.
  destruct (cancel_ctx_cases now c cs) as [->|(k' & Hk & ->)]; [by left|].
  intros [->|Hin]%elem_of_cons; eauto.
Qed.

Lemma group_err_Some now cs :
  ctx_err now cs groupCtx = Some Canceled ↔ CGroup ∈ cs ∨ CRoot ∈ cs.
Proof.
  cbv [ctx_err groupCtx rootCtx].
  repeat case_bool_decide; intuition congruence.
Qed.

Lemma group_err_None now cs :
  ctx_err now cs groupCtx = None ↔ (CGroup ∉ cs) ∧ (CRoot ∉ cs).
Proof.
  cbv [ctx_err groupCtx rootCtx].
  repeat case_bool_decide; intuition congruence.
Qed.

Lemma group_err_cases now cs :
  ctx_err now cs groupCtx = None ∨ ctx_err now cs groupCtx = Some Canceled.
Proof. cbv [ctx_err groupCtx rootCtx]. repeat case_bool_decide; auto. Qed.

Lemma root_err_Some now cs :
  ctx_err now cs rootCtx = Some Canceled ↔ CRoot ∈ cs.
Proof.
  cbv [ctx_err rootCtx]. case_bool_decide; intuition congruence.
Qed.

Lemma group_err_mono now now' cs cs' :
  cs ⊆ cs' →
  ctx_err now cs groupCtx = Some Canceled →
  ctx_err now' cs' groupCtx = Some Canceled.
Proof.
  rewrite !group_err_Some. intros Hsub [?|?]; [left|right]; by apply Hsub.
Qed.

Lemma group_err_cancel now now' cs :
  ctx_err now' (cancel_ctx now groupCtx cs) groupCtx = Some Canceled.
Proof.
  unfold cancel_ctx.
  destruct (group_err_cases now cs) as [He|He]; rewrite He.
  - apply group_err_Some. left. by constructor.
  - by eapply group_err_mono.
Qed.

Lemma cancel_app_incl a now cs k : k ∈ cs → k ∈ cancel_app a now cs.
Proof.
  unfold cancel_app. destruct (cancel a) as [[c]|]; [|done].
  apply cancel_ctx_incl.
Qed.

Lemma cancel_group_incl e g now cs k : k ∈ cs → k ∈ cancel_group e g now cs.
Proof.
  unfold cancel_group. destruct e, g; try done. apply cancel_ctx_incl.
Qed.

Lemma cancel_handler_incl a sig now cs k :
  k ∈ cs → k ∈ cancel_handler a sig now cs.
Proof.
  unfold cancel_handler. destruct (sigFn (opts a)) as [fn|]; [|done].
  destruct (fn sig); [|done]. apply cancel_app_incl.
Qed.

Lemma elem_of_cancel_app a now cs k :
  cancel a = Some (CancelOf rootCtx) ∨ cancel a = None →
  k ∈ cancel_app a now cs → k ∈ cs ∨ k = CRoot.
Proof.
  unfold cancel_app. intros [->| ->]; [|by left].
  intros [?|[= <-]]%elem_of_cancel_ctx; auto.
Qed.

Lemma elem_of_cancel_group e g now cs k :
  k ∈ cancel_group e g now cs → k ∈ cs ∨ k = CGroup.
Proof.
  unfold cancel_group. destruct e, g; auto.
  intros [?|[= <-]]%elem_of_cancel_ctx; auto.
Qed.

Lemma elem_of_cancel_handler a sig now cs k :
  cancel a = Some (CancelOf rootCtx) ∨ cancel a = None →
  k ∈ cancel_handler a sig now cs → k ∈ cs ∨ k = CRoot.
Proof.
  unfold cancel_handler. intros Ha.
  destruct (sigFn (opts a)) as [fn|]; [|by left].
  destruct (fn sig); [|by left]. by apply elem_of_cancel_app.
Qed.

(** In every state of a run the [App] holds no cancel function or that of
    the root context. *)
Lemma wf_cancel a st :
  wf a st →
  cancel (st_app st) = Some (CancelOf rootCtx) ∨ cancel (st_app st) = None.
Proof.
  intros Hwf. destruct (st_status st) eqn:Hs.
  - right. by apply (wf_idle _ _ Hwf).
  - left. apply (wf_spawned _ _ Hwf). congruence.
  - left. apply (wf_spawned _ _ Hwf). congruence.
Qed.

(** Cancellations are never taken back. *)
Lemma canceled_mono a l st st' :
  wf a st → Step l st st' → st_canceled st ⊆ st_canceled st'.
Proof.
  intros Hwf HS k Hk. destruct HS; norm; try done.
  - apply Run_spawn_eq in H as [Hidle _].
    apply (wf_idle _ _ Hwf) in Hidle as (_ & Hcs & _).
    rewrite Hcs in Hk. by apply elem_of_nil in Hk.
  - by apply cancel_app_incl.
  - by apply cancel_group_incl, cancel_ctx_incl.
  - by apply cancel_group_incl.
  - by apply cancel_handler_incl.
  - by apply cancel_ctx_incl.
Qed.

(** ** The invariants of a run *)
Lemma wf_not_idle a st i t :
  wf a st → st_tasks st !! i = Some t → st_status st ≠ Idle.
Proof.
  intros Hwf Ht Hidle.
  apply (wf_idle _ _ Hwf) in Hidle as (_ & _ & _ & Hts & _).
  by rewrite Hts in Ht.
Qed.

Lemma wf_task_spawned a st i t :
  wf a st → st_tasks st !! i = Some t → spawn a !! i = Some (t_body t).
Proof.
  intros Hwf Ht.
  destruct (wf_spawned _ _ Hwf (wf_not_idle _ _ _ _ Hwf Ht)) as [_ <-].
  by rewrite list_lookup_fmap, Ht.
Qed.

Lemma wf_task_registered a st i k h f p :
  wf a st →
  st_tasks st !! i = Some {| t_body := HookTask k h f; t_pc := p |} →
  registered a k h f.
Proof.
  intros Hwf Ht%(wf_task_spawned a); [|done].
  by eapply elem_of_spawn, list_elem_of_lookup_2.
Qed.

(** What a step may add to the cancelled set: the root (by [Stop]), the
    group (by a failure or by [g.Wait]), the call of the returning task. *)
Lemma canceled_grows a l st st' k :
  wf a st → pcs_ok a st → Step l st st' →
  k ∈ st_canceled st' →
  k ∈ st_canceled st ∨ k = CRoot ∨ k = CGroup ∨ ∃ i, l = LTask i ∧ k = CCall i.
Proof.
  intros Hwf Hpcs HS. pose proof (wf_cancel _ _ Hwf) as Hc.
  destruct HS; norm; auto.
  - apply Run_spawn_eq in H as [_ ->]. simpl. by intros ?%elem_of_nil.
  - intros [?|?]%elem_of_cancel_app; auto.
  - specialize (Hpcs _ _ H). unfold pc_ok in Hpcs; simpl in Hpcs.
    destruct Hpcs as (_ & t0 & sh & -> & _).
    intros [[?|[= <-]]%elem_of_cancel_ctx|?]%elem_of_cancel_group; eauto 10.
  - intros [?|?]%elem_of_cancel_group; auto.
  - intros [?|?]%elem_of_cancel_handler; auto.
  - intros [?|[= <-]]%elem_of_cancel_ctx; auto.
Qed.

Lemma pc_ok_frame a st st' j t :
  st_log st ⊆ st_log st' →
  (CCall j ∈ st_canceled st' → CCall j ∈ st_canceled st) →
  pc_ok a st j t → pc_ok a st' j t.
Proof.
  intros Hlog Hcs. unfold pc_ok.
  destruct (t_body t) as [k h f|], (t_pc t) as [|c|e]; try done.
  - intros Hn Hin. by apply Hn, Hcs.
  - intros (Hn & t0 & sh & -> & Hin). split; [by intros ?%Hcs|]. eauto.
  - intros (Hin & c & t0 & sh & Hin'). split; [by apply Hlog|].
    exists c, t0, sh. by apply Hlog.
  - intros [-> Hin]. split; [done|]. by apply Hlog.
Qed.

Lemma log_mono l st st' : Step l st st' → st_log st ⊆ st_log st'.
Proof.
  intros HS ev Hev. destruct HS; norm; try done; try by constructor.
  - apply Run_spawn_eq in H as [_ ->]. done.
  - unfold handled. destruct (sigFn _); [by constructor|done].
Qed.

Lemma pcs_ok_boot a now : pcs_ok a (boot a now).
Proof. intros i t Ht. simpl in Ht. by rewrite lookup_nil in Ht. Qed.

Lemma pcs_ok_step a l st st' :
  wf a st → pcs_ok a st → Step l st st' → pcs_ok a st'.
Proof.
  intros Hwf Hpcs HS j t' Ht'.
  pose proof (log_mono _ _ _ HS) as Hlog.
  pose proof (λ k, canceled_grows a _ _ _ k Hwf Hpcs HS) as Hcs.
  destruct HS.
  - apply Run_spawn_eq in H as [_ ->]. simpl in *.
    rewrite list_lookup_fmap in Ht'.
    destruct (spawn (st_app st) !! j) as [[k h f|]|]; simplify_eq/=; try done.
    unfold pc_ok; simpl. apply not_elem_of_nil.
  - norm_in Ht'. eapply pc_ok_frame; [done| |by apply Hpcs].
    intros [?|[?|[?|(i' & ? & ?)]]]%Hcs; [done..|congruence].
  - norm_in Ht'. eapply pc_ok_frame; [done| |by apply Hpcs].
    intros [?|[?|[?|(i' & ? & ?)]]]%Hcs; [done..|congruence].
  - norm_in Ht'. eapply pc_ok_frame; [done| |by apply Hpcs].
    intros [?|[?|[?|(i' & ? & ?)]]]%Hcs; [done..|congruence].
  - by apply Hpcs.
  - norm_in Ht'.
    apply lookup_alter_pc in Ht' as [(-> & t0 & Ht0 & ->)|[Hne Ht']].
    + rewrite H in Ht0. injection Ht0 as <-.
      specialize (Hpcs _ _ H). unfold pc_ok in *; simpl in *.
      split; [done|]. exists (st_now st), (Err st groupCtx).
      rewrite (wf_opts _ _ Hwf). split; [done|]. by constructor.
    + eapply pc_ok_frame; [done| |by apply Hpcs].
      intros [?|[?|[?|(i' & ? & ?)]]]%Hcs; [done..|congruence].
  - norm_in Ht'.
    apply lookup_alter_pc in Ht' as [(-> & t0 & Ht0 & ->)|[Hne Ht']].
    + rewrite H in Ht0. injection Ht0 as <-.
      specialize (Hpcs _ _ H). unfold pc_ok in Hpcs; simpl in Hpcs.
      destruct Hpcs as (_ & t0 & sh & -> & Hin).
      unfold pc_ok; norm.
      split; [by constructor|]. eexists _, _, _. by constructor.
    + eapply pc_ok_frame; [done| |by apply Hpcs].
      intros [?|[?|[?|(i' & ? & ?)]]]%Hcs; [done..|congruence].
  - norm_in Ht'.
    apply lookup_alter_pc in Ht' as [(-> & t0 & Ht0 & ->)|[Hne Ht']].
    + rewrite H in Ht0. injection Ht0 as <-.
      unfold pc_ok; norm.
      destruct (group_err_cases (st_now st) (st_canceled st)) as [He|He];
        unfold Err in H0; rewrite He in H0; [done|]. injection H0 as <-.
      split; [done|]. by constructor.
    + eapply pc_ok_frame; [done| |by apply Hpcs].
      intros [?|[?|[?|(i' & ? & ?)]]]%Hcs; [done..|congruence].
  - norm_in Ht'. eapply pc_ok_frame; [done| |by apply Hpcs].
    intros [?|[?|[?|(i' & ? & ?)]]]%Hcs; [done..|congruence].
  - norm_in Ht'. eapply pc_ok_frame; [done| |by apply Hpcs].
    intros [?|[?|[?|(i' & ? & ?)]]]%Hcs; [done..|congruence].
Qed.

Lemma log_ok_boot a now : log_ok a (boot a now).
Proof. split; simpl; intros; by apply elem_of_nil in H. Qed.

Lemma log_ok_step a l st st' :
  wf a st → log_ok a st → Step l st st' → log_ok a st'.
Proof.
  intros Hwf [Hcall Hret Hexit] HS. destruct HS.
  - apply Run_spawn_eq in H as [_ ->]. by split.
  - split; norm; done.
  - split; norm; try done.
    intros k h c t sh (i & f & ? & ? & ? & ?)%Hcall.
    exists i, f. repeat split; try done. lia.
  - split; norm.
    + intros k h c t sh [?|Hin]%elem_of_cons; [done|]. by apply Hcall.
    + intros k h e [?|Hin]%elem_of_cons; [done|]. by apply Hret.
    + intros e [?|Hin]%elem_of_cons; [done|]. by apply Hexit.
  - by split.
  - split; norm.
    + intros k' h' c t sh [[= -> -> -> -> ->]|Hin]%elem_of_cons; [|by apply Hcall].
      exists i, f. rewrite (wf_opts _ _ Hwf).
      split; [by apply (wf_task_spawned _ _ _ _ Hwf H)|].
      split; [done|]. split; [lia|]. intros Hk. specialize (H0 Hk).
      unfold Err in *.
      by destruct (group_err_cases (st_now st) (st_canceled st)) as [He|He].
    + intros k' h' e [?|Hin]%elem_of_cons; [done|]. by apply Hret.
    + intros e [?|Hin]%elem_of_cons; [done|]. by apply Hexit.
  - split; norm.
    + intros k' h' c' t sh [?|Hin]%elem_of_cons; [done|]. by apply Hcall.
    + intros k' h' e' [[= -> -> ->]|Hin]%elem_of_cons; [|by apply Hret].
      exists f, (look st c). split; [|done].
      by eapply wf_task_registered.
    + intros e' [?|Hin]%elem_of_cons; [done|]. by apply Hexit.
  - split; norm.
    + intros k' h' c' t sh [?|Hin]%elem_of_cons; [done|]. by apply Hcall.
    + intros k' h' e' [?|Hin]%elem_of_cons; [done|]. by apply Hret.
    + intros e' [[= ->]|Hin]%elem_of_cons; [|by apply Hexit].
      unfold Err in *.
      destruct (group_err_cases (st_now st) (st_canceled st)) as [He|He];
        congruence.
  - split; norm; unfold handled; destruct (sigFn _).
    + intros k' h' c' t sh [?|Hin]%elem_of_cons; [done|]. by apply Hcall.
    + done.
    + intros k' h' e' [?|Hin]%elem_of_cons; [done|]. by apply Hret.
    + done.
    + intros e' [?|Hin]%elem_of_cons; [done|]. by apply Hexit.
    + done.
  - split; norm; done.
Qed.

(** *** The first failure *)
#[global] Arguments result !ev /.

Lemma first_failure_Some lg ev :
  first_failure lg = Some ev → ev ∈ lg ∧ ∃ e, result ev = Some e.
Proof.
  induction lg as [|x lg IH]; simpl; [done|].
  destruct (first_failure lg) as [y|].
  - intros [= ->]. destruct IH as [? ?]; [done|]. split; [by constructor|done].
  - destruct (result x) as [e|] eqn:Hx; [|done].
    intros [= ->]. split; [by constructor|eauto].
Qed.

Lemma first_failure_None lg ev :
  first_failure lg = None → ev ∈ lg → result ev = None.
Proof.
  induction lg as [|x lg IH]; simpl; [by intros _ ?%elem_of_nil|].
  destruct (first_failure lg) as [y|]; [done|].
  destruct (result x) eqn:Hx; [done|].
  intros _ [->|Hin]%elem_of_cons; auto.
Qed.

Lemma first_failure_silent ev lg :
  result ev = None → first_failure (ev :: lg) = first_failure lg.
Proof. intros Hr. simpl. rewrite Hr. by destruct (first_failure lg). Qed.

Lemma first_failure_cons ev lg :
  first_failure (ev :: lg) ≫= result =
  keep_first (first_failure lg ≫= result) (result ev).
Proof.
  simpl. destruct (first_failure lg) as [x|] eqn:Hf; simpl.
  - apply first_failure_Some in Hf as [_ [e He]]. unfold keep_first.
    by rewrite He.
  - unfold keep_first. by destruct (result ev) eqn:Hev.
Qed.

#[global] Arguments first_failure : simpl never.

Lemma group_ok_boot a now : group_ok (boot a now).
Proof. by split. Qed.

Lemma group_ok_step a l st st' :
  wf a st → group_ok st → Step l st st' → group_ok st'.
Proof.
  intros Hwf [Herr Hcan Hret] HS.
  pose proof (canceled_mono _ _ _ _ Hwf HS) as Hmono.
  assert (∀ now, Err st groupCtx = Some Canceled →
                 ctx_err now (st_canceled st') groupCtx = Some Canceled) as Hkeep.
  { intros now. by apply group_err_mono. }
  destruct HS.
  - apply Run_spawn_eq in H as [Hidle ->]. split; simpl; try done.
    apply (wf_idle _ _ Hwf) in Hidle as (_ & _ & _ & _ & _ & _ & ->). done.
  - revert Hkeep. norm. intros Hkeep. split; simpl; unfold Err; simpl; eauto.
  - revert Hkeep. norm. intros Hkeep. split; simpl; unfold Err; simpl; eauto.
  - revert Hkeep. norm. intros Hkeep. split; simpl; unfold Err; simpl; eauto.
    by rewrite first_failure_silent.
  - by split.
  - revert Hkeep. norm. intros Hkeep. split; simpl; unfold Err; simpl; eauto.
    by rewrite first_failure_silent.
  - revert Hkeep. norm. intros Hkeep. split; simpl; unfold Err; simpl; eauto.
    + rewrite Herr. symmetry. apply (first_failure_cons (EvReturn k h e)).
    + destruct (st_gerr st) as [g|] eqn:Hg; [auto|].
      unfold keep_first. intros He. destruct e as [e|]; [|done].
      unfold cancel_group. rewrite group_err_Some. 
      pose proof (group_err_cancel (st_now st) (st_now st)
        (cancel_ctx (st_now st) c (st_canceled st))) as Hx.
      by apply group_err_Some in Hx.
  - revert Hkeep. norm. intros Hkeep. split; simpl; unfold Err; simpl; eauto.
    + rewrite Herr. symmetry. apply (first_failure_cons (EvListenerExit (Some e))).
    + intros _. apply Hkeep. unfold Err in H0.
      by destruct (group_err_cases (st_now st) (st_canceled st)) as [He|He];
        rewrite He in H0.
  - revert Hkeep. norm. intros Hkeep. split; simpl; unfold Err; simpl; eauto.
    unfold handled. destruct (sigFn _); [|done].
    by rewrite first_failure_silent.
  - split; norm; unfold Err; simpl; auto; intros; apply group_err_cancel.
Qed.

Lemma inv_boot a now : cancel a = None → inv a (boot a now).
Proof.
  intros Ha. split.
  - by apply wf_boot.
  - apply pcs_ok_boot.
  - apply log_ok_boot.
  - apply group_ok_boot.
Qed.

Lemma inv_step a l st st' : inv a st → Step l st st' → inv a st'.
Proof.
  intros [Hwf Hpcs Hlog Hgrp] HS. split.
  - by eapply wf_step.
  - by eapply pcs_ok_step.
  - by eapply log_ok_step.
  - by eapply group_ok_step.
Qed.

Lemma inv_exec a ls st st' : inv a st → exec ls st = Some st' → inv a st'.
Proof. apply (exec_invariant (inv a)). intros l. apply inv_step. Qed.

Lemma inv_run a now ls st :
  cancel a = None → exec ls (boot a now) = Some st → inv a st.
Proof. intros Ha. apply inv_exec. by apply inv_boot. Qed.

(** ** The options of [New] and the hooks of [Append] *)
Lemma Split_nonempty s sep : Split s sep ≠ [].
Proof.
  induction s as [|c s IH]; simpl; [done|].
  destruct (Ascii.eqb c sep); [done|]. by destruct (Split s sep).
Qed.

Lemma default_sigFn_spec sig :
  default_sigFn sig = CallStop ↔ sig = SIGINT ∨ sig = SIGQUIT ∨ sig = SIGTERM.
Proof.
  unfold default_sigFn.
  destruct ((sig =? SIGINT) || (sig =? SIGQUIT) || (sig =? SIGTERM)) eqn:Hb.
  - rewrite !orb_true_iff, !Z.eqb_eq in Hb. split; [intros _; tauto|done].
  - rewrite !orb_false_iff, !Z.eqb_neq in Hb. split; [done|tauto].
Qed.

Lemma default_sigFn_other sig :
  default_sigFn sig = NoCall ↔ ¬ (sig = SIGINT ∨ sig = SIGQUIT ∨ sig = SIGTERM).
Proof.
  rewrite <-default_sigFn_spec. by destruct (default_sigFn sig).
Qed.

(** C5. [New] without options sets both timeouts to 30 seconds and the
    signal set to SIGINT, SIGQUIT and SIGTERM; its signal handler calls
    [Stop] for these three signals, which cancels the root context of the
    run, and does nothing to the [App] for any other signal. *)
Theorem C5_defaults env st sig :
  opts (st_app st) = opts (New env []) →
  startTimeout (opts (New env [])) = 30 * Second ∧
  stopTimeout (opts (New env [])) = 30 * Second ∧
  30 * Second = 30000000000 ∧
  (∀ s, s ∈ sigs (opts (New env [])) ↔ s = SIGINT ∨ s = SIGQUIT ∨ s = SIGTERM) ∧
  (sig = SIGINT ∨ sig = SIGQUIT ∨ sig = SIGTERM →
   handle sig st = Stop (record (EvHandle sig) st) ∧
   (cancel (st_app st) = Some (CancelOf rootCtx) →
    Err (handle sig st) rootCtx = Some Canceled)) ∧
  (¬ (sig = SIGINT ∨ sig = SIGQUIT ∨ sig = SIGTERM) →
   handle sig st = record (EvHandle sig) st).
Proof.
  intros Ho. split; [done|]. split; [done|]. split; [done|]. split.
  { intros s. simpl. rewrite !elem_of_cons, elem_of_nil. tauto. }
  split.
  - intros Hsig%default_sigFn_spec.
    assert (handle sig st = Stop (record (EvHandle sig) st)) as Hh.
    { unfold handle. rewrite Ho. simpl. by rewrite Hsig. }
    split; [done|]. intros Hc. rewrite Hh, Stop_eq. unfold Err; simpl.
    unfold cancel_app. rewrite Hc. apply root_err_Some.
    unfold cancel_ctx.
    destruct (ctx_err (st_now st) (st_canceled st) rootCtx) as [e|] eqn:He.
    + cbv [ctx_err rootCtx] in He. by case_bool_decide.
    + by constructor.
  - intros Hsig%default_sigFn_other.
    unfold handle. rewrite Ho. simpl. by rewrite Hsig.
Qed.

Lemma C5_defaults_witness :
  ∃ st, exec [LRun; LSignal SIGTERM] (boot (New ∅ []) 0) = Some st ∧
        handle SIGTERM st = Stop (record (EvHandle SIGTERM) st) ∧
        Err (handle SIGTERM st) rootCtx = Some Canceled.
Proof.
  eexists. split; [reflexivity|].
  match goal with
  | |- handle _ ?st = _ ∧ _ =>
      destruct (C5_defaults ∅ st SIGTERM eq_refl) as (_ & _ & _ & _ & Hstop & _)
  end.
  destruct Hstop as [Hh Hc]; [by right; right|].
  split; [exact Hh|]. by apply Hc.
Defined.

(** C10. [Append] registers a hook both of whose callbacks are present:
    they wrap the [Start] and the [Stop] of the component, so [Run] spawns
    a stop task and a start task for it. When KRATOS_SERVICE_ENDPOINTS is
    unset the default endpoints are the one-element list of the empty
    string; the default endpoints are never the empty list. *)
Theorem C10_append_and_endpoints {T} `{Lifecycle.t T} (lc : T) (a : App)
    (env : gmap string string) :
  (∃ hook, hooks (Append lc a) = hooks a ++ [hook] ∧
           OnStart hook = Some (Lifecycle.Start lc) ∧
           OnStop hook = Some (Lifecycle.Stop lc)) ∧
  HookTask KStop (length (hooks a)) (Lifecycle.Stop lc) ∈ spawn (Append lc a) ∧
  HookTask KStart (length (hooks a)) (Lifecycle.Start lc) ∈ spawn (Append lc a) ∧
  (env !! "KRATOS_SERVICE_ENDPOINTS" = None →
   endpoints (opts (New env [])) = [EmptyString]) ∧
  endpoints (opts (New env [])) ≠ [].
Proof.
  split; [eexists; by split|].
  assert (hooks (Append lc a) !! length (hooks a) =
          Some {| OnStart := Some (Lifecycle.Start lc);
                  OnStop := Some (Lifecycle.Stop lc) |}) as Hl.
  { simpl. by rewrite lookup_app_r, Nat.sub_diag by lia. }
  split; [apply elem_of_spawn; by eexists|].
  split; [apply elem_of_spawn; by eexists|].
  split.
  - intros Henv. simpl. unfold Getenv. by rewrite Henv.
  - apply Split_nonempty.
Qed.

Lemma C10_append_and_endpoints_witness :
  HookTask KStop 0 succeed ∈ spawn server_app ∧
  HookTask KStart 0 succeed ∈ spawn server_app ∧
  endpoints (opts (New ∅ [])) = [EmptyString].
Proof.
  destruct (C10_append_and_endpoints
              {| comp_start := succeed; comp_stop := succeed |} (New ∅ []) ∅)
    as (_ & Hstop & Hstart & Hend & _).
  split; [exact Hstop|]. split; [exact Hstart|]. apply Hend. reflexivity.
Defined.

(** ** The contexts of the callbacks *)
Lemma call_ctx_err now cs t0 d i :
  ctx_err now cs (WithTimeout Background t0 d (CCall i)) =
  if bool_decide (CCall i ∈ cs) then Some Canceled
  else if t0 + d <=? now then Some DeadlineExceeded else None.
Proof. done. Qed.

Lemma call_ctx_err_ext now cs cs' t0 d i :
  (CCall i ∈ cs' ↔ CCall i ∈ cs) →
  ctx_err now cs' (WithTimeout Background t0 d (CCall i)) =
  ctx_err now cs (WithTimeout Background t0 d (CCall i)).
Proof.
  intros Hiff. rewrite !call_ctx_err.
  destruct (bool_decide_reflect (CCall i ∈ cs)),
    (bool_decide_reflect (CCall i ∈ cs')); tauto.
Qed.

(** A task that is inside its callback holds a context made from the
    background by the timeout of its kind, at some earlier instant, and
    the cancel function of that context has not been called. *)
Lemma calling_ctx a st i k h f c :
  inv a st →
  st_tasks st !! i = Some {| t_body := HookTask k h f; t_pc := Calling c |} →
  ∃ t0, c = WithTimeout Background t0 (timeout_of k (opts a)) (CCall i) ∧
        t0 ≤ st_now st ∧ CCall i ∉ st_canceled st.
Proof.
  intros Hinv Ht. pose proof (inv_pcs _ _ Hinv _ _ Ht) as Hpc.
  unfold pc_ok in Hpc; simpl in Hpc.
  destruct Hpc as (Hn & t0 & sh & -> & Hin).
  apply (log_call _ _ (inv_log _ _ Hinv)) in Hin as (i' & f' & _ & _ & Hle & _).
  eauto.
Qed.

(** ** [Stop] *)
Lemma ctx_err_key now cs c k :
  ctx_key c = Some k → k ∈ cs → ctx_err now cs c = Some Canceled.
Proof.
  destruct c; simpl; [done|..]; intros [= ->] Hin; cbv [ctx_err];
    by rewrite bool_decide_eq_true_2.
Qed.

Lemma cancel_ctx_idem now c cs :
  cancel_ctx now c (cancel_ctx now c cs) = cancel_ctx now c cs.
Proof.
  destruct (cancel_ctx_cases now c cs) as [Heq|(k & Hk & ->)];
    [by rewrite !Heq|].
  unfold cancel_ctx at 1.
  rewrite (ctx_err_key now (k :: cs) c k Hk); [done|by constructor].
Qed.

Lemma cancel_ctx_done now c cs e :
  ctx_err now cs c = Some e → cancel_ctx now c cs = cs.
Proof. unfold cancel_ctx. by intros ->. Qed.

Lemma Stop_idem st : Stop (Stop st) = Stop st.
Proof.
  rewrite !Stop_eq; simpl. unfold cancel_app.
  destruct (cancel (st_app st)) as [[c]|]; [|done].
  by rewrite cancel_ctx_idem.
Qed.

Lemma Stop_iter st n : Nat.iter (S n) Stop st = Stop st.
Proof.
  induction n as [|n IH]; [done|].
  change (Nat.iter (S (S n)) Stop st) with (Stop (Nat.iter (S n) Stop st)).
  by rewrite IH, Stop_idem.
Qed.

Lemma Stop_nil st : cancel (st_app st) = None → Stop st = st.
Proof. unfold Stop. by intros ->. Qed.

Lemma Stop_stopped st e :
  cancel (st_app st) = Some (CancelOf rootCtx) →
  Err st rootCtx = Some e →
  Stop st = st.
Proof.
  intros Hc He. rewrite Stop_eq. unfold cancel_app. rewrite Hc.
  rewrite (cancel_ctx_done _ _ _ _ He). apply set_canceled_id.
Qed.

Lemma Stop_cancels st :
  cancel (st_app st) = Some (CancelOf rootCtx) →
  Err (Stop st) rootCtx = Some Canceled.
Proof.
  intros Hc. rewrite Stop_eq. unfold Err, cancel_app; simpl. rewrite Hc.
  apply root_err_Some. unfold cancel_ctx.
  destruct (ctx_err (st_now st) (st_canceled st) rootCtx) as [e|] eqn:He.
  - cbv [ctx_err rootCtx] in He. by case_bool_decide.
  - by constructor.
Qed.

Lemma status_Returned_step l st st' r :
  Step l st st' → st_status st = Returned r → st_status st' = Returned r.
Proof.
  intros HS Hr. destruct HS; norm; try done.
  - apply Run_spawn_eq in H as [Hidle _]. congruence.
  - congruence.
Qed.

Lemma status_Returned_exec ls st st' r :
  exec ls st = Some st' → st_status st = Returned r → st_status st' = Returned r.
Proof.
  intros Hex Hr. revert Hex. apply (exec_invariant (λ s, st_status s = Returned r)); [|done].
  intros l s s' Hs HS. by eapply status_Returned_step.
Qed.

Lemma status_not_Idle_step l st st' :
  Step l st st' → st_status st ≠ Idle → st_status st' ≠ Idle.
Proof.
  intros HS Hr. destruct HS; norm; try done.
  apply Run_spawn_eq in H as [_ ->]. done.
Qed.

(** Once the root context is cancelled it stays cancelled and the [App]
    keeps the same cancel function: a later [Stop] changes nothing. *)
Lemma stopped_exec a ls st st' :
  inv a st → st_status st ≠ Idle → CRoot ∈ st_canceled st →
  exec ls st = Some st' →
  inv a st' ∧ st_status st' ≠ Idle ∧ CRoot ∈ st_canceled st'.
Proof.
  intros Hinv Hs Hc Hex. revert Hex.
  apply (exec_invariant
           (λ s, inv a s ∧ st_status s ≠ Idle ∧ CRoot ∈ st_canceled s)); [|done].
  intros l s s' (Hi & Hni & Hin) HS. split; [by eapply inv_step|]. split.
  - by eapply status_not_Idle_step.
  - by eapply (canceled_mono a), Hin; [apply Hi|].
Qed.

Lemma Stop_again a st :
  inv a st → st_status st ≠ Idle → CRoot ∈ st_canceled st → Stop st = st.
Proof.
  intros Hinv Hs Hc.
  eapply Stop_stopped; [by apply (wf_spawned _ _ (inv_wf _ _ Hinv))|].
  by apply root_err_Some.
Qed.

Lemma Stop_twice_exec a st ls1 ls2 :
  inv a st → st_status st ≠ Idle →
  exec (LStop :: ls1 ++ LStop :: ls2) st = exec (LStop :: ls1 ++ ls2) st.
Proof.
  intros Hinv Hs.
  change (LStop :: ls1 ++ LStop :: ls2) with ((LStop :: ls1) ++ LStop :: ls2).
  change (LStop :: ls1 ++ ls2) with ((LStop :: ls1) ++ ls2).
  rewrite !exec_app.
  destruct (exec (LStop :: ls1) st) as [st1|] eqn:Hex; simpl; [|done].
  simpl in Hex.
  assert (inv a (Stop st)) as Hinv' by (eapply inv_step; [done|apply Step_stop]).
  assert (st_status (Stop st) ≠ Idle) as Hs'.
  { eapply status_not_Idle_step; [apply Step_stop|done]. }
  assert (CRoot ∈ st_canceled (Stop st)) as Hc.
  { apply (root_err_Some (st_now (Stop st))), Stop_cancels.
    by apply (wf_spawned _ _ (inv_wf _ _ Hinv)). }
  destruct (stopped_exec _ _ _ _ Hinv' Hs' Hc Hex) as (Hi1 & Hs1 & Hc1).
  by rewrite (Stop_again _ _ Hi1 Hs1 Hc1).
Qed.

(** C3. [Stop] can be called in every state of a run and always returns:
    it has no result, so no error. It is idempotent, any number of calls
    in a row is one call. Before [Run] it changes nothing. It only ever
    touches the cancellation of the root context: the group's error, the
    tasks and the status are left alone. While the run goes on, a second
    call at any later point changes nothing at all, so the run ends in the
    same state with the same error. After [Run] has returned the returned
    error stays what it is, whatever is called. *)
Theorem C3_stop_idempotent a now ls st :
  cancel a = None →
  exec ls (boot a now) = Some st →
  step LStop st = Some (Stop st) ∧
  Stop (Stop st) = Stop st ∧
  (∀ n, Nat.iter (S n) Stop st = Stop st) ∧
  (st_status st = Idle → Stop st = st) ∧
  (st_gerr (Stop st) = st_gerr st ∧ st_tasks (Stop st) = st_tasks st ∧
   st_status (Stop st) = st_status st ∧ st_log (Stop st) = st_log st) ∧
  (st_status st ≠ Idle →
   ∀ ls1 ls2,
     exec (LStop :: ls1 ++ LStop :: ls2) st = exec (LStop :: ls1 ++ ls2) st) ∧
  (∀ r, st_status st = Returned r →
        st_status (Stop st) = Returned r ∧
        ∀ ls' st', exec ls' st = Some st' → st_status st' = Returned r).
Proof.
  intros Ha Hex. pose proof (inv_run _ _ _ _ Ha Hex) as Hinv.
  split; [done|]. split; [apply Stop_idem|]. split; [apply Stop_iter|].
  split; [|split; [|split]].
  - intros Hidle. apply Stop_nil.
    by apply (wf_idle _ _ (inv_wf _ _ Hinv)).
  - by rewrite Stop_eq.
  - intros Hs ls1 ls2. by eapply Stop_twice_exec.
  - intros r Hr. split; [by rewrite Stop_eq|].
    intros ls' st' Hex'. by eapply status_Returned_exec.
Qed.

Lemma C3_stop_idempotent_witness :
  match exec [LRun; LTask 1; LTask 1] (boot failing_app 0) with
  | Some st =>
      Stop (Stop st) = Stop st ∧
      exec (LStop :: [LTask 0] ++ LStop :: [LTask 0; LSelectDone 2; LWait]) st =
      exec (LStop :: [LTask 0] ++ [LTask 0; LSelectDone 2; LWait]) st
  | None => False
  end.
Proof.
  destruct (exec [LRun; LTask 1%nat; LTask 1%nat] (boot failing_app 0))
    as [st|] eqn:Hex; [|by vm_compute in Hex].
  destruct (C3_stop_idempotent failing_app 0 _ st eq_refl Hex)
    as (_ & Hidem & _ & _ & _ & Htwice & _).
  split; [exact Hidem|]. apply Htwice.
  vm_compute in Hex. by injection Hex as <-.
Defined.

(** ** After [Run] has returned *)

(** C4, as the specification states it, fails: [Run] never clears
    [a.cancel]. After [Run] of an application without signals and without
    hooks has returned, [a.cancel] is still the cancel function of the root
    context, and a call of [Stop] is not ignored: it cancels that context. *)
Lemma C4_counterexample :
  ∃ st, exec [LRun; LWait] (boot quiet_app 0) = Some st ∧
        st_status st = Returned None ∧
        cancel (st_app st) = Some (CancelOf rootCtx) ∧
        cancel (st_app st) ≠ None ∧
        Err st rootCtx = None ∧
        Err (Stop st) rootCtx = Some Canceled.
Proof. eexists. by repeat split. Qed.

(** C4, amended. After [Run] has returned, [a.cancel] still holds the
    cancel function of the root context of that run. A later [Stop] calls
    it: this leaves the returned error, the group's error, the tasks and
    the history as they are, and at most marks the root context of the
    finished run as cancelled. *)
Theorem C4_cancel_kept_after_return a now ls st r :
  cancel a = None →
  exec ls (boot a now) = Some st →
  st_status st = Returned r →
  cancel (st_app st) = Some (CancelOf rootCtx) ∧
  st_status (Stop st) = Returned r ∧
  st_gerr (Stop st) = r ∧
  st_tasks (Stop st) = st_tasks st ∧
  st_log (Stop st) = st_log st ∧
  Stop (Stop st) = Stop st ∧
  (∀ k, k ∈ st_canceled (Stop st) → k ∈ st_canceled st ∨ k = CRoot).
Proof.
  intros Ha Hex Hr. pose proof (inv_run _ _ _ _ Ha Hex) as Hinv.
  pose proof (inv_wf _ _ Hinv) as Hwf.
  split; [apply (wf_spawned _ _ Hwf); congruence|].
  split; [by rewrite Stop_eq|].
  split; [rewrite Stop_eq; simpl; symmetry; by apply (wf_returned _ _ Hwf)|].
  split; [by rewrite Stop_eq|]. split; [by rewrite Stop_eq|].
  split; [apply Stop_idem|].
  intros k. rewrite Stop_eq; simpl. apply elem_of_cancel_app.
  by apply wf_cancel with a.
Qed.

Lemma C4_cancel_kept_after_return_witness :
  match exec [LRun; LTask 1; LTask 1; LTask 0; LTask 0; LSelectDone 2; LWait]
          (boot failing_app 0) with
  | Some st =>
      cancel (st_app st) = Some (CancelOf rootCtx) ∧
      st_status (Stop st) = Returned (Some (Failure "listen"))
  | None => False
  end.
Proof.
  destruct (exec [LRun; LTask 1%nat; LTask 1%nat; LTask 0%nat; LTask 0%nat;
                  LSelectDone 2%nat; LWait] (boot failing_app 0))
    as [st|] eqn:Hex; [|by vm_compute in Hex].
  destruct (C4_cancel_kept_after_return failing_app 0 _ st
              (Some (Failure "listen")) eq_refl Hex) as (Hc & Hs & _).
  - vm_compute in Hex. by injection Hex as <-.
  - by split.
Defined.

(** ** Without signals *)
Lemma no_listener_step a l st st' :
  sigs (opts a) = [] →
  wf a st →
  st_notify st = false ∧ Forall hook_event (st_log st) →
  Step l st st' →
  st_notify st' = false ∧ Forall hook_event (st_log st').
Proof.
  intros Hsigs Hwf [Hn Hlog] HS.
  assert (∀ i p, st_tasks st !! i ≠ Some {| t_body := SignalTask; t_pc := p |})
    as Hno.
  { intros i p Hi%(wf_task_spawned a); [|done].
    apply list_elem_of_lookup_2, SignalTask_in_spawn in Hi. done. }
  destruct HS; norm; try done.
  - apply Run_spawn_eq in H as [_ ->]. simpl.
    by rewrite (wf_opts _ _ Hwf), Hsigs.
  - congruence.
  - split; [done|]. by constructor.
  - split; [done|]. by constructor.
  - by apply Hno in H.
  - by apply Hno in H.
Qed.

Lemma no_listener a now ls st :
  cancel a = None →
  sigs (opts a) = [] →
  exec ls (boot a now) = Some st →
  st_notify st = false ∧ Forall hook_event (st_log st).
Proof.
  intros Ha Hsigs Hex.
  cut (inv a st ∧ st_notify st = false ∧ Forall hook_event (st_log st));
    [tauto|].
  revert Hex. apply (exec_invariant
    (λ s, inv a s ∧ st_notify s = false ∧ Forall hook_event (st_log s))).
  - intros l s s' [Hinv Hs] HS. split; [by eapply inv_step|].
    eapply no_listener_step; [done|apply Hinv|done..].
  - split; [by apply inv_boot|]. by split.
Qed.

(** C6, as the specification states it, fails: without signals and
    without hooks there is no task to wait for, and [Run] returns nil at
    once, with no call of [Stop]. *)
Lemma C6_counterexample :
  sigs (opts quiet_app) = [] ∧ hooks quiet_app = [] ∧
  ∃ st, exec [LRun; LWait] (boot quiet_app 0) = Some st ∧
        st_status st = Returned None ∧
        Err st rootCtx = None.
Proof. split; [done|]. split; [done|]. eexists. by repeat split. Qed.

(** C6, amended. With an empty signal set [Run] spawns no signal
    listener: its tasks are the hook tasks, no signal is relayed and the
    history holds calls and returns of callbacks only. The error that
    [Run] returns is the first failure of the history, so it is nil or an
    error that a registered callback returned. With no hooks either, [Run]
    returns nil immediately, without any call of [Stop]. *)
Theorem C6_no_signals a now ls st :
  cancel a = None →
  sigs (opts a) = [] →
  exec ls (boot a now) = Some st →
  spawn a = spawn_hooks 0 (hooks a) ∧
  (SignalTask ∉ spawn a) ∧
  (∀ i, step (LSelectDone i) st = None ∧ step (LSelectRecv i) st = None) ∧
  (∀ sig, step (LSignal sig) st = None) ∧
  Forall hook_event (st_log st) ∧
  (∀ r, st_status st = Returned r →
        r = first_failure (st_log st) ≫= result ∧
        ∀ e, r = Some e →
             ∃ k h f v, registered a k h f ∧ f v = Returns (Some e)) ∧
  (hooks a = [] →
   ∃ st', exec [LRun; LWait] (boot a now) = Some st' ∧
          st_status st' = Returned None ∧ Err st' rootCtx = None).
Proof.
  intros Ha Hsigs Hex. pose proof (inv_run _ _ _ _ Ha Hex) as Hinv.
  pose proof (inv_wf _ _ Hinv) as Hwf.
  destruct (no_listener _ _ _ _ Ha Hsigs Hex) as [Hn Hlog].
  assert (SignalTask ∉ spawn a) as Hno.
  { by intros ?%SignalTask_in_spawn. }
  split; [|split; [done|split; [|split; [|split; [done|split]]]]].
  - unfold spawn, spawn_listener. rewrite Hsigs. apply app_nil_r.
  - intros i. simpl. unfold select_done, select_recv.
    destruct (st_tasks st !! i) as [[[k h f|] p]|] eqn:Ht; try done.
    apply (wf_task_spawned a) in Ht; [|done].
    by apply list_elem_of_lookup_2 in Ht.
  - intros sig. simpl. unfold deliver. by rewrite Hn.
  - intros r Hr. destruct (wf_returned _ _ Hwf r Hr) as [-> _].
    pose proof (group_err _ (inv_group _ _ Hinv)) as Hg.
    split; [done|]. intros e He. rewrite Hg in He.
    destruct (first_failure (st_log st)) as [ev|] eqn:Hf; [|done].
    simpl in He. apply first_failure_Some in Hf as [Hin _].
    rewrite Forall_forall in Hlog. specialize (Hlog _ Hin).
    destruct ev as [| k h e0 | | |]; simpl in *; try done. subst e0.
    apply (log_return _ _ (inv_log _ _ Hinv)) in Hin as (f & v & Hreg & Hf).
    exists k, h, f, v. by rewrite <-He.
  - intros Hh. unfold exec, step, Run_spawn, Run_wait; simpl.
    unfold spawn, spawn_listener. rewrite Hh, Hsigs. simpl.
    eexists. by repeat split.
Qed.

Lemma C6_no_signals_witness :
  ∃ st', exec [LRun; LWait] (boot quiet_app 0) = Some st' ∧
         st_status st' = Returned None ∧ Err st' rootCtx = None.
Proof.
  destruct (C6_no_signals quiet_app 0 [] (boot quiet_app 0)
              eq_refl eq_refl eq_refl) as (_ & _ & _ & _ & _ & _ & Hret).
  by apply Hret.
Defined.

(** ** The signal listener *)
Lemma spawn_listener_index a i :
  spawn a !! i = Some SignalTask →
  sigs (opts a) ≠ [] ∧ i = length (spawn_hooks 0 (hooks a)).
Proof.
  intros Hi. split.
  { by eapply SignalTask_in_spawn, list_elem_of_lookup_2. }
  unfold spawn in Hi. apply lookup_app_Some in Hi as [Hi|[Hle Hi]].
  - apply list_elem_of_lookup_2 in Hi.
    by apply SignalTask_not_in_spawn_hooks in Hi.
  - unfold spawn_listener in Hi. destruct (sigs (opts a)); [done|].
    destruct (i - _)%nat eqn:Hd; [lia|done].
Qed.

(** Every relayed signal waits in the channel or was given to the
    handler, in the order of arrival. *)
Lemma fifo_step a l st st' :
  sigFn (opts a) ≠ None →
  wf a st →
  omap relayed (st_log st) = reverse (st_chan st) ++ omap handed (st_log st) →
  Step l st st' →
  omap relayed (st_log st') = reverse (st_chan st') ++ omap handed (st_log st').
Proof.
  unfold omap. intros Hfn Hwf Hfifo HS. destruct HS; norm; try done.
  - apply Run_spawn_eq in H as [Hidle ->]. simpl.
    apply (wf_idle _ _ Hwf) in Hidle as (_ & _ & _ & _ & _ & _ & ->). done.
  - rewrite reverse_snoc. simpl. by rewrite Hfifo.
  - unfold handled. rewrite (wf_opts _ _ Hwf).
    destruct (sigFn (opts a)); [|done]. simpl.
    rewrite Hfifo, H0, reverse_cons, <-app_assoc. done.
Qed.

Lemma fifo a now ls st :
  cancel a = None →
  sigFn (opts a) ≠ None →
  exec ls (boot a now) = Some st →
  omap relayed (st_log st) = reverse (st_chan st) ++ omap handed (st_log st).
Proof.
  intros Ha Hfn Hex.
  cut (inv a st ∧
       omap relayed (st_log st) = reverse (st_chan st) ++ omap handed (st_log st));
    [tauto|].
  revert Hex. apply (exec_invariant (λ s, inv a s ∧
    omap relayed (st_log s) = reverse (st_chan s) ++ omap handed (st_log s))).
  - intros l s s' [Hinv Hs] HS. split; [by eapply inv_step|].
    eapply fifo_step; [done|apply Hinv|done..].
  - split; [by apply inv_boot|done].
Qed.

Lemma failure_recorded st ev e :
  group_ok st → ev ∈ st_log st → result ev = Some e →
  Err st groupCtx = Some Canceled.
Proof.
  intros Hg Hin He. apply (group_canceled _ Hg).
  rewrite (group_err _ Hg).
  destruct (first_failure (st_log st)) as [x|] eqn:Hf.
  - apply first_failure_Some in Hf as [_ [e' He']]. simpl. congruence.
  - apply first_failure_None with (ev := ev) in Hf; [congruence|done].
Qed.

(** C7. There is a listener exactly when signals are configured; it is
    the last task. While it is in its loop, it takes the oldest signal of
    the channel, calls the handler on it and stays in the loop; it cannot
    leave while the group's context is not done, and once that context is
    done, by the cancellation of the root or of the group context
    whatever caused it, it can leave, and then reports [ctx.Err()], which
    is [context.Canceled]. Every relayed signal waits in the channel or
    was given to the handler, in order of arrival. *)
Theorem C7_listener a now ls st i p :
  cancel a = None →
  exec ls (boot a now) = Some st →
  st_tasks st !! i = Some {| t_body := SignalTask; t_pc := p |} →
  sigs (opts a) ≠ [] ∧
  i = length (spawn_hooks 0 (hooks a)) ∧
  (p = Spawned ∨ p = Finished (Some Canceled)) ∧
  (p = Spawned →
   (∀ sig rest,
      st_chan st = sig :: rest →
      step (LSelectRecv i) st = Some (handle sig (set_chan rest st)) ∧
      st_tasks (handle sig (set_chan rest st)) !! i =
        Some {| t_body := SignalTask; t_pc := Spawned |}) ∧
   (Err st groupCtx = None → step (LSelectDone i) st = None) ∧
   (∀ e, Err st groupCtx = Some e →
         e = Canceled ∧
         ∃ st', step (LSelectDone i) st = Some st' ∧
                st_tasks st' !! i =
                  Some {| t_body := SignalTask; t_pc := Finished (Some e) |} ∧
                EvListenerExit (Some e) ∈ st_log st')) ∧
  (∀ e, p = Finished e → e = Err st groupCtx ∧ e = Some Canceled) ∧
  (Err st groupCtx ≠ None ↔ CGroup ∈ st_canceled st ∨ CRoot ∈ st_canceled st) ∧
  (sigFn (opts a) ≠ None →
   omap relayed (st_log st) = reverse (st_chan st) ++ omap handed (st_log st)).
Proof.
  intros Ha Hex Ht. pose proof (inv_run _ _ _ _ Ha Hex) as Hinv.
  pose proof (inv_wf _ _ Hinv) as Hwf.
  pose proof (wf_task_spawned _ _ _ _ Hwf Ht) as Hsp. simpl in Hsp.
  destruct (spawn_listener_index _ _ Hsp) as [Hsigs Hi].
  pose proof (inv_pcs _ _ Hinv _ _ Ht) as Hpc. unfold pc_ok in Hpc; simpl in Hpc.
  split; [done|]. split; [done|]. split; [|split; [|split; [|split]]].
  - destruct p as [|c|e]; [by left| |right; by destruct Hpc as [-> _]].
    by apply (wf_listener _ _ Hwf) in Ht.
  - intros ->. split; [|split].
    + intros sig rest Hc. simpl. unfold select_recv. rewrite Ht, Hc.
      split; [done|]. by rewrite handle_eq.
    + intros He. simpl. unfold select_done. by rewrite Ht, He.
    + intros e He. split.
      { unfold Err in He.
        destruct (group_err_cases (st_now st) (st_canceled st)); congruence. }
      simpl. unfold select_done. rewrite Ht, He. eexists. split; [done|].
      norm. rewrite list_lookup_alter_eq, Ht. split; [done|]. by constructor.
  - intros e ->. destruct Hpc as [-> Hin]. split; [|done].
    symmetry. by eapply failure_recorded; [apply Hinv|..].
  - unfold Err.
    destruct (group_err_cases (st_now st) (st_canceled st)) as [He|He];
      rewrite He.
    + apply group_err_None in He. split; [done|]. tauto.
    + apply group_err_Some in He. done.
  - intros Hfn. by eapply fifo.
Qed.

Lemma C7_listener_witness :
  match exec [LRun; LSignal SIGTERM; LSignal SIGINT; LSelectRecv 2]
          (boot failing_app 0) with
  | Some st =>
      st_chan st = [SIGINT] ∧
      Err st groupCtx = Some Canceled ∧
      omap handed (st_log st) = [SIGTERM] ∧
      ∃ st', step (LSelectDone 2) st = Some st' ∧
             st_tasks st' !! 2%nat =
               Some {| t_body := SignalTask; t_pc := Finished (Some Canceled) |}
  | None => False
  end.
Proof.
  destruct (exec [LRun; LSignal SIGTERM; LSignal SIGINT; LSelectRecv 2%nat]
              (boot failing_app 0)) as [st|] eqn:Hex; [|by vm_compute in Hex].
  assert (st_tasks st !! 2%nat =
          Some {| t_body := SignalTask; t_pc := Spawned |} ∧
          st_chan st = [SIGINT] ∧ Err st groupCtx = Some Canceled ∧
          omap handed (st_log st) = [SIGTERM]) as (Ht & Hc & He & Hh).
  { vm_compute in Hex. by injection Hex as <-. }
  destruct (C7_listener failing_app 0 _ st 2%nat Spawned eq_refl Hex Ht)
    as (_ & _ & _ & Hloop & _).
  destruct (Hloop eq_refl) as (_ & _ & Hexit).
  destruct (Hexit Canceled He) as (_ & st' & Hstep & Ht' & _).
  split; [done|]. split; [done|]. split; [done|]. by exists st'.
Defined.

(** ** Failures *)
Lemma first_failure_keep ev x lg :
  first_failure lg = Some x → first_failure (ev :: lg) = Some x.
Proof. unfold first_failure; fold first_failure. by intros ->. Qed.

Lemma first_failure_new ev e lg :
  first_failure lg = None → result ev = Some e →
  first_failure (ev :: lg) = Some ev.
Proof. unfold first_failure; fold first_failure. by intros -> ->. Qed.

Lemma group_err_ext now now' cs cs' :
  (CGroup ∈ cs' ↔ CGroup ∈ cs) → (CRoot ∈ cs' ↔ CRoot ∈ cs) →
  ctx_err now' cs' groupCtx = ctx_err now cs groupCtx.
Proof.
  intros Hg Hr.
  destruct (group_err_cases now cs) as [He|He]; rewrite He.
  - apply group_err_None. apply group_err_None in He. tauto.
  - apply group_err_Some. apply group_err_Some in He. tauto.
Qed.

Lemma group_err_frame now now' cs cs' :
  cs ⊆ cs' → (∀ k, k ∈ cs' → k ∈ cs ∨ ∃ i, k = CCall i) →
  ctx_err now' cs' groupCtx = ctx_err now cs groupCtx.
Proof.
  intros Hsub Hnew. apply group_err_ext; (split; [|by apply Hsub]).
  - by intros [?|[i ?]]%Hnew.
  - by intros [?|[i ?]]%Hnew.
Qed.

Lemma root_in_cancel now cs : CRoot ∈ cancel_ctx now rootCtx cs.
Proof.
  unfold cancel_ctx. destruct (ctx_err now cs rootCtx) as [e|] eqn:He.
  - cbv [ctx_err rootCtx] in He. by case_bool_decide.
  - by constructor.
Qed.

Lemma start_first_boot a now : start_first (boot a now).
Proof. split; simpl; [|done]. intros _. split; [by left|]. intros i t Hi. by rewrite lookup_nil in Hi. Qed.

Lemma start_first_step a l st st' :
  inv a st → start_first st → Step l st st' →
  CRoot ∉ st_canceled st' → start_first st'.
Proof.
  intros Hinv [Hq Hf] HS Hroot.
  pose proof (inv_wf _ _ Hinv) as Hwf.
  assert (CRoot ∉ st_canceled st) as Hroot0.
  { intros Hin. by apply Hroot, (canceled_mono a l st). }
  destruct HS.
  - apply Run_spawn_eq in H as [Hidle ->].
    apply (wf_idle _ _ Hwf) in Hidle as (_ & _ & _ & _ & _ & _ & Hlog).
    split; simpl; rewrite Hlog; [|done]. intros _. split; [by left|].
    intros i t. rewrite list_lookup_fmap.
    destruct (spawn (st_app st) !! i); simpl; [|done]. by intros [= <-].
  - destruct (wf_cancel _ _ Hwf) as [Hc|Hc].
    + exfalso. apply Hroot. apply (root_err_Some (st_now (Stop st))).
      by apply Stop_cancels.
    + by rewrite Stop_nil.
  - by split.
  - split; norm.
    + rewrite first_failure_silent by done. apply Hq.
    + intros ev. rewrite first_failure_silent by done. apply Hf.
  - by split.
  - split; norm.
    + rewrite first_failure_silent by done. intros Hnone.
      destruct (Hq Hnone) as [Herr Hts]. split; [done|].
      assert (k = KStart) as ->.
      { destruct k; [done|]. destruct Herr as [He|[r Hr]]; [by destruct H0|].
        destruct (wf_returned _ _ Hwf r Hr) as [_ Hfin].
        by destruct (forallb_finished_lookup _ _ _ Hfin H). }
      intros j t Hj Hp.
      apply lookup_alter_pc in Hj as [(-> & t0 & Ht0 & ->)|[_ Hj]]; [|by eapply Hts].
      rewrite H in Ht0. injection Ht0 as <-. simpl. eauto.
    + intros ev. rewrite first_failure_silent by done. apply Hf.
  - revert Hroot. norm. intros Hroot. split; simpl.
    + intros Hnew.
      assert (first_failure (st_log st) = None) as Hnone.
      { destruct (first_failure (st_log st)) as [x|] eqn:Hx; [|done].
        by rewrite (first_failure_keep _ x) in Hnew. }
      assert (e = None) as ->.
      { destruct e as [e|]; [|done].
        by rewrite (first_failure_new _ e) in Hnew. }
      destruct (Hq Hnone) as [Herr Hts]. split.
      * destruct Herr as [Herr|Herr]; [left|by right].
        unfold Err in *; simpl.
        destruct (inv_pcs _ _ Hinv _ _ H) as (_ & t0 & sh & -> & _).
        unfold cancel_group.
        erewrite group_err_frame; [exact Herr|..].
        -- intros k0. apply cancel_ctx_incl.
        -- intros k0 [?|[= <-]]%elem_of_cancel_ctx; eauto.
      * intros j t Hj Hp.
        apply lookup_alter_pc in Hj as [(-> & t0 & Ht0 & ->)|[_ Hj]]; [|by eapply Hts].
        rewrite H in Ht0. injection Ht0 as <-. simpl.
        by apply (Hts _ _ H).
    + intros ev Hev.
      destruct (first_failure (st_log st)) as [x|] eqn:Hx.
      * rewrite (first_failure_keep _ x) in Hev by done.
        injection Hev as <-. by apply Hf.
      * destruct e as [e|].
        -- rewrite (first_failure_new _ e) in Hev by done. injection Hev as <-.
           destruct (Hq eq_refl) as [_ Hts].
           destruct (Hts _ _ H) as (h' & f' & [= -> -> ->]); [done|]. eauto.
        -- by rewrite first_failure_silent, Hx in Hev.
  - destruct (first_failure (st_log st)) as [x|] eqn:Hx.
    + split; norm; rewrite (first_failure_keep _ x) by done; [done|].
      intros ev [= <-]. by apply Hf.
    + exfalso. destruct (Hq eq_refl) as [[Herr|[r Hr]] _]; [congruence|].
      destruct (wf_returned _ _ Hwf r Hr) as [_ Hfin].
      by destruct (forallb_finished_lookup _ _ _ Hfin H).
  - revert Hroot. norm. intros Hroot.
    assert (cancel_handler (st_app st) sig (st_now st) (st_canceled st) =
            st_canceled st) as Hcs.
    { unfold cancel_handler in *. destruct (sigFn _) as [fn|]; [|done].
      destruct (fn sig); [|done]. exfalso. apply Hroot.
      unfold cancel_app.
      destruct (wf_spawned _ _ Hwf (wf_not_idle _ _ _ _ Hwf H)) as [-> _].
      apply root_in_cancel. }
    rewrite Hcs.
    assert (first_failure (handled (opts (st_app st)) sig (st_log st)) =
            first_failure (st_log st)) as Hlog.
    { unfold handled. destruct (sigFn _); [|done].
      by rewrite first_failure_silent. }
    split; simpl; rewrite Hlog; [apply Hq|apply Hf].
  - split; norm; [|done]. intros Hnone. split; [right; eauto|].
    by apply Hq.
Qed.

Lemma start_first_run a now ls st :
  cancel a = None →
  exec ls (boot a now) = Some st →
  CRoot ∉ st_canceled st →
  start_first st.
Proof.
  intros Ha Hex.
  cut (inv a st ∧ (CRoot ∉ st_canceled st → start_first st)); [tauto|].
  revert Hex. apply (exec_invariant
    (λ s, inv a s ∧ (CRoot ∉ st_canceled s → start_first s))).
  - intros l s s' [Hinv Hs] HS. split; [by eapply inv_step|].
    intros Hroot. eapply start_first_step; [done| |done..].
    apply Hs. intros Hin. by apply Hroot, (canceled_mono a l s), Hin; [apply Hinv|].
  - split; [by apply inv_boot|]. intros _. apply start_first_boot.
Qed.

(** ** A failing start callback *)

(** When [Run] has returned, every spawned hook task has called its
    callback and the callback has returned. *)
Lemma returned_all_called a st r k h f :
  inv a st →
  st_status st = Returned r →
  registered a k h f →
  ∃ i t sh e,
    spawn a !! i = Some (HookTask k h f) ∧
    EvCall k h (WithTimeout Background t (timeout_of k (opts a)) (CCall i)) t sh
      ∈ st_log st ∧
    (k = KStop → sh = Some Canceled) ∧
    EvReturn k h e ∈ st_log st.
Proof.
  intros Hinv Hr Hreg. pose proof (inv_wf _ _ Hinv) as Hwf.
  apply elem_of_spawn, list_elem_of_lookup_1 in Hreg as [i Hi].
  destruct (wf_spawned _ _ Hwf) as [_ Hb]; [congruence|].
  rewrite <-Hb, list_lookup_fmap in Hi.
  destruct (st_tasks st !! i) as [[b p]|] eqn:Ht; [|done].
  simpl in Hi. injection Hi as ->.
  destruct (wf_returned _ _ Hwf r Hr) as [_ Hfin].
  destruct (forallb_finished_lookup _ _ _ Hfin Ht) as [e He].
  simpl in He. subst p.
  destruct (inv_pcs _ _ Hinv _ _ Ht) as (Hret & c & t & sh & Hcall).
  destruct (log_call _ _ (inv_log _ _ Hinv) _ _ _ _ _ Hcall)
    as (i' & f' & Hi' & -> & _ & Hsh).
  assert (i' = i) as ->.
  { eapply spawn_inj; [done|]. rewrite <-Hb, list_lookup_fmap, Ht. done. }
  exists i, t, sh, e. split; [|done].
  by rewrite <-Hb, list_lookup_fmap, Ht.
Qed.


(** C2, as the specification states it, fails in two ways. [Run] returns
    the first error that the group sees, which need not be the error of
    the start callback: with the default signals, after a [Stop] the
    listener may report [context.Canceled] before the start callback
    fails; and of two failing start callbacks only the first is returned.
    And the context that a stop callback is given is not cancelled: it is
    a fresh context of the background, while the group's context is. *)
Lemma C2_counterexample :
  (∃ st, exec [LRun; LStop; LSelectDone 2; LTask 1; LTask 1; LTask 0; LTask 0;
               LWait] (boot failing_app 0) = Some st ∧
         EvReturn KStart 0 (Some (Failure "listen")) ∈ st_log st ∧
         st_status st = Returned (Some Canceled)) ∧
  (∃ st, exec [LRun; LTask 2; LTask 2; LTask 1; LTask 1; LTask 0; LTask 0;
               LWait] (boot two_failures_app 0) = Some st ∧
         EvReturn KStart 0 (Some (Failure "first")) ∈ st_log st ∧
         st_status st = Returned (Some (Failure "second"))) ∧
  (∃ st, exec [LRun; LTask 1; LTask 1; LTask 0] (boot failing_app 0) = Some st ∧
         st_tasks st !! 0%nat =
           Some {| t_body := HookTask KStop 0 succeed;
                   t_pc := Calling (WithDeadline Background (30 * Second)
                                      (CCall 0)) |} ∧
         Err st groupCtx = Some Canceled ∧
         Err st (WithDeadline Background (30 * Second) (CCall 0)) = None).
Proof.
  split; [|split].
  - eexists. split; [vm_compute; reflexivity|]. split; [|reflexivity].
    apply list_elem_of_In. simpl. tauto.
  - eexists. split; [vm_compute; reflexivity|]. split; [|reflexivity].
    apply list_elem_of_In. simpl. tauto.
  - eexists. split; [vm_compute; reflexivity|].
    split; [reflexivity|]. split; vm_compute; reflexivity.
Qed.

(** ** Termination of a stopped run *)
Lemma weight_alter i p (ts : list task) t :
  ts !! i = Some t →
  (sum_list (weight <$> alter (λ t, {| t_body := t_body t; t_pc := p |}) i ts) +
   weight t =
   sum_list (weight <$> ts) + weight {| t_body := t_body t; t_pc := p |})%nat.
Proof.
  revert i. induction ts as [|t' ts IH]; intros [|i]; csimpl; try done.
  - intros [= ->]. lia.
  - intros Hi. specialize (IH _ Hi). lia.
Qed.

Lemma remaining_step l st st' :
  Step l st st' → goroutine l = true → (remaining st' < remaining st)%nat.
Proof.
  intros HS Hl. destruct HS; try done; unfold remaining; norm.
  - pose proof (weight_alter i (Calling
      (WithTimeout Background (st_now st) (timeout_of k (opts (st_app st)))
         (CCall i))) _ _ H) as Hw.
    unfold weight at 2 4 in Hw; simpl in Hw. lia.
  - pose proof (weight_alter i (Finished e) _ _ H) as Hw.
    unfold weight at 2 4 in Hw; simpl in Hw. lia.
  - pose proof (weight_alter i (Finished (Some e)) _ _ H) as Hw.
    unfold weight at 2 4 in Hw; simpl in Hw. lia.
  - rewrite H0. simpl. lia.
  - rewrite H. lia.
Qed.

Lemma remaining_exec ls st st' :
  forallb goroutine ls = true → exec ls st = Some st' →
  (length ls + remaining st' ≤ remaining st)%nat.
Proof.
  revert st. induction ls as [|l ls IH]; intros st; simpl.
  - intros _ [= <-]. lia.
  - intros [Hl Hls]%andb_true_iff.
    destruct (step l st) as [st1|] eqn:Hs; [|done]. intros Hex.
    specialize (IH _ Hls Hex).
    pose proof (remaining_step _ _ _ (step_Step _ _ _ Hs) Hl). lia.
Qed.

Lemma forallb_finished_false (ts : list task) :
  forallb finished ts = false →
  ∃ i t, ts !! i = Some t ∧ (t_pc t = Spawned ∨ ∃ c, t_pc t = Calling c).
Proof.
  induction ts as [|t ts IH]; simpl; [done|].
  destruct (finished t) eqn:Hf; simpl.
  - intros (i & t' & Hi & Hp)%IH. by exists (S i), t'.
  - intros _. exists 0%nat, t. split; [done|].
    unfold finished in Hf. destruct (t_pc t); eauto. done.
Qed.

(** Once the group's context is done, and when every callback returns, a
    run that has not returned can take a step of its own. *)
Lemma stopped_progress a st :
  inv a st →
  (∀ k h f, registered a k h f → ∀ v, ∃ e, f v = Returns e) →
  st_status st = Running →
  Err st groupCtx ≠ None →
  ∃ l st', goroutine l = true ∧ step l st = Some st'.
Proof.
  intros Hinv Htotal Hrun Herr. pose proof (inv_wf _ _ Hinv) as Hwf.
  destruct (forallb finished (st_tasks st)) eqn:Hfin.
  { exists LWait. eexists. split; [done|]. simpl. unfold Run_wait.
    by rewrite Hrun, Hfin. }
  apply forallb_finished_false in Hfin as (i & [b p] & Ht & Hp). simpl in Hp.
  destruct b as [k h f|].
  - exists (LTask i). destruct Hp as [->|[c ->]].
    + eexists. split; [done|]. apply Step_step. by eapply Step_call.
    + destruct (Htotal k h f (wf_task_registered _ _ _ _ _ _ _ Hwf Ht)
                  (look st c)) as [e He].
      eexists. split; [done|]. apply Step_step. by eapply Step_return.
  - destruct Hp as [->|[c ->]]; [|by apply (wf_listener _ _ Hwf) in Ht].
    exists (LSelectDone i). destruct (Err st groupCtx) as [e|] eqn:He; [|done].
    eexists. split; [done|]. apply Step_step. by eapply Step_exit.
Qed.

Lemma group_err_kept a l st st' :
  wf a st → Step l st st' →
  Err st groupCtx ≠ None → Err st' groupCtx ≠ None.
Proof.
  intros Hwf HS Herr. unfold Err in *.
  destruct (group_err_cases (st_now st) (st_canceled st)) as [He|He]; [done|].
  erewrite group_err_mono; [done| |exact He]. by eapply canceled_mono.
Qed.

Lemma status_Running_step l st st' :
  Step l st st' → st_status st = Running →
  st_status st' = Running ∨ ∃ r, st_status st' = Returned r.
Proof.
  intros HS Hr. destruct HS; norm; eauto.
  apply Run_spawn_eq in H as [Hidle _]. congruence.
Qed.

Lemma stopped_returns a st :
  inv a st →
  (∀ k h f, registered a k h f → ∀ v, ∃ e, f v = Returns e) →
  st_status st ≠ Idle →
  Err st groupCtx ≠ None →
  ∃ ls st' r, forallb goroutine ls = true ∧ exec ls st = Some st' ∧
              st_status st' = Returned r.
Proof.
  intros Hinv Htotal. remember (remaining st) as n eqn:Hn.
  revert st Hn Hinv. induction (lt_wf n) as [n _ IH].
  intros st -> Hinv Hs Herr.
  destruct (st_status st) as [| |r] eqn:Hst; [done| |].
  - destruct (stopped_progress _ _ Hinv Htotal Hst Herr) as (l & st1 & Hl & Hstep).
    pose proof (step_Step _ _ _ Hstep) as HS.
    destruct (IH (remaining st1)) with (st := st1) as (ls & st' & r & Hls & Hex & Hr).
    + by apply remaining_step with l.
    + done.
    + by eapply inv_step.
    + destruct (status_Running_step _ _ _ HS Hst) as [->|[r ->]]; done.
    + eapply group_err_kept; [apply Hinv|done..].
    + exists (l :: ls), st', r. simpl. rewrite Hl, Hstep. done.
  - exists [], st, r. done.
Qed.

(** ** A clean run *)
Lemma run_started ls st st' :
  exec ls st = Some st' → LRun ∈ ls → st_status st' ≠ Idle.
Proof.
  revert st. induction ls as [|l ls IH]; intros st; simpl.
  - by intros _ ?%elem_of_nil.
  - destruct (step l st) as [st1|] eqn:Hs; [|done].
    intros Hex [<-|Hin]%elem_of_cons; [|by eapply IH].
    simpl in Hs. apply Run_spawn_eq in Hs as [_ ->].
    revert Hex. apply (exec_invariant (λ s, st_status s ≠ Idle)); [|done].
    intros l s s' Hs HS. by eapply status_not_Idle_step.
Qed.

(** A [Stop] after [Run] has started leaves the root context, and so the
    group's context, cancelled for the rest of the run. *)
Lemma stop_after_run a now ls1 ls2 st :
  cancel a = None →
  LRun ∈ ls1 →
  exec (ls1 ++ LStop :: ls2) (boot a now) = Some st →
  inv a st ∧ st_status st ≠ Idle ∧ CRoot ∈ st_canceled st.
Proof.
  intros Ha Hrun. rewrite exec_app.
  destruct (exec ls1 (boot a now)) as [st1|] eqn:Hex1; simpl; [|done].
  intros Hex2.
  pose proof (inv_run _ _ _ _ Ha Hex1) as Hinv1.
  pose proof (run_started _ _ _ Hex1 Hrun) as Hs1.
  eapply stopped_exec; [| | |exact Hex2].
  - eapply inv_step; [done|apply Step_stop].
  - by rewrite Stop_eq.
  - apply (root_err_Some (st_now (Stop st1))), Stop_cancels.
    by apply (wf_spawned _ _ (inv_wf _ _ Hinv1)).
Qed.

(** When no callback returns an error, the only failure of a run is the
    exit of the listener: [Run] returns nil without a listener and
    [context.Canceled] with one. *)
Lemma clean_returned a now ls st r :
  cancel a = None →
  (∀ k h f, registered a k h f → ∀ v e, f v = Returns e → e = None) →
  exec ls (boot a now) = Some st →
  st_status st = Returned r →
  r = clean_result a.
Proof.
  intros Ha Hok Hex Hr. pose proof (inv_run _ _ _ _ Ha Hex) as Hinv.
  pose proof (inv_wf _ _ Hinv) as Hwf.
  destruct (wf_returned _ _ Hwf r Hr) as [-> Hfin].
  rewrite (group_err _ (inv_group _ _ Hinv)). unfold clean_result.
  destruct (first_failure (st_log st)) as [ev|] eqn:Hf.
  - destruct (first_failure_Some _ _ Hf) as [Hin [e He]]. simpl. rewrite He.
    destruct ev as [| k h e0 | | | e0]; simpl in He; try done; subst e0.
    + apply (log_return _ _ (inv_log _ _ Hinv)) in Hin as (f & v & Hreg & Hfv).
      by apply (Hok _ _ _ Hreg) in Hfv.
    + pose proof (log_exit _ _ (inv_log _ _ Hinv) _ Hin) as [= ->].
      destruct (sigs (opts a)) eqn:Hsigs; [|done].
      destruct (no_listener _ _ _ _ Ha Hsigs Hex) as [_ Hlog].
      rewrite Forall_forall in Hlog. by apply Hlog in Hin.
  - simpl. destruct (sigs (opts a)) eqn:Hsigs; [done|]. exfalso.
    assert (SignalTask ∈ spawn a) as Hin.
    { apply SignalTask_in_spawn. by rewrite Hsigs. }
    apply list_elem_of_lookup_1 in Hin as [i Hi].
    destruct (wf_spawned _ _ Hwf) as [_ Hb]; [congruence|].
    rewrite <-Hb, list_lookup_fmap in Hi.
    destruct (st_tasks st !! i) as [[b p]|] eqn:Ht; [|done].
    simpl in Hi. injection Hi as ->.
    destruct (forallb_finished_lookup _ _ _ Hfin Ht) as [e He].
    simpl in He. subst p.
    destruct (inv_pcs _ _ Hinv _ _ Ht) as [-> Hexit].
    by apply (first_failure_None _ _ Hf) in Hexit.
Qed.

(** C1, as the specification states it, fails with the default options:
    the listener reports [context.Canceled] when the context is cancelled,
    and [Run] returns that error, not nil. *)
Lemma C1_counterexample :
  ∃ st, exec ([LRun] ++ LStop :: [LSelectDone 2; LTask 1; LTask 1; LTask 0;
                                   LTask 0; LWait])
          (boot server_app 0) = Some st ∧
        EvReturn KStart 0 None ∈ st_log st ∧
        EvReturn KStop 0 None ∈ st_log st ∧
        st_status st = Returned (Some Canceled) ∧
        st_status st ≠ Returned None.
Proof.
  eexists. split; [vm_compute; reflexivity|].
  split; [apply list_elem_of_In; simpl; tauto|].
  split; [apply list_elem_of_In; simpl; tauto|]. by split.
Qed.

(** C1, amended. Let every registered callback succeed, and let [Stop] be
    called after [Run] has started. Then, in every state that the run
    reaches afterwards: if [Run] has returned, it has returned nil when no
    signals are configured and [context.Canceled], the result of the
    listener, when signals are configured, and every stop callback has
    returned; if [Run] has not returned, some goroutine can move; the
    goroutines can take no more than [remaining] steps; and [Run] does
    return with that result by steps of the goroutines alone. *)
Theorem C1_clean_run a now ls1 ls2 st :
  cancel a = None →
  (∀ k h f, registered a k h f → ∀ v, f v = Returns None) →
  LRun ∈ ls1 →
  exec (ls1 ++ LStop :: ls2) (boot a now) = Some st →
  (∀ r, st_status st = Returned r →
        r = clean_result a ∧
        ∀ h f, registered a KStop h f → EvReturn KStop h None ∈ st_log st) ∧
  (st_status st = Running →
   ∃ l st', goroutine l = true ∧ step l st = Some st') ∧
  (∀ ls3 st', forallb goroutine ls3 = true → exec ls3 st = Some st' →
              (length ls3 ≤ remaining st)%nat) ∧
  (∃ ls3 st', forallb goroutine ls3 = true ∧ exec ls3 st = Some st' ∧
              st_status st' = Returned (clean_result a)).
Proof.
  intros Ha Hok Hrun Hex.
  destruct (stop_after_run _ _ _ _ _ Ha Hrun Hex) as (Hinv & Hs & Hroot).
  assert (∀ k h f, registered a k h f → ∀ v e, f v = Returns e → e = None)
    as Hnil.
  { intros k h f Hreg v e. rewrite (Hok _ _ _ Hreg). by intros [= <-]. }
  assert (∀ k h f, registered a k h f → ∀ v, ∃ e, f v = Returns e) as Htotal.
  { intros k h f Hreg v. exists None. by apply (Hok _ _ _ Hreg). }
  assert (Err st groupCtx ≠ None) as Herr.
  { unfold Err. erewrite (proj2 (group_err_Some _ _)); [done|]. by right. }
  split; [|split; [|split]].
  - intros r Hr. split; [by eapply clean_returned|].
    intros h f Hreg.
    destruct (returned_all_called _ _ _ _ _ _ Hinv Hr Hreg)
      as (i & t & sh & e & _ & _ & _ & Hret).
    destruct (log_return _ _ (inv_log _ _ Hinv) _ _ _ Hret)
      as (f' & v & Hreg' & Hfv).
    by rewrite (Hnil _ _ _ Hreg' _ _ Hfv) in Hret.
  - intros Hst. by eapply stopped_progress.
  - intros ls3 st' Hls Hex3.
    pose proof (remaining_exec _ _ _ Hls Hex3). lia.
  - destruct (stopped_returns _ _ Hinv Htotal Hs Herr)
      as (ls3 & st' & r & Hls & Hex3 & Hr).
    exists ls3, st'. split; [done|]. split; [done|].
    rewrite Hr. f_equal. eapply clean_returned; [done..| |done].
    rewrite exec_app. rewrite Hex. done.
Qed.

Lemma C1_clean_run_witness :
  match exec ([LRun; LTask 1] ++ LStop :: [LTask 1; LTask 0])
          (boot server_app 0) with
  | Some st =>
      st_status st = Running ∧
      (∃ l st', goroutine l = true ∧ step l st = Some st') ∧
      ∃ ls3 st', forallb goroutine ls3 = true ∧ exec ls3 st = Some st' ∧
                 st_status st' = Returned (Some Canceled)
  | None => False
  end.
Proof.
  destruct (exec ([LRun; LTask 1%nat] ++ LStop :: [LTask 1%nat; LTask 0%nat])
              (boot server_app 0)) as [st|] eqn:Hex; [|by vm_compute in Hex].
  assert (st_status st = Running) as Hst.
  { vm_compute in Hex. by injection Hex as <-. }
  destruct (C1_clean_run server_app 0 [LRun; LTask 1%nat]
              [LTask 1%nat; LTask 0%nat] st) as (_ & Hprog & _ & Hret).
  - reflexivity.
  - intros k h f (hook & Hh & Hs) v.
    destruct h as [|h]; [|done]. simpl in Hh. injection Hh as <-.
    destruct k; simpl in Hs; by injection Hs as <-.
  - apply list_elem_of_In. simpl. tauto.
  - exact Hex.
  - split; [done|]. split; [by apply Hprog|]. exact Hret.
Defined.

(** * Further properties *)

(** ** The registry of hooks *)
Lemma built_cancel a : built a → cancel a = None.
Proof. induction 1; done. Qed.

Lemma hooks_foldl_AppendHook a hs :
  hooks (foldl (λ a hook, AppendHook hook a) a hs) = hooks a ++ hs ∧
  opts (foldl (λ a hook, AppendHook hook a) a hs) = opts a ∧
  cancel (foldl (λ a hook, AppendHook hook a) a hs) = cancel a.
Proof.
  revert a. induction hs as [|hook hs IH]; intros a; simpl.
  - by rewrite app_nil_r.
  - destruct (IH (AppendHook hook a)) as (-> & -> & ->). simpl.
    by rewrite <-app_assoc.
Qed.

(** X1. The registry is append-only and keeps the order of registration:
    an application made by [New] has no hooks; registering hooks one after
    the other with [AppendHook] gives exactly these hooks, in that order,
    and leaves the options alone; [Append] and [AppendHook] keep every
    earlier hook at its index; and no application made by [New], [Append]
    and [AppendHook] holds a cancel function. *)
Theorem X1_registry env os hs :
  hooks (New env os) = [] ∧
  hooks (foldl (λ a hook, AppendHook hook a) (New env os) hs) = hs ∧
  opts (foldl (λ a hook, AppendHook hook a) (New env os) hs) =
    opts (New env os) ∧
  (∀ a hook i old,
     hooks a !! i = Some old → hooks (AppendHook hook a) !! i = Some old) ∧
  (∀ T (L : Lifecycle.t T) (lc : T) a i old,
     hooks a !! i = Some old → hooks (Append lc a) !! i = Some old) ∧
  (∀ a, built a → cancel a = None ∧ Stop (boot a 0) = boot a 0).
Proof.
  split; [done|].
  destruct (hooks_foldl_AppendHook (New env os) hs) as (Hh & Ho & _).
  split; [by rewrite Hh|]. split; [done|].
  split; [|split].
  - intros a hook i old Hi. simpl. by apply lookup_app_l_Some.
  - intros T L lc a i old Hi. simpl. by apply lookup_app_l_Some.
  - intros a Hb. pose proof (built_cancel _ Hb) as Hc. split; [done|].
    by apply Stop_nil.
Qed.

Lemma X1_registry_witness :
  hooks failing_app !! 0%nat =
    Some {| OnStart := Some (fail_with "listen"); OnStop := Some succeed |} ∧
  hooks (AppendHook {| OnStart := None; OnStop := None |} failing_app) !! 0%nat =
    Some {| OnStart := Some (fail_with "listen"); OnStop := Some succeed |} ∧
  cancel failing_app = None.
Proof.
  destruct (X1_registry ∅ []
              [ {| OnStart := Some (fail_with "listen"); OnStop := Some succeed |} ])
    as (_ & _ & _ & Hkeep & _ & Hbuilt).
  assert (hooks failing_app !! 0%nat =
          Some {| OnStart := Some (fail_with "listen"); OnStop := Some succeed |})
    as H0 by reflexivity.
  split; [exact H0|]. split; [by apply Hkeep|].
  apply Hbuilt. apply built_AppendHook, built_New.
Defined.

(** ** The order of the tasks *)
Lemma spawn_hooks_cons n hook hs :
  spawn_hooks n (hook :: hs) = hook_tasks n hook ++ spawn_hooks (S n) hs.
Proof. unfold hook_tasks. simpl. by rewrite <-app_assoc. Qed.

Lemma spawn_hooks_app n hs1 hs2 :
  spawn_hooks n (hs1 ++ hs2) =
  spawn_hooks n hs1 ++ spawn_hooks (n + length hs1) hs2.
Proof.
  revert n. induction hs1 as [|hook hs1 IH]; intros n.
  - simpl. by rewrite Nat.add_0_r.
  - rewrite <-app_comm_cons, !spawn_hooks_cons, IH, <-app_assoc. simpl.
    by rewrite Nat.add_succ_r.
Qed.

Lemma spawn_hooks_length n hs :
  length (spawn_hooks n hs) = sum_list (present <$> hs).
Proof.
  revert n. induction hs as [|hook hs IH]; intros n; [done|].
  rewrite spawn_hooks_cons, length_app, IH. csimpl. f_equal.
  unfold hook_tasks, present. by destruct (OnStop hook), (OnStart hook).
Qed.

Lemma hook_tasks_hook n m hook b :
  b ∈ hook_tasks n hook → hook_of m b = n.
Proof.
  unfold hook_tasks. intros [Hin|Hin]%elem_of_app.
  - destruct (OnStop hook); [|by apply elem_of_nil in Hin].
    by apply list_elem_of_singleton in Hin as ->.
  - destruct (OnStart hook); [|by apply elem_of_nil in Hin].
    by apply list_elem_of_singleton in Hin as ->.
Qed.

Lemma spawn_hooks_hook_ge n m hs b :
  b ∈ spawn_hooks n hs → (n ≤ hook_of m b < n + length hs)%nat.
Proof.
  revert n. induction hs as [|hook hs IH]; intros n.
  - by intros ?%elem_of_nil.
  - rewrite spawn_hooks_cons. intros [Hin|Hin]%elem_of_app.
    + rewrite (hook_tasks_hook _ _ _ _ Hin). simpl. lia.
    + apply IH in Hin. simpl. lia.
Qed.

Lemma hook_tasks_sorted n m hook i j b c :
  hook_tasks n hook !! i = Some b → hook_tasks n hook !! j = Some c →
  (hook_of m b ≤ hook_of m c)%nat.
Proof.
  intros Hi%list_elem_of_lookup_2 Hj%list_elem_of_lookup_2.
  by rewrite (hook_tasks_hook _ _ _ _ Hi), (hook_tasks_hook _ _ _ _ Hj).
Qed.

Lemma spawn_hooks_sorted n m hs i j b c :
  (i ≤ j)%nat →
  spawn_hooks n hs !! i = Some b → spawn_hooks n hs !! j = Some c →
  (hook_of m b ≤ hook_of m c)%nat.
Proof.
  revert n i j. induction hs as [|hook hs IH]; intros n i j Hij; [done|].
  rewrite spawn_hooks_cons. intros Hi Hj.
  apply lookup_app_Some in Hi as [Hi|[Hli Hi]];
    apply lookup_app_Some in Hj as [Hj|[Hlj Hj]].
  - by eapply hook_tasks_sorted.
  - apply list_elem_of_lookup_2 in Hi, Hj.
    rewrite (hook_tasks_hook _ _ _ _ Hi).
    apply (spawn_hooks_hook_ge _ m) in Hj. lia.
  - apply lookup_lt_Some in Hj. lia.
  - eapply (IH (S n)); [|done..]. lia.
Qed.

Lemma spawn_hooks_adjacent n hs i h f hook g :
  spawn_hooks n hs !! i = Some (HookTask KStop h f) →
  hs !! (h - n)%nat = Some hook → OnStart hook = Some g →
  spawn_hooks n hs !! S i = Some (HookTask KStart h g).
Proof.
  revert n i. induction hs as [|hook0 hs IH]; intros n i; [done|].
  rewrite spawn_hooks_cons. intros Hi Hh Hg.
  apply lookup_app_Some in Hi as [Hi|[Hli Hi]].
  - pose proof (hook_tasks_hook _ 0%nat _ _ (list_elem_of_lookup_2 _ _ _ Hi))
      as Hn. simpl in Hn. subst h.
    rewrite Nat.sub_diag in Hh. injection Hh as ->.
    unfold hook_tasks in *. rewrite Hg in *.
    destruct (OnStop hook) as [fs|]; simpl in *.
    + destruct i as [|[|i]]; simpl in Hi; by simplify_eq.
    + destruct i as [|i]; simpl in Hi; by simplify_eq.
  - pose proof (spawn_hooks_bound _ _ _ _ _ _ Hi) as Hb.
    replace (h - n)%nat with (S (h - S n)) in Hh by lia. simpl in Hh.
    pose proof (IH _ _ Hi Hh Hg) as Hnext.
    rewrite lookup_app_r by lia.
    by replace (S i - length (hook_tasks n hook0))%nat
      with (S (i - length (hook_tasks n hook0))) by lia.
Qed.

(** X2. [Run] hands the tasks to the group in the order of registration:
    the tasks of the hooks [hs1 ++ hs2] are those of [hs1] followed by
    those of [hs2]; a hook with both callbacks gets its stop task
    immediately before its start task; along the list of tasks the index
    of the hook never decreases and the listener, if any, is last; and the
    number of tasks is the number of present callbacks, plus one for the
    listener when signals are configured. *)
Theorem X2_task_order a :
  (∀ hs1 hs2,
     spawn_hooks 0 (hs1 ++ hs2) =
     spawn_hooks 0 hs1 ++ spawn_hooks (length hs1) hs2) ∧
  (∀ i h f hook g,
     spawn a !! i = Some (HookTask KStop h f) →
     hooks a !! h = Some hook → OnStart hook = Some g →
     spawn a !! S i = Some (HookTask KStart h g)) ∧
  (∀ i j b c,
     (i ≤ j)%nat → spawn a !! i = Some b → spawn a !! j = Some c →
     (hook_of (length (hooks a)) b ≤ hook_of (length (hooks a)) c)%nat) ∧
  length (spawn a) =
    (sum_list (present <$> hooks a) +
     match sigs (opts a) with [] => 0 | _ => 1 end)%nat.
Proof.
  split; [|split; [|split]].
  - intros hs1 hs2. apply spawn_hooks_app.
  - intros i h f hook g Hi Hh Hg.
    apply spawn_lookup_hooks in Hi. unfold spawn. apply lookup_app_l_Some.
    eapply spawn_hooks_adjacent; [done| |done]. by rewrite Nat.sub_0_r.
  - intros i j b c Hij Hi Hj. unfold spawn in Hi, Hj.
    apply lookup_app_Some in Hi as [Hi|[Hli Hi]];
      apply lookup_app_Some in Hj as [Hj|[Hlj Hj]].
    + by eapply spawn_hooks_sorted.
    + apply list_elem_of_lookup_2 in Hi, Hj.
      apply (spawn_hooks_hook_ge _ (length (hooks a))) in Hi.
      unfold spawn_listener in Hj. destruct (sigs (opts a)).
      * by apply elem_of_nil in Hj.
      * apply list_elem_of_singleton in Hj as ->. simpl. lia.
    + apply lookup_lt_Some in Hj. lia.
    + apply list_elem_of_lookup_2 in Hi, Hj.
      unfold spawn_listener in Hi, Hj. destruct (sigs (opts a)).
      * by apply elem_of_nil in Hj.
      * apply list_elem_of_singleton in Hi as ->.
        by apply list_elem_of_singleton in Hj as ->.
  - unfold spawn, spawn_listener. rewrite length_app, spawn_hooks_length.
    by destruct (sigs (opts a)).
Qed.

Lemma X2_task_order_witness :
  spawn failing_app !! 1%nat = Some (HookTask KStart 0 (fail_with "listen")) ∧
  length (spawn failing_app) = 3%nat.
Proof.
  destruct (X2_task_order failing_app) as (_ & Hadj & _ & Hlen).
  split; [|exact Hlen].
  by apply (Hadj 0%nat 0%nat succeed
              {| OnStart := Some (fail_with "listen"); OnStop := Some succeed |}).
Defined.

(** ** The default endpoints *)
Lemma concat_Split s sep :
  String.concat (String sep EmptyString) (Split s sep) = s.
Proof.
  induction s as [|c s IH]; [done|]. simpl.
  destruct (Ascii.eqb c sep) eqn:Hc.
  - apply Ascii.eqb_eq in Hc as ->.
    pose proof (Split_nonempty s sep) as Hne.
    destruct (Split s sep) as [|w ws] eqn:Hs; [done|].
    simpl in *. by rewrite IH.
  - pose proof (Split_nonempty s sep) as Hne.
    destruct (Split s sep) as [|w ws] eqn:Hs; [done|].
    simpl in *. destruct ws; simpl in *; by rewrite <-IH.
Qed.

Lemma Split_no_sep s sep :
  Forall (λ w, occurrences sep w = 0%nat) (Split s sep).
Proof.
  induction s as [|c s IH]; simpl.
  - by repeat constructor.
  - destruct (Ascii.eqb c sep) eqn:Hc.
    + by constructor.
    + destruct (Split s sep) as [|w ws]; simpl.
      * repeat constructor. simpl. by rewrite Hc.
      * apply Forall_cons in IH as [Hw Hws]. constructor; [|done].
        simpl. by rewrite Hc.
Qed.

Lemma Split_length s sep :
  length (Split s sep) = S (occurrences sep s).
Proof.
  induction s as [|c s IH]; simpl; [done|].
  destruct (Ascii.eqb c sep).
  - simpl. by rewrite IH.
  - destruct (Split s sep) as [|w ws]; simpl in *; lia.
Qed.

(** X3. The default endpoints of [New] are the pieces of
    KRATOS_SERVICE_ENDPOINTS between its commas: joined by commas they
    give the variable back, none of them holds a comma, and there is one
    more of them than there are commas in the variable (so always at
    least one). *)
Theorem X3_default_endpoints env :
  String.concat "," (endpoints (opts (New env []))) =
    Getenv env "KRATOS_SERVICE_ENDPOINTS" ∧
  Forall (λ w, occurrences "," w = 0%nat) (endpoints (opts (New env []))) ∧
  length (endpoints (opts (New env []))) =
    S (occurrences "," (Getenv env "KRATOS_SERVICE_ENDPOINTS")).
Proof.
  split; [apply concat_Split|]. split; [apply Split_no_sep|apply Split_length].
Qed.

(** ** The signal channel *)
Lemma chan_bound_step a l st st' :
  wf a st →
  (length (st_chan st) ≤ length (sigs (opts a)))%nat ∧
    Forall (λ sig, sig ∈ sigs (opts a)) (st_chan st) →
  Step l st st' →
  (length (st_chan st') ≤ length (sigs (opts a)))%nat ∧
    Forall (λ sig, sig ∈ sigs (opts a)) (st_chan st').
Proof.
  intros Hwf [Hlen Hall] HS. pose proof (wf_opts _ _ Hwf) as Ho.
  destruct HS; norm; try done.
  - apply Run_spawn_eq in H as [_ ->]. simpl. split; [lia|done].
  - rewrite Ho in *. rewrite length_app. simpl. split; [lia|].
    apply Forall_app. split; [done|]. by repeat constructor.
  - rewrite H0 in *. apply Forall_cons in Hall as [_ Hall]. simpl in Hlen.
    split; [lia|done].
Qed.

(** X4. The channel [c] never holds more signals than its capacity
    [len(a.opts.sigs)], and it only ever holds signals of the configured
    set; a signal that arrives when the buffer is full is dropped and
    changes nothing. *)
Theorem X4_channel_bound a now ls st :
  cancel a = None →
  exec ls (boot a now) = Some st →
  (length (st_chan st) ≤ length (sigs (opts a)))%nat ∧
  Forall (λ sig, sig ∈ sigs (opts a)) (st_chan st) ∧
  (∀ sig, length (st_chan st) = length (sigs (opts a)) →
          ∀ st', step (LSignal sig) st = Some st' → st' = st).
Proof.
  intros Ha Hex.
  assert (inv a st ∧
          ((length (st_chan st) ≤ length (sigs (opts a)))%nat ∧
           Forall (λ sig, sig ∈ sigs (opts a)) (st_chan st)))
    as (Hinv & Hlen & Hall).
  { revert Hex. apply (exec_invariant (λ s, inv a s ∧
      ((length (st_chan s) ≤ length (sigs (opts a)))%nat ∧
       Forall (λ sig, sig ∈ sigs (opts a)) (st_chan s)))).
    - intros l s s' [Hinv Hs] HS. split; [by eapply inv_step|].
      eapply chan_bound_step; [apply Hinv|done..].
    - split; [by apply inv_boot|]. simpl. split; [lia|done]. }
  split; [done|]. split; [done|].
  intros sig Hfull st' Hs. apply step_Step in Hs.
  inversion Hs; subst; [|done].
  rewrite (wf_opts _ _ (inv_wf _ _ Hinv)) in *. lia.
Qed.

Lemma X4_channel_bound_witness :
  match exec [LRun; LSignal SIGTERM; LSignal SIGTERM; LSignal SIGINT;
              LSignal SIGQUIT] (boot failing_app 0) with
  | Some st => (length (st_chan st) ≤ 3)%nat ∧
               st_chan st = [SIGTERM; SIGTERM; SIGINT]
  | None => False
  end.
Proof.
  destruct (exec [LRun; LSignal SIGTERM; LSignal SIGTERM; LSignal SIGINT;
                  LSignal SIGQUIT] (boot failing_app 0))
    as [st|] eqn:Hex; [|by vm_compute in Hex].
  destruct (X4_channel_bound failing_app 0 _ st eq_refl Hex) as (Hlen & _).
  split; [exact Hlen|]. vm_compute in Hex. by injection Hex as <-.
Defined.

(** ** What [Run] returns *)

(** X5. Whenever [Run] returns, it returns the result of the first task
    that failed. With signals configured it never returns nil. It returns
    nil exactly when no signals are configured and no callback returned
    an error. A returned error is [context.Canceled] from the listener or
    an error that a registered callback returned. *)
Theorem X5_run_result a now ls st r :
  cancel a = None →
  exec ls (boot a now) = Some st →
  st_status st = Returned r →
  r = first_failure (st_log st) ≫= result ∧
  (sigs (opts a) ≠ [] → r ≠ None) ∧
  (r = None ↔
   sigs (opts a) = [] ∧ ∀ k h e, EvReturn k h e ∈ st_log st → e = None) ∧
  (∀ e, r = Some e →
        (e = Canceled ∧ sigs (opts a) ≠ [] ∧
         EvListenerExit (Some Canceled) ∈ st_log st) ∨
        ∃ k h f v, registered a k h f ∧ f v = Returns (Some e) ∧
                   EvReturn k h (Some e) ∈ st_log st).
Proof.
  intros Ha Hex Hr. pose proof (inv_run _ _ _ _ Ha Hex) as Hinv.
  pose proof (inv_wf _ _ Hinv) as Hwf.
  destruct (wf_returned _ _ Hwf r Hr) as [Hg Hfin].
  rewrite (group_err _ (inv_group _ _ Hinv)) in Hg.
  assert (sigs (opts a) ≠ [] → r ≠ None) as Hsig.
  { intros Hne ->.
    assert (SignalTask ∈ spawn a) as Hin by by apply SignalTask_in_spawn.
    apply list_elem_of_lookup_1 in Hin as [i Hi].
    destruct (wf_spawned _ _ Hwf) as [_ Hb]; [congruence|].
    rewrite <-Hb, list_lookup_fmap in Hi.
    destruct (st_tasks st !! i) as [[b p]|] eqn:Ht; [|done].
    simpl in Hi. injection Hi as ->.
    destruct (forallb_finished_lookup _ _ _ Hfin Ht) as [e He].
    simpl in He. subst p.
    destruct (inv_pcs _ _ Hinv _ _ Ht) as [-> Hexit].
    destruct (first_failure (st_log st)) as [ev|] eqn:Hf.
    - apply first_failure_Some in Hf as [_ [e He]]. simpl in Hg. congruence.
    - by apply (first_failure_None _ _ Hf) in Hexit. }
  split; [done|]. split; [done|]. split; [split|].
  - intros ->. split.
    + destruct (sigs (opts a)) eqn:Hs; [done|]. by destruct Hsig.
    + intros k h e Hin.
      destruct (first_failure (st_log st)) as [ev|] eqn:Hf.
      * apply first_failure_Some in Hf as [_ [e' He']]. simpl in Hg. congruence.
      * by apply (first_failure_None _ _ Hf) in Hin.
  - intros [Hs Hnil]. subst r.
    destruct (first_failure (st_log st)) as [ev|] eqn:Hf; [|done].
    apply first_failure_Some in Hf as [Hin [e He]]. exfalso.
    destruct (no_listener _ _ _ _ Ha Hs Hex) as [_ Hlog].
    rewrite Forall_forall in Hlog. specialize (Hlog _ Hin).
    destruct ev as [| k h e0 | | |]; simpl in *; try done. subst e0.
    by apply Hnil in Hin.
  - intros e ->.
    destruct (first_failure (st_log st)) as [ev|] eqn:Hf; [|done].
    apply first_failure_Some in Hf as [Hin _]. simpl in Hg.
    destruct ev as [| k h e0 | | | e0]; simpl in Hg; try done; subst e0.
    + right.
      destruct (log_return _ _ (inv_log _ _ Hinv) _ _ _ Hin)
        as (f & v & Hreg & Hfv).
      by exists k, h, f, v.
    + left. pose proof (log_exit _ _ (inv_log _ _ Hinv) _ Hin) as [= ->].
      split; [done|]. split; [|done]. intros Hs.
      destruct (no_listener _ _ _ _ Ha Hs Hex) as [_ Hlog].
      rewrite Forall_forall in Hlog. by apply Hlog in Hin.
Qed.

Lemma X5_run_result_witness :
  match exec [LRun; LTask 1; LTask 1; LTask 0; LTask 0; LSelectDone 2; LWait]
          (boot failing_app 0) with
  | Some st =>
      ∃ k h f v, registered failing_app k h f ∧
                 f v = Returns (Some (Failure "listen")) ∧
                 EvReturn k h (Some (Failure "listen")) ∈ st_log st
  | None => False
  end.
Proof.
  destruct (exec [LRun; LTask 1%nat; LTask 1%nat; LTask 0%nat; LTask 0%nat;
                  LSelectDone 2%nat; LWait] (boot failing_app 0))
    as [st|] eqn:Hex; [|by vm_compute in Hex].
  assert (st_status st = Returned (Some (Failure "listen"))) as Hr.
  { vm_compute in Hex. by injection Hex as <-. }
  destruct (X5_run_result failing_app 0 _ st _ eq_refl Hex Hr)
    as (_ & _ & _ & Hwho).
  destruct (Hwho (Failure "listen") eq_refl) as [[? _]|Hcb]; [done|exact Hcb].
Defined.

(** ** What makes [Run] return *)

(** X6. [Run] does not return without a cause. If it has returned although
    nobody asked for a stop (the root context is not cancelled), then
    either a start callback failed first, and [Run] returns its error, or
    there was nothing to wait for: no signals are configured, no hook has
    a stop callback, and [Run] returns nil. *)
Theorem X6_no_return_without_cause a now ls st r :
  cancel a = None →
  exec ls (boot a now) = Some st →
  st_status st = Returned r →
  CRoot ∉ st_canceled st →
  (∃ h e, first_failure (st_log st) = Some (EvReturn KStart h (Some e)) ∧
          r = Some e) ∨
  (r = None ∧ sigs (opts a) = [] ∧ ∀ h f, ¬ registered a KStop h f).
Proof.
  intros Ha Hex Hr Hroot. pose proof (inv_run _ _ _ _ Ha Hex) as Hinv.
  pose proof (inv_wf _ _ Hinv) as Hwf.
  pose proof (start_first_run _ _ _ _ Ha Hex Hroot) as [Hq Hf].
  destruct (wf_returned _ _ Hwf r Hr) as [Hg Hfin].
  rewrite (group_err _ (inv_group _ _ Hinv)) in Hg.
  destruct (first_failure (st_log st)) as [ev|] eqn:Hev.
  - left. destruct (Hf ev eq_refl) as (h & e & ->). by exists h, e.
  - right. split; [done|]. destruct (Hq eq_refl) as [_ Hts].
    assert (∀ b, b ∈ spawn a → ∃ h f, b = HookTask KStart h f) as Hall.
    { intros b [i Hi]%list_elem_of_lookup_1.
      destruct (wf_spawned _ _ Hwf) as [_ Hb]; [congruence|].
      rewrite <-Hb, list_lookup_fmap in Hi.
      destruct (st_tasks st !! i) as [t|] eqn:Ht; [|done].
      simpl in Hi. injection Hi as <-.
      destruct (forallb_finished_lookup _ _ _ Hfin Ht) as [e He].
      apply (Hts _ _ Ht). by rewrite He. }
    split.
    + destruct (sigs (opts a)) eqn:Hs; [done|].
      destruct (Hall SignalTask) as (h & f & ?); [|done].
      apply SignalTask_in_spawn. by rewrite Hs.
    + intros h f Hreg%elem_of_spawn. by destruct (Hall _ Hreg) as (h' & f' & ?).
Qed.

Lemma X6_no_return_without_cause_witness :
  match exec [LRun; LTask 1; LTask 1; LTask 0; LTask 0; LSelectDone 2; LWait]
          (boot failing_app 0) with
  | Some st =>
      ∃ h e, first_failure (st_log st) = Some (EvReturn KStart h (Some e)) ∧
             Some (Failure "listen") = Some e
  | None => False
  end.
Proof.
  destruct (exec [LRun; LTask 1%nat; LTask 1%nat; LTask 0%nat; LTask 0%nat;
                  LSelectDone 2%nat; LWait] (boot failing_app 0))
    as [st|] eqn:Hex; [|by vm_compute in Hex].
  assert (st_status st = Returned (Some (Failure "listen")) ∧
          CRoot ∉ st_canceled st) as [Hr Hroot].
  { vm_compute in Hex. injection Hex as <-. split; [done|].
    rewrite list_elem_of_In. simpl. intros [?|[?|[?|[]]]]; discriminate. }
  destruct (X6_no_return_without_cause failing_app 0 _ st _ eq_refl Hex Hr Hroot)
    as [Hstart|[? _]]; [exact Hstart|done].
Defined.

(** ** Who cancels the root context *)
Lemma root_kept_step a l st st' :
  (∀ fn sig, sigFn (opts a) = Some fn → sig ∈ sigs (opts a) → fn sig = NoCall) →
  inv a st →
  Forall (λ sig, sig ∈ sigs (opts a)) (st_chan st) →
  l ≠ LStop →
  Step l st st' →
  CRoot ∉ st_canceled st → CRoot ∉ st_canceled st'.
Proof.
  intros Hfn Hinv Hchan Hl HS Hroot. pose proof (inv_wf _ _ Hinv) as Hwf.
  destruct HS; norm; try done.
  - apply Run_spawn_eq in H as [_ ->]. simpl. apply not_elem_of_nil.
  - destruct (inv_pcs _ _ Hinv _ _ H) as (_ & t0 & sh & -> & _).
    by intros [[?|?]%elem_of_cancel_ctx|?]%elem_of_cancel_group.
  - by intros [?|?]%elem_of_cancel_group.
  - unfold cancel_handler. rewrite (wf_opts _ _ Hwf).
    destruct (sigFn (opts a)) as [fn|] eqn:Hs; [|done].
    rewrite (Hfn fn sig); [done..|].
    rewrite H0 in Hchan. by apply Forall_cons in Hchan as [? _].
  - by intros [?|?]%elem_of_cancel_ctx.
Qed.

Lemma root_kept_exec a ls st st' :
  (∀ fn sig, sigFn (opts a) = Some fn → sig ∈ sigs (opts a) → fn sig = NoCall) →
  inv a st →
  (length (st_chan st) ≤ length (sigs (opts a)))%nat ∧
    Forall (λ sig, sig ∈ sigs (opts a)) (st_chan st) →
  LStop ∉ ls →
  exec ls st = Some st' →
  CRoot ∉ st_canceled st → CRoot ∉ st_canceled st'.
Proof.
  intros Hfn. revert st. induction ls as [|l ls IH]; intros st Hinv Hchan Hno.
  - by intros [= <-].
  - simpl. destruct (step l st) as [st1|] eqn:Hs; [|done].
    apply step_Step in Hs. intros Hex Hroot.
    apply not_elem_of_cons in Hno as [Hl Hno].
    eapply (IH st1); [by eapply inv_step| |done..|].
    + eapply chan_bound_step; [apply Hinv|done..].
    + eapply (root_kept_step a l st st1); [done|done|apply Hchan|by intros ->|done|done].
Qed.

(** X7. Only [Stop] cancels the root context: a failing task and the
    return of [Run] cancel the context of the group, not that of the
    root. In a run without a call of [Stop], whose signal handler is nil
    or never calls [Stop] for a configured signal, the root context is
    never cancelled, whatever the callbacks return. *)
Theorem X7_root_cancelled_by_stop_only a now ls st :
  cancel a = None →
  (∀ fn sig, sigFn (opts a) = Some fn → sig ∈ sigs (opts a) → fn sig = NoCall) →
  LStop ∉ ls →
  exec ls (boot a now) = Some st →
  Err st rootCtx = None ∧ CRoot ∉ st_canceled st.
Proof.
  intros Ha Hfn Hno Hex.
  assert (CRoot ∉ st_canceled st) as Hroot.
  { eapply root_kept_exec; [done|by apply inv_boot| |done..|].
    - simpl. split; [lia|done].
    - simpl. apply not_elem_of_nil. }
  split; [|done]. unfold Err.
  destruct (ctx_err (st_now st) (st_canceled st) rootCtx) as [e|] eqn:He;
    [|done].
  exfalso. apply Hroot. cbv [ctx_err rootCtx] in He. by case_bool_decide.
Qed.

Lemma X7_root_cancelled_by_stop_only_witness :
  match exec [LRun; LTask 2; LTask 2; LTask 1; LTask 1; LTask 0; LTask 0; LWait]
          (boot two_failures_app 0) with
  | Some st => st_status st = Returned (Some (Failure "second")) ∧
               Err st rootCtx = None
  | None => False
  end.
Proof.
  destruct (exec [LRun; LTask 2%nat; LTask 2%nat; LTask 1%nat; LTask 1%nat;
                  LTask 0%nat; LTask 0%nat; LWait] (boot two_failures_app 0))
    as [st|] eqn:Hex; [|by vm_compute in Hex].
  destruct (X7_root_cancelled_by_stop_only two_failures_app 0
              [LRun; LTask 2%nat; LTask 2%nat; LTask 1%nat; LTask 1%nat;
               LTask 0%nat; LTask 0%nat; LWait] st)
    as [Herr _]; [reflexivity| | |exact Hex|].
  - intros fn sig _ Hin. by apply elem_of_nil in Hin.
  - rewrite list_elem_of_In. simpl. intuition discriminate.
  - split; [|exact Herr]. vm_compute in Hex. by injection Hex as <-.
Defined.

(** ** A signal stops the run *)
Lemma listener_result_nonnil a now ls st r :
  cancel a = None →
  exec ls (boot a now) = Some st →
  st_status st = Returned r →
  sigs (opts a) ≠ [] →
  ∃ e, r = Some e.
Proof.
  intros Ha Hex Hr Hne. pose proof (inv_run _ _ _ _ Ha Hex) as Hinv.
  pose proof (inv_wf _ _ Hinv) as Hwf.
  destruct (wf_returned _ _ Hwf r Hr) as [Hg Hfin].
  rewrite (group_err _ (inv_group _ _ Hinv)) in Hg.
  assert (SignalTask ∈ spawn a) as Hin by by apply SignalTask_in_spawn.
  apply list_elem_of_lookup_1 in Hin as [i Hi].
  destruct (wf_spawned _ _ Hwf) as [_ Hb]; [congruence|].
  rewrite <-Hb, list_lookup_fmap in Hi.
  destruct (st_tasks st !! i) as [[b p]|] eqn:Ht; [|done].
  simpl in Hi. injection Hi as ->.
  destruct (forallb_finished_lookup _ _ _ Hfin Ht) as [e He].
  simpl in He. subst p.
  destruct (inv_pcs _ _ Hinv _ _ Ht) as [-> Hexit].
  destruct (first_failure (st_log st)) as [ev|] eqn:Hf.
  - apply first_failure_Some in Hf as [_ [e He]]. simpl in Hg.
    exists e. congruence.
  - by apply (first_failure_None _ _ Hf) in Hexit.
Qed.

(** X8. Let every callback return when it is looked at. In a run that has
    not returned, when the listener takes from the channel a signal for
    which the handler calls [Stop], the root context is cancelled at that
    step, and from there the goroutines alone bring [Run] to return, with
    a non-nil error. *)
Theorem X8_signal_stops_run a now ls st i fn sig rest :
  cancel a = None →
  (∀ k h f, registered a k h f → ∀ v, ∃ e, f v = Returns e) →
  exec ls (boot a now) = Some st →
  st_tasks st !! i = Some {| t_body := SignalTask; t_pc := Spawned |} →
  st_chan st = sig :: rest →
  sigFn (opts a) = Some fn →
  fn sig = CallStop →
  ∃ st1, step (LSelectRecv i) st = Some st1 ∧
         Err st1 rootCtx = Some Canceled ∧
         ∃ ls' st' e, forallb goroutine ls' = true ∧
                      exec ls' st1 = Some st' ∧
                      st_status st' = Returned (Some e).
Proof.
  intros Ha Htotal Hex Ht Hc Hfn Hstop.
  pose proof (inv_run _ _ _ _ Ha Hex) as Hinv.
  pose proof (inv_wf _ _ Hinv) as Hwf.
  assert (step (LSelectRecv i) st = Some (handle sig (set_chan rest st))) as Hs.
  { simpl. unfold select_recv. by rewrite Ht, Hc. }
  exists (handle sig (set_chan rest st)). split; [done|].
  assert (exec (ls ++ [LSelectRecv i]) (boot a now) =
          Some (handle sig (set_chan rest st))) as Hex1.
  { rewrite exec_app, Hex. simpl. unfold select_recv. by rewrite Ht, Hc. }
  pose proof (inv_run _ _ _ _ Ha Hex1) as Hinv1.
  assert (st_status st ≠ Idle) as Hni by by eapply wf_not_idle.
  assert (Err (handle sig (set_chan rest st)) rootCtx = Some Canceled) as Hroot.
  { unfold handle. simpl. rewrite (wf_opts _ _ Hwf), Hfn, Hstop.
    apply Stop_cancels. simpl. by apply (wf_spawned _ _ Hwf). }
  split; [done|].
  destruct (stopped_returns a (handle sig (set_chan rest st)) Hinv1 Htotal)
    as (ls' & st' & r & Hls & Hex' & Hr).
  - by rewrite handle_eq.
  - unfold Err in *. apply root_err_Some in Hroot.
    erewrite (proj2 (group_err_Some _ _)); [done|]. by right.
  - assert (exec ((ls ++ [LSelectRecv i]) ++ ls') (boot a now) = Some st')
      as Hall by (by rewrite exec_app, Hex1).
    destruct (listener_result_nonnil a now _ st' r Ha Hall Hr) as [e ->].
    + apply (wf_task_spawned a) in Ht; [|done].
      by eapply SignalTask_in_spawn, list_elem_of_lookup_2.
    + by exists ls', st', e.
Qed.

Lemma X8_signal_stops_run_witness :
  match exec [LRun; LSignal SIGINT] (boot server_app 0) with
  | Some st =>
      ∃ st1, step (LSelectRecv 2) st = Some st1 ∧
             Err st1 rootCtx = Some Canceled ∧
             ∃ ls' st' e, forallb goroutine ls' = true ∧
                          exec ls' st1 = Some st' ∧
                          st_status st' = Returned (Some e)
  | None => False
  end.
Proof.
  destruct (exec [LRun; LSignal SIGINT] (boot server_app 0))
    as [st|] eqn:Hex; [|by vm_compute in Hex].
  assert (st_tasks st !! 2%nat =
            Some {| t_body := SignalTask; t_pc := Spawned |} ∧
          st_chan st = [SIGINT]) as [Ht Hc].
  { vm_compute in Hex. by injection Hex as <-. }
  apply (X8_signal_stops_run server_app 0 [LRun; LSignal SIGINT] st 2%nat
           default_sigFn SIGINT []); try done.
  intros k h f (hook & Hh & Hs) v.
  destruct h as [|h]; [|done]. simpl in Hh. injection Hh as <-.
  exists None. destruct k; simpl in Hs; by injection Hs as <-.
Defined.

(** ** Every callback is called once *)
Lemma count_cons p ev lg :
  count p (ev :: lg) = ((if p ev then 1 else 0) + count p lg)%nat.
Proof. unfold count. simpl. by destruct (p ev). Qed.

Lemma count_pos p lg : (0 < count p lg)%nat → ∃ ev, ev ∈ lg ∧ p ev = true.
Proof.
  induction lg as [|ev lg IH]; [unfold count; simpl; lia|].
  rewrite count_cons. destruct (p ev) eqn:Hp.
  - intros _. exists ev. split; [by constructor|done].
  - intros (ev' & Hin & Hev')%IH. exists ev'. split; [by constructor|done].
Qed.

Lemma count_handled p o sig lg :
  p (EvHandle sig) = false → count p (handled o sig lg) = count p lg.
Proof.
  intros Hp. unfold handled. destruct (sigFn o); [|done].
  by rewrite count_cons, Hp.
Qed.

Lemma other_task a st i j k h f p k' h' f' p' :
  wf a st → i ≠ j →
  st_tasks st !! i = Some {| t_body := HookTask k h f; t_pc := p |} →
  st_tasks st !! j = Some {| t_body := HookTask k' h' f'; t_pc := p' |} →
  ¬ (k = k' ∧ h = h').
Proof.
  intros Hwf Hne Hi%(wf_task_spawned a) Hj%(wf_task_spawned a); [|done..].
  simpl in *. intros [<- <-]. by apply Hne, (spawn_inj a i j k h f f').
Qed.

Lemma once_ok_step a l st st' :
  wf a st → once_ok st → Step l st st' → once_ok st'.
Proof.
  intros Hwf Hok HS j k' h' f' p'.
  destruct HS; norm; try (intros Hj; by eapply Hok).
  - apply Run_spawn_eq in H as [Hidle ->]. simpl.
    apply (wf_idle _ _ Hwf) in Hidle as (_ & _ & _ & _ & _ & _ & ->).
    rewrite list_lookup_fmap.
    destruct (spawn (st_app st) !! j); simpl; [|done]. by intros [= -> <-].
  - rewrite !count_cons. simpl.
    intros [(-> & t0 & Ht0 & Heq)|[Hne Hj]]%lookup_alter_pc.
    + rewrite H in Ht0. injection Ht0 as <-. injection Heq as -> -> -> ->.
      destruct (Hok _ _ _ _ _ H) as [-> ->].
      by rewrite bool_decide_eq_true_2.
    + rewrite bool_decide_eq_false_2; [by eapply Hok|].
      by eapply other_task.
  - rewrite !count_cons. simpl.
    intros [(-> & t0 & Ht0 & Heq)|[Hne Hj]]%lookup_alter_pc.
    + rewrite H in Ht0. injection Ht0 as <-. injection Heq as -> -> -> ->.
      destruct (Hok _ _ _ _ _ H) as [-> ->].
      by rewrite bool_decide_eq_true_2.
    + rewrite bool_decide_eq_false_2; [by eapply Hok|].
      by eapply other_task.
  - rewrite !count_cons. simpl.
    intros [(-> & t0 & Ht0 & Heq)|[Hne Hj]]%lookup_alter_pc.
    + rewrite H in Ht0. by injection Ht0 as <-.
    + by eapply Hok.
  - rewrite !count_handled by done. intros Hj. by eapply Hok.
Qed.

Lemma once_ok_run a now ls st :
  cancel a = None → exec ls (boot a now) = Some st → once_ok st.
Proof.
  intros Ha Hex. cut (inv a st ∧ once_ok st); [tauto|].
  revert Hex. apply (exec_invariant (λ s, inv a s ∧ once_ok s)).
  - intros l s s' [Hinv Hs] HS. split; [by eapply inv_step|].
    eapply once_ok_step; [apply Hinv|done..].
  - split; [by apply inv_boot|]. intros i k h f p Hi. simpl in Hi.
    by rewrite lookup_nil in Hi.
Qed.

(** X9. In a run every callback is called at most once and returns at
    most once, and only after it was called: the history of a task that
    is spawned holds no call, that of a task inside its callback holds
    one call and no return, that of a finished task one call and one
    return. *)
Theorem X9_called_once a now ls st k h :
  cancel a = None →
  exec ls (boot a now) = Some st →
  (count (call_of k h) (st_log st) ≤ 1)%nat ∧
  (count (return_of k h) (st_log st) ≤ count (call_of k h) (st_log st))%nat ∧
  (∀ i f p,
     st_tasks st !! i = Some {| t_body := HookTask k h f; t_pc := p |} →
     count (call_of k h) (st_log st) = calls_at p ∧
     count (return_of k h) (st_log st) = returns_at p).
Proof.
  intros Ha Hex. pose proof (inv_run _ _ _ _ Ha Hex) as Hinv.
  pose proof (inv_wf _ _ Hinv) as Hwf.
  pose proof (once_ok_run _ _ _ _ Ha Hex) as Hok.
  assert ((0 < count (call_of k h) (st_log st))%nat ∨
          (0 < count (return_of k h) (st_log st))%nat →
          ∃ i f p, st_tasks st !! i =
                     Some {| t_body := HookTask k h f; t_pc := p |}) as Htask.
  { assert (st_log st ≠ [] → ∀ f, HookTask k h f ∈ spawn a →
            ∃ i f p, st_tasks st !! i =
                       Some {| t_body := HookTask k h f; t_pc := p |}) as Hsp.
    { intros Hlog f [i Hi]%list_elem_of_lookup_1.
      destruct (wf_spawned _ _ Hwf) as [_ Hb].
      { intros Hidle. by apply (wf_idle _ _ Hwf) in Hidle as (_&_&_&_&_&_&?). }
      rewrite <-Hb, list_lookup_fmap in Hi.
      destruct (st_tasks st !! i) as [[b p]|] eqn:Ht; [|done].
      simpl in Hi. injection Hi as ->. eauto. }
    intros [(ev & Hin & Hev)%count_pos|(ev & Hin & Hev)%count_pos].
    - destruct ev as [k' h' c t sh| | | |]; simpl in Hev; try done.
      apply bool_decide_eq_true in Hev as [-> ->].
      destruct (log_call _ _ (inv_log _ _ Hinv) _ _ _ _ _ Hin)
        as (i & f & Hi & _).
      apply (Hsp ltac:(by intros Hnil; rewrite Hnil in Hin;
                         apply elem_of_nil in Hin) f).
      by eapply list_elem_of_lookup_2.
    - destruct ev as [|k' h' e| | |]; simpl in Hev; try done.
      apply bool_decide_eq_true in Hev as [-> ->].
      destruct (log_return _ _ (inv_log _ _ Hinv) _ _ _ Hin)
        as (f & v & Hreg & _).
      apply (Hsp ltac:(by intros Hnil; rewrite Hnil in Hin;
                         apply elem_of_nil in Hin) f).
      by apply elem_of_spawn. }
  split; [|split].
  - destruct (count (call_of k h) (st_log st)) as [|n] eqn:Hn; [lia|].
    destruct Htask as (i & f & p & Ht); [left; lia|].
    destruct (Hok _ _ _ _ _ Ht) as [Hc _]. rewrite Hn in Hc.
    destruct p; simpl in Hc; lia.
  - destruct (count (return_of k h) (st_log st)) as [|n] eqn:Hn; [lia|].
    destruct Htask as (i & f & p & Ht); [right; lia|].
    destruct (Hok _ _ _ _ _ Ht) as [Hc Hr]. rewrite Hn in Hr. rewrite Hc.
    destruct p; simpl in *; lia.
  - intros i f p Ht. by eapply Hok.
Qed.

Lemma X9_called_once_witness :
  match exec [LRun; LTask 1; LTask 1; LTask 0] (boot failing_app 0) with
  | Some st =>
      count (call_of KStop 0) (st_log st) = 1%nat ∧
      count (return_of KStop 0) (st_log st) = 0%nat
  | None => False
  end.
Proof.
  destruct (exec [LRun; LTask 1%nat; LTask 1%nat; LTask 0%nat]
              (boot failing_app 0)) as [st|] eqn:Hex; [|by vm_compute in Hex].
  destruct (X9_called_once failing_app 0 _ st KStop 0%nat eq_refl Hex)
    as (_ & _ & Hpc).
  apply (Hpc 0%nat succeed
           (Calling (WithDeadline Background (30 * Second) (CCall 0)))).
  vm_compute in Hex. by injection Hex as <-.
Defined.

(** ** After a failure *)
Lemma gerr_kept_step a l st st' e :
  wf a st → Step l st st' → st_gerr st = Some e → st_gerr st' = Some e.
Proof.
  intros Hwf HS Hg. destruct HS; norm; try done.
  - apply Run_spawn_eq in H as [Hidle _].
    apply (wf_idle _ _ Hwf) in Hidle as (_ & _ & ? & _). congruence.
  - by rewrite Hg.
  - by rewrite Hg.
Qed.

Lemma gerr_kept_exec a ls st st' e :
  inv a st → exec ls st = Some st' → st_gerr st = Some e →
  st_gerr st' = Some e.
Proof.
  intros Hinv Hex Hg. cut (inv a st' ∧ st_gerr st' = Some e); [tauto|].
  revert Hex. apply (exec_invariant (λ s, inv a s ∧ st_gerr s = Some e));
    [|done].
  intros l s s' [Hi Hs] HS. split; [by eapply inv_step|].
  eapply gerr_kept_step; [apply Hi|done..].
Qed.

(** X11. The first error of the group is final and ends the run. Once a
    task has failed with [e], the group's context is cancelled, so every
    stop task that still waits can call its callback; [g.err] stays [e]
    whatever happens later; and, when every callback returns when looked
    at, the goroutines alone bring [Run] to return, and it returns [e]. *)
Theorem X11_failure_ends_run a now ls st e :
  cancel a = None →
  (∀ k h f, registered a k h f → ∀ v, ∃ e', f v = Returns e') →
  exec ls (boot a now) = Some st →
  st_gerr st = Some e →
  Err st groupCtx = Some Canceled ∧
  (∀ i h f,
     st_tasks st !! i = Some {| t_body := HookTask KStop h f; t_pc := Spawned |} →
     step (LTask i) st = Some (call i KStop h st)) ∧
  (∀ ls' st', exec ls' st = Some st' → st_gerr st' = Some e) ∧
  (∃ ls' st', forallb goroutine ls' = true ∧ exec ls' st = Some st' ∧
              st_status st' = Returned (Some e)).
Proof.
  intros Ha Htotal Hex Hg. pose proof (inv_run _ _ _ _ Ha Hex) as Hinv.
  pose proof (inv_wf _ _ Hinv) as Hwf.
  assert (Err st groupCtx = Some Canceled) as Herr.
  { apply (group_canceled _ (inv_group _ _ Hinv)). congruence. }
  split; [done|]. split; [|split].
  - intros i h f Ht. simpl. unfold step_task. by rewrite Ht, Herr.
  - intros ls' st' Hex'. by eapply gerr_kept_exec.
  - destruct (stopped_returns a st Hinv Htotal) as (ls' & st' & r & Hls & Hex' & Hr).
    + intros Hidle. apply (wf_idle _ _ Hwf) in Hidle as (_ & _ & ? & _).
      congruence.
    + congruence.
    + exists ls', st'. split; [done|]. split; [done|].
      pose proof (inv_exec _ _ _ _ Hinv Hex') as Hinv'.
      destruct (wf_returned _ _ (inv_wf _ _ Hinv') r Hr) as [Hrg _].
      rewrite Hr, Hrg. f_equal. exact (gerr_kept_exec _ _ _ _ _ Hinv Hex' Hg).
Qed.

Lemma X11_failure_ends_run_witness :
  match exec [LRun; LTask 1; LTask 1] (boot failing_app 0) with
  | Some st =>
      step (LTask 0) st = Some (call 0 KStop 0 st) ∧
      ∃ ls' st', forallb goroutine ls' = true ∧ exec ls' st = Some st' ∧
                 st_status st' = Returned (Some (Failure "listen"))
  | None => False
  end.
Proof.
  destruct (exec [LRun; LTask 1%nat; LTask 1%nat] (boot failing_app 0))
    as [st|] eqn:Hex; [|by vm_compute in Hex].
  assert (st_gerr st = Some (Failure "listen") ∧
          st_tasks st !! 0%nat =
            Some {| t_body := HookTask KStop 0 succeed; t_pc := Spawned |})
    as [Hg Ht].
  { vm_compute in Hex. by injection Hex as <-. }
  destruct (X11_failure_ends_run failing_app 0 [LRun; LTask 1%nat; LTask 1%nat]
              st (Failure "listen")) as (_ & Hstop & _ & Hret);
    [reflexivity| |exact Hex|exact Hg|].
  - intros k h f (hook & Hh & Hs) v.
    destruct h as [|h]; [|done]. simpl in Hh. injection Hh as <-.
    destruct k; simpl in Hs; injection Hs as <-; eexists; reflexivity.
  - split; [by apply (Hstop 0%nat 0%nat succeed)|exact Hret].
Defined.

(** * The call of a callback, from its first to its last step *)

(** The timeout of each kind, as configured. *)
Lemma timeout_of_kind k o :
  (k = KStart → timeout_of k o = startTimeout o) ∧
  (k = KStop → timeout_of k o = stopTimeout o).
Proof. by destruct k. Qed.

(** The first step of a hook task makes the context of the call, from the
    background and the clock of that instant, and enters the callback. *)
Lemma call_step a st i k h f st1 :
  inv a st →
  st_tasks st !! i = Some {| t_body := HookTask k h f; t_pc := Spawned |} →
  step (LTask i) st = Some st1 →
  st1 = call i k h st ∧
  st_tasks st1 !! i =
    Some {| t_body := HookTask k h f;
            t_pc := Calling (WithDeadline Background
                               (st_now st + timeout_of k (opts a)) (CCall i)) |} ∧
  st_log st1 =
    EvCall k h (WithDeadline Background (st_now st + timeout_of k (opts a))
                  (CCall i)) (st_now st) (Err st groupCtx) :: st_log st ∧
  (k = KStop → Err st groupCtx = Some Canceled).
Proof.
  intros Hinv Ht Hs. pose proof (wf_opts _ _ (inv_wf _ _ Hinv)) as Ho.
  assert (st1 = call i k h st ∧ (k = KStop → Err st groupCtx = Some Canceled))
    as [-> Hdone].
  { simpl in Hs. unfold step_task in Hs. rewrite Ht in Hs.
    destruct k; [by injection Hs as <-|].
    unfold Err in *.
    destruct (group_err_cases (st_now st) (st_canceled st)) as [He|He];
      rewrite He in Hs; [done|]. by injection Hs as <-. }
  split; [done|]. unfold call; norm. rewrite Ho.
  split; [by rewrite list_lookup_alter_eq, Ht|]. done.
Qed.

(** A task that is inside its callback stays there, with the same
    context, until the callback returns. *)
Lemma calling_kept a ls st st' i k h f c :
  inv a st →
  st_tasks st !! i = Some {| t_body := HookTask k h f; t_pc := Calling c |} →
  exec ls st = Some st' →
  ∃ p, st_tasks st' !! i = Some {| t_body := HookTask k h f; t_pc := p |} ∧
       (p = Calling c ∨ ∃ e, p = Finished e).
Proof.
  intros Hinv Ht Hex.
  cut (inv a st' ∧
       ∃ p, st_tasks st' !! i = Some {| t_body := HookTask k h f; t_pc := p |} ∧
            (p = Calling c ∨ ∃ e, p = Finished e)); [tauto|].
  revert Hex. apply (exec_invariant (λ s, inv a s ∧
    ∃ p, st_tasks s !! i = Some {| t_body := HookTask k h f; t_pc := p |} ∧
         (p = Calling c ∨ ∃ e, p = Finished e))); [|by eauto].
  intros l s s' [Hi (p & Hp & Hpc)] HS. split; [by eapply inv_step|].
  destruct HS; norm; eauto.
  - apply Run_spawn_eq in H as [Hidle _].
    by destruct (wf_not_idle _ _ _ _ (inv_wf _ _ Hi) Hp).
  - destruct (decide (i0 = i)) as [->|Hne].
    + rewrite Hp in H. simplify_eq. by destruct Hpc as [|[]].
    + rewrite list_lookup_alter_ne by done. eauto.
  - destruct (decide (i0 = i)) as [->|Hne].
    + rewrite list_lookup_alter_eq, Hp. simpl. eauto.
    + rewrite list_lookup_alter_ne by done. eauto.
  - destruct (decide (i0 = i)) as [->|Hne].
    + rewrite Hp in H. done.
    + rewrite list_lookup_alter_ne by done. eauto.
Qed.

(** What a running callback is applied to, and what its answer does: it
    sees its own context, the clock, and an error that only says whether
    its own deadline has passed. *)
Lemma return_step a st i k h f d :
  inv a st →
  st_tasks st !! i =
    Some {| t_body := HookTask k h f;
            t_pc := Calling (WithDeadline Background d (CCall i)) |} →
  look st (WithDeadline Background d (CCall i)) =
    {| v_ctx := WithDeadline Background d (CCall i);
       v_now := st_now st;
       v_err := if d <=? st_now st then Some DeadlineExceeded else None |} ∧
  step (LTask i) st =
    match f {| v_ctx := WithDeadline Background d (CCall i);
               v_now := st_now st;
               v_err := if d <=? st_now st then Some DeadlineExceeded
                        else None |} with
    | Returns e =>
        Some (group_done e
                (call_cancel (CancelOf (WithDeadline Background d (CCall i)))
                   (record (EvReturn k h e) (set_pc i (Finished e) st))))
    | Blocks => None
    end.
Proof.
  intros Hinv Ht.
  destruct (inv_pcs _ _ Hinv _ _ Ht) as (Hn & _).
  assert (look st (WithDeadline Background d (CCall i)) =
          {| v_ctx := WithDeadline Background d (CCall i);
             v_now := st_now st;
             v_err := if d <=? st_now st then Some DeadlineExceeded else None |})
    as Hlook.
  { unfold look, Err. f_equal. cbv [ctx_err].
    by rewrite bool_decide_eq_false_2. }
  split; [done|]. simpl. unfold step_task. by rewrite Ht, Hlook.
Qed.

Lemma finished_after_return i k h f e st c :
  st_tasks st !! i = Some {| t_body := HookTask k h f; t_pc := Calling c |} →
  st_tasks (group_done e (call_cancel (CancelOf c)
              (record (EvReturn k h e) (set_pc i (Finished e) st)))) !! i =
    Some {| t_body := HookTask k h f; t_pc := Finished e |} ∧
  EvReturn k h e ∈
    st_log (group_done e (call_cancel (CancelOf c)
              (record (EvReturn k h e) (set_pc i (Finished e) st)))) ∧
  st_gerr (group_done e (call_cancel (CancelOf c)
              (record (EvReturn k h e) (set_pc i (Finished e) st)))) =
    keep_first (st_gerr st) e.
Proof.
  intros Ht. norm. rewrite list_lookup_alter_eq, Ht.
  split; [done|]. split; [by constructor|done].
Qed.

(** From the call on: the context of the call is fixed by the instant of
    the call and the timeout of the kind, and at every later instant at
    which the callback still runs, whatever happened in between, the
    callback is applied to the view of that context. *)
Lemma running_callback a st i k h f st1 ls2 st2 c :
  inv a st →
  st_tasks st !! i = Some {| t_body := HookTask k h f; t_pc := Spawned |} →
  step (LTask i) st = Some st1 →
  exec ls2 st1 = Some st2 →
  st_tasks st2 !! i = Some {| t_body := HookTask k h f; t_pc := Calling c |} →
  let d := st_now st + timeout_of k (opts a) in
  let v := {| v_ctx := WithDeadline Background d (CCall i);
              v_now := st_now st2;
              v_err := if d <=? st_now st2 then Some DeadlineExceeded
                       else None |} in
  inv a st2 ∧
  c = WithDeadline Background d (CCall i) ∧
  look st2 c = v ∧
  (f v = Blocks → step (LTask i) st2 = None) ∧
  (∀ e, f v = Returns e →
        ∃ st3, step (LTask i) st2 = Some st3 ∧
               st_tasks st3 !! i =
                 Some {| t_body := HookTask k h f; t_pc := Finished e |} ∧
               EvReturn k h e ∈ st_log st3 ∧
               st_gerr st3 = keep_first (st_gerr st2) e).
Proof.
  intros Hinv Ht Hs Hex Ht2 d v.
  destruct (call_step _ _ _ _ _ _ _ Hinv Ht Hs) as (-> & Ht1 & _ & _).
  assert (inv a (call i k h st)) as Hinv1.
  { eapply inv_step; [done|]. by apply step_Step. }
  pose proof (inv_exec _ _ _ _ Hinv1 Hex) as Hinv2.
  destruct (calling_kept _ _ _ _ _ _ _ _ _ Hinv1 Ht1 Hex) as (p & Hp & Hpc).
  rewrite Ht2 in Hp. injection Hp as <-.
  destruct Hpc as [[= ->]|[e ?]]; [|done].
  destruct (return_step _ _ _ _ _ _ _ Hinv2 Ht2) as [Hlook Hstep].
  split; [done|]. split; [done|]. split; [done|]. fold d in Hstep. fold v in Hstep.
  split.
  - intros Hb. by rewrite Hstep, Hb.
  - intros e He. rewrite Hstep, He. eexists. split; [done|].
    by apply finished_after_return.
Qed.

(** ** The tasks of the hooks and the contexts of their callbacks *)

(** C8. A hook without [OnStart] gets no start task and a hook without
    [OnStop] gets no stop task: the hook tasks that [Run] spawns are the
    registered callbacks, one task each. Every call of a callback gets a
    context of its own: when the task calls, it makes a context from the
    background whose deadline is the instant of the call plus
    [startTimeout] for a start callback and plus [stopTimeout] for a stop
    callback, with a cancel function of its own. At every later instant
    at which the callback still runs, whatever the other tasks and
    contexts did in between, the callback is applied to that very
    context, the clock, and an error that says whether its own deadline
    has passed and nothing else; what it returns is what the task
    returns. *)
Theorem C8_tasks_and_contexts a now ls st :
  cancel a = None →
  exec ls (boot a now) = Some st →
  (∀ h hook, hooks a !! h = Some hook →
     (OnStart hook = None → ∀ f, HookTask KStart h f ∉ spawn a) ∧
     (OnStop hook = None → ∀ f, HookTask KStop h f ∉ spawn a)) ∧
  (∀ k h f, HookTask k h f ∈ spawn a ↔ registered a k h f) ∧
  (∀ i j k h f g,
     spawn a !! i = Some (HookTask k h f) →
     spawn a !! j = Some (HookTask k h g) → i = j) ∧
  (∀ k h c t sh,
     EvCall k h c t sh ∈ st_log st →
     ∃ i f, spawn a !! i = Some (HookTask k h f) ∧
            c = WithTimeout Background t (timeout_of k (opts a)) (CCall i)) ∧
  (∀ i k h f c,
     st_tasks st !! i = Some {| t_body := HookTask k h f; t_pc := Calling c |} →
     ∃ t0, c = WithTimeout Background t0 (timeout_of k (opts a)) (CCall i) ∧
           Err st c = (if t0 + timeout_of k (opts a) <=? st_now st
                       then Some DeadlineExceeded else None) ∧
           ∀ cs', (CCall i ∈ cs' ↔ CCall i ∈ st_canceled st) →
                  ∀ t, ctx_err t cs' c = ctx_err t (st_canceled st) c) ∧
  (∀ i k h f st1,
     st_tasks st !! i = Some {| t_body := HookTask k h f; t_pc := Spawned |} →
     step (LTask i) st = Some st1 →
     ∃ T,
       (k = KStart → T = startTimeout (opts a)) ∧
       (k = KStop → T = stopTimeout (opts a)) ∧
       st_tasks st1 !! i =
         Some {| t_body := HookTask k h f;
                 t_pc := Calling (WithDeadline Background (st_now st + T)
                                    (CCall i)) |} ∧
       ∀ ls2 st2 c,
         exec ls2 st1 = Some st2 →
         st_tasks st2 !! i =
           Some {| t_body := HookTask k h f; t_pc := Calling c |} →
         c = WithDeadline Background (st_now st + T) (CCall i) ∧
         look st2 c =
           {| v_ctx := WithDeadline Background (st_now st + T) (CCall i);
              v_now := st_now st2;
              v_err := if st_now st + T <=? st_now st2
                       then Some DeadlineExceeded else None |} ∧
         (f {| v_ctx := WithDeadline Background (st_now st + T) (CCall i);
               v_now := st_now st2;
               v_err := if st_now st + T <=? st_now st2
                        then Some DeadlineExceeded else None |} = Blocks →
          step (LTask i) st2 = None) ∧
         (∀ e,
            f {| v_ctx := WithDeadline Background (st_now st + T) (CCall i);
                 v_now := st_now st2;
                 v_err := if st_now st + T <=? st_now st2
                          then Some DeadlineExceeded else None |} = Returns e →
            ∃ st3, step (LTask i) st2 = Some st3 ∧
                   st_tasks st3 !! i =
                     Some {| t_body := HookTask k h f; t_pc := Finished e |} ∧
                   EvReturn k h e ∈ st_log st3)).
Proof.
  intros Ha Hex. pose proof (inv_run _ _ _ _ Ha Hex) as Hinv.
  split; [|split; [|split; [|split; [|split]]]].
  - intros h hook Hh. split; intros Hnone f (hook' & Hh' & Hs)%elem_of_spawn;
      rewrite Hh in Hh'; injection Hh' as <-; simpl in Hs; congruence.
  - apply elem_of_spawn.
  - apply spawn_inj.
  - intros k h c t sh (i & f & Hi & Hc & _)%(log_call _ _ (inv_log _ _ Hinv)).
    eauto.
  - intros i k h f c Ht.
    destruct (calling_ctx _ _ _ _ _ _ _ Hinv Ht) as (t0 & -> & Hle & Hn).
    exists t0. split; [done|]. split.
    + unfold Err. rewrite call_ctx_err. by rewrite bool_decide_eq_false_2.
    + intros cs' Hiff t. by apply call_ctx_err_ext.
  - intros i k h f st1 Ht Hs. exists (timeout_of k (opts a)).
    destruct (timeout_of_kind k (opts a)) as [Hstart Hstop].
    split; [done|]. split; [done|].
    split; [by apply (call_step _ _ _ _ _ _ _ Hinv Ht Hs)|].
    intros ls2 st2 c Hex2 Ht2.
    destruct (running_callback _ _ _ _ _ _ _ _ _ _ Hinv Ht Hs Hex2 Ht2)
      as (_ & Hc & Hlook & Hblock & Hret).
    split; [done|]. split; [done|]. split; [done|].
    intros e He. destruct (Hret e He) as (st3 & ? & ? & ? & _). eauto.
Qed.

Lemma C8_tasks_and_contexts_witness :
  match exec [LRun] (boot failing_app 5) with
  | Some st =>
      (∀ k h f, HookTask k h f ∈ spawn failing_app ↔ registered failing_app k h f) ∧
      ∃ st1,
        step (LTask 1) st = Some st1 ∧
        st_tasks st1 !! 1%nat =
          Some {| t_body := HookTask KStart 0 (fail_with "listen");
                  t_pc := Calling (WithDeadline Background (5 + 30 * Second)
                                     (CCall 1)) |} ∧
        ∃ st3, step (LTask 1) st1 = Some st3 ∧
               st_tasks st3 !! 1%nat =
                 Some {| t_body := HookTask KStart 0 (fail_with "listen");
                         t_pc := Finished (Some (Failure "listen")) |}
  | None => False
  end.
Proof.
  destruct (exec [LRun] (boot failing_app 5)) as [st|] eqn:Hex;
    [|by vm_compute in Hex].
  destruct (C8_tasks_and_contexts failing_app 5 [LRun] st eq_refl Hex)
    as (_ & Hreg & _ & _ & _ & Hcall).
  split; [exact Hreg|].
  assert (st_tasks st !! 1%nat =
            Some {| t_body := HookTask KStart 0 (fail_with "listen");
                    t_pc := Spawned |} ∧ st_now st = 5) as [Ht Hnow].
  { vm_compute in Hex. by injection Hex as <-. }
  destruct (step (LTask 1) st) as [st1|] eqn:Hs.
  2: { simpl in Hs. unfold step_task in Hs. by rewrite Ht in Hs. }
  destruct (Hcall 1%nat KStart 0%nat (fail_with "listen") st1 Ht Hs)
    as (T & HT & _ & Ht1 & Hlater).
  rewrite (HT eq_refl), Hnow in Ht1, Hlater.
  exists st1. split; [done|]. split; [exact Ht1|].
  destruct (Hlater [] st1 _ eq_refl Ht1) as (_ & _ & _ & Hret).
  destruct (Hret (Some (Failure "listen")) eq_refl) as (st3 & Hs3 & Ht3 & _).
  by exists st3.
Defined.

(** C9. The context given to a start or stop callback is derived from the
    background context with a timeout and nothing else: it was made at a
    recorded call, at an instant [t0] not after now, with the deadline
    [t0 + startTimeout] for a start callback and [t0 + stopTimeout] for a
    stop callback. The callback is applied to this context and sees an
    error only when this deadline has passed, and then it is
    [context.DeadlineExceeded]: neither [Stop], nor a failure in the
    group, nor any cancellation of the root or of the group context
    reaches it. The same holds from the call on, at every later instant
    at which the callback still runs, whatever was called or failed in
    between. *)
Theorem C9_callback_context a now ls st i k h f c :
  cancel a = None →
  exec ls (boot a now) = Some st →
  st_tasks st !! i = Some {| t_body := HookTask k h f; t_pc := Calling c |} →
  (∃ t0,
    c = WithDeadline Background (t0 + timeout_of k (opts a)) (CCall i) ∧
    (∀ e, Err st c = Some e →
          e = DeadlineExceeded ∧ t0 + timeout_of k (opts a) ≤ st_now st) ∧
    (st_now st < t0 + timeout_of k (opts a) → Err st c = None) ∧
    Err (Stop st) c = Err st c ∧
    (∀ e, Err (group_done e st) c = Err st c) ∧
    ctx_err (st_now st) (CRoot :: CGroup :: st_canceled st) c = Err st c ∧
    t0 ≤ st_now st ∧
    (∃ sh, EvCall k h c t0 sh ∈ st_log st) ∧
    (k = KStart →
     c = WithDeadline Background (t0 + startTimeout (opts a)) (CCall i)) ∧
    (k = KStop →
     c = WithDeadline Background (t0 + stopTimeout (opts a)) (CCall i)) ∧
    look st c =
      {| v_ctx := c; v_now := st_now st;
         v_err := if t0 + timeout_of k (opts a) <=? st_now st
                  then Some DeadlineExceeded else None |} ∧
    look (Stop st) c = look st c ∧
    (∀ e, look (group_done e st) c = look st c) ∧
    (f (look st c) = Blocks →
     step (LTask i) st = None ∧ step (LTask i) (Stop st) = None) ∧
    (∀ e, f (look st c) = Returns e →
          ∃ st3, step (LTask i) st = Some st3 ∧
                 st_tasks st3 !! i =
                   Some {| t_body := HookTask k h f; t_pc := Finished e |})) ∧
  (∀ j k' h' f' st1 ls2 st2 c',
     st_tasks st !! j = Some {| t_body := HookTask k' h' f'; t_pc := Spawned |} →
     step (LTask j) st = Some st1 →
     exec ls2 st1 = Some st2 →
     st_tasks st2 !! j =
       Some {| t_body := HookTask k' h' f'; t_pc := Calling c' |} →
     ∃ T,
       (k' = KStart → T = startTimeout (opts a)) ∧
       (k' = KStop → T = stopTimeout (opts a)) ∧
       c' = WithDeadline Background (st_now st + T) (CCall j) ∧
       Err st2 c' = (if st_now st + T <=? st_now st2
                     then Some DeadlineExceeded else None) ∧
       look st2 c' =
         {| v_ctx := WithDeadline Background (st_now st + T) (CCall j);
            v_now := st_now st2;
            v_err := if st_now st + T <=? st_now st2
                     then Some DeadlineExceeded else None |} ∧
       ∀ e, f' (look st2 c') = Returns e →
            ∃ st3, step (LTask j) st2 = Some st3 ∧
                   st_tasks st3 !! j =
                     Some {| t_body := HookTask k' h' f';
                             t_pc := Finished e |}).
Proof.
  intros Ha Hex Ht. pose proof (inv_run _ _ _ _ Ha Hex) as Hinv.
  split.
  - destruct (inv_pcs _ _ Hinv _ _ Ht) as (Hn & t0 & sh & -> & Hin).
    destruct (log_call _ _ (inv_log _ _ Hinv) _ _ _ _ _ Hin)
      as (_ & _ & _ & _ & Hle & _).
    exists t0. split; [done|].
    assert (Err st (WithTimeout Background t0 (timeout_of k (opts a)) (CCall i)) =
            if t0 + timeout_of k (opts a) <=? st_now st
            then Some DeadlineExceeded else None) as Herr.
    { unfold Err. rewrite call_ctx_err. by rewrite bool_decide_eq_false_2. }
    assert (Err (Stop st)
              (WithTimeout Background t0 (timeout_of k (opts a)) (CCall i)) =
            Err st (WithTimeout Background t0 (timeout_of k (opts a)) (CCall i)))
      as Hstop.
    { rewrite Stop_eq. unfold Err; simpl. apply call_ctx_err_ext. split.
      - intros [?|?]%elem_of_cancel_app; [done..|].
        apply wf_cancel with a, Hinv.
      - apply cancel_app_incl. }
    assert (∀ e, Err (group_done e st)
                   (WithTimeout Background t0 (timeout_of k (opts a)) (CCall i)) =
                 Err st (WithTimeout Background t0 (timeout_of k (opts a))
                           (CCall i))) as Hgroup.
    { intros e. rewrite group_done_eq. unfold Err; simpl.
      apply call_ctx_err_ext. split.
      - by intros [?|?]%elem_of_cancel_group.
      - apply cancel_group_incl. }
    destruct (return_step _ _ _ _ _ _ _ Hinv Ht) as [Hlook Hstep].
    assert (step (LTask i) (Stop st) = None ∨
            ∃ e, f (look st (WithTimeout Background t0 (timeout_of k (opts a))
                               (CCall i))) = Returns e) as Hstep'.
    { destruct (f (look st (WithTimeout Background t0 (timeout_of k (opts a))
                              (CCall i)))) as [e|] eqn:Hf; [eauto|left].
      simpl. unfold step_task. rewrite Stop_eq at 1. simpl. rewrite Ht.
      unfold look in *. rewrite Stop_eq at 1. simpl.
      by rewrite Hstop, Hf. }
    split; [|split; [|split; [|split; [|split; [|split; [|split; [|split;
      [|split; [|split; [|split; [|split; [|split]]]]]]]]]]]].
    + intros e. rewrite Herr.
      destruct (_ <=? _) eqn:Hd; [|done]. intros [= <-]. split; [done|lia].
    + intros Hlt. rewrite Herr. destruct (_ <=? _) eqn:Hd; [lia|done].
    + done.
    + done.
    + unfold Err. apply call_ctx_err_ext. rewrite !elem_of_cons.
      split; [by intros [?|[?|?]]|auto].
    + done.
    + by exists sh.
    + intros ->. done.
    + intros ->. done.
    + done.
    + unfold look. rewrite Hstop. by rewrite Stop_eq.
    + intros e. unfold look. rewrite Hgroup. by rewrite group_done_eq.
    + intros Hb. split.
      * rewrite Hstep. unfold WithTimeout in Hb. by rewrite <-Hlook, Hb.
      * destruct Hstep' as [?|[e He]]; [done|congruence].
    + intros e He. rewrite Hstep. unfold WithTimeout in He.
      rewrite <-Hlook, He. eexists. split; [done|].
      by apply finished_after_return.
  - intros j k' h' f' st1 ls2 st2 c' Htj Hs Hex2 Ht2.
    exists (timeout_of k' (opts a)).
    destruct (timeout_of_kind k' (opts a)) as [Hstart Hstop].
    split; [done|]. split; [done|].
    destruct (running_callback _ _ _ _ _ _ _ _ _ _ Hinv Htj Hs Hex2 Ht2)
      as (_ & -> & Hlook & _ & Hret).
    split; [done|]. split; [exact (f_equal v_err Hlook)|].
    split; [done|].
    intros e He. rewrite Hlook in He.
    destruct (Hret e He) as (st3 & ? & ? & _). eauto.
Qed.

Lemma C9_callback_context_witness :
  match exec [LRun; LStop; LTask 0; LTick 7] (boot failing_app 5) with
  | Some st =>
      Err st groupCtx = Some Canceled ∧
      look (Stop st) (WithDeadline Background (5 + 30 * Second) (CCall 0)) =
        {| v_ctx := WithDeadline Background (5 + 30 * Second) (CCall 0);
           v_now := 12; v_err := None |} ∧
      ∃ st3, step (LTask 0) st = Some st3 ∧
             st_tasks st3 !! 0%nat =
               Some {| t_body := HookTask KStop 0 succeed;
                       t_pc := Finished None |}
  | None => False
  end.
Proof.
  destruct (exec [LRun; LStop; LTask 0%nat; LTick 7] (boot failing_app 5))
    as [st|] eqn:Hex; [|by vm_compute in Hex].
  assert (st_tasks st !! 0%nat =
            Some {| t_body := HookTask KStop 0 succeed;
                    t_pc := Calling (WithDeadline Background (5 + 30 * Second)
                                       (CCall 0)) |} ∧
          Err st groupCtx = Some Canceled ∧ st_now st = 12) as (Ht & Hg & Hnow).
  { vm_compute in Hex. by injection Hex as <-. }
  destruct (C9_callback_context failing_app 5 _ st 0%nat KStop 0%nat succeed _
              eq_refl Hex Ht) as [(t0 & Hc & _ & _ & _ & _ & _ & _ & _ & _ & _ &
                                   Hlook & Hstop & _ & _ & Hret) _].
  injection Hc as Hc. change (timeout_of KStop (opts failing_app))
    with (30 * Second) in *.
  split; [exact Hg|]. split.
  - rewrite Hstop, Hlook, Hnow.
    destruct (t0 + 30 * Second <=? 12) eqn:Hd; [|done].
    apply Z.leb_le in Hd. unfold Second in *. lia.
  - by apply Hret.
Defined.

(** ** A callback that waits for its context *)

(** X10. A callback that blocks until its context is done and then
    returns [ctx.Err()] is released by its own timeout and by nothing
    else. Let its task call it at some instant. At every later instant at
    which it still runs, whatever happened in between: before the instant
    of the call plus the timeout of its kind ([startTimeout] for a start
    callback, [stopTimeout] for a stop callback) its task cannot move,
    also after a [Stop]; from that instant on it returns
    [context.DeadlineExceeded], which the group keeps as the error of
    [Run] unless it has one already. So the context of a start callback
    expires [startTimeout] after [Run] called it. *)
Theorem X10_released_by_timeout a now ls st i k h f st1 ls2 st2 c :
  cancel a = None →
  exec ls (boot a now) = Some st →
  st_tasks st !! i = Some {| t_body := HookTask k h f; t_pc := Spawned |} →
  (∀ v, f v = match v_err v with
              | Some e => Returns (Some e)
              | None => Blocks
              end) →
  step (LTask i) st = Some st1 →
  exec ls2 st1 = Some st2 →
  st_tasks st2 !! i = Some {| t_body := HookTask k h f; t_pc := Calling c |} →
  ∃ T,
    (k = KStart → T = startTimeout (opts a)) ∧
    (k = KStop → T = stopTimeout (opts a)) ∧
    c = WithDeadline Background (st_now st + T) (CCall i) ∧
    (st_now st2 < st_now st + T →
     Err st2 c = None ∧
     step (LTask i) st2 = None ∧ step (LTask i) (Stop st2) = None) ∧
    (st_now st + T ≤ st_now st2 →
     Err st2 c = Some DeadlineExceeded ∧
     ∃ st3, step (LTask i) st2 = Some st3 ∧
            st_tasks st3 !! i =
              Some {| t_body := HookTask k h f;
                      t_pc := Finished (Some DeadlineExceeded) |} ∧
            st_gerr st3 = keep_first (st_gerr st2) (Some DeadlineExceeded)).
Proof.
  intros Ha Hex Ht Hf Hs Hex2 Ht2.
  pose proof (inv_run _ _ _ _ Ha Hex) as Hinv.
  exists (timeout_of k (opts a)).
  destruct (timeout_of_kind k (opts a)) as [Hstart Hstop].
  split; [done|]. split; [done|].
  destruct (running_callback _ _ _ _ _ _ _ _ _ _ Hinv Ht Hs Hex2 Ht2)
    as (Hinv2 & -> & Hlook & Hblock & Hret).
  split; [done|].
  assert (exec (ls2 ++ [LStop]) st1 = Some (Stop st2)) as Hex3.
  { rewrite exec_app, Hex2. done. }
  assert (st_tasks (Stop st2) !! i =
          Some {| t_body := HookTask k h f;
                  t_pc := Calling (WithDeadline Background
                            (st_now st + timeout_of k (opts a)) (CCall i)) |})
    as Ht3 by by rewrite Stop_eq.
  destruct (running_callback _ _ _ _ _ _ _ _ _ _ Hinv Ht Hs Hex3 Ht3)
    as (_ & _ & _ & Hblock' & _).
  assert (st_now (Stop st2) = st_now st2) as Hnow by by rewrite Stop_eq.
  rewrite Hnow in Hblock'. split.
  - intros Hlt.
    destruct (_ <=? _) eqn:Hd in Hlook; [apply Z.leb_le in Hd; lia|].
    split; [exact (f_equal v_err Hlook)|].
    rewrite Hf in Hblock, Hblock'. simpl in *. rewrite Hd in *.
    split; [by apply Hblock|by apply Hblock'].
  - intros Hge.
    destruct (_ <=? _) eqn:Hd in Hlook; [|apply Z.leb_gt in Hd; lia].
    split; [exact (f_equal v_err Hlook)|].
    destruct (Hret (Some DeadlineExceeded)) as (st3 & ? & ? & _ & ?).
    + rewrite Hf. simpl. by rewrite Hd.
    + by exists st3.
Qed.

Lemma X10_released_by_timeout_witness :
  match exec [LRun] (boot waiting_app 0) with
  | Some st =>
      ∃ st1 st2 st3,
        step (LTask 1) st = Some st1 ∧
        exec [LStop; LTick (30 * Second)] st1 = Some st2 ∧
        Err st2 (WithDeadline Background (30 * Second) (CCall 1)) =
          Some DeadlineExceeded ∧
        step (LTask 1) st2 = Some st3 ∧
        st_gerr st3 = Some DeadlineExceeded
  | None => False
  end.
Proof.
  destruct (exec [LRun] (boot waiting_app 0)) as [st|] eqn:Hex;
    [|by vm_compute in Hex].
  assert (st_tasks st !! 1%nat =
            Some {| t_body := HookTask KStart 0 wait_done; t_pc := Spawned |} ∧
          st_now st = 0) as [Ht Hnow].
  { vm_compute in Hex. by injection Hex as <-. }
  destruct (step (LTask 1) st) as [st1|] eqn:Hs.
  2: { simpl in Hs. unfold step_task in Hs. by rewrite Ht in Hs. }
  destruct (exec [LStop; LTick (30 * Second)] st1) as [st2|] eqn:Hex2.
  2: { by vm_compute in Hex2. }
  assert (st_tasks st2 !! 1%nat =
            Some {| t_body := HookTask KStart 0 wait_done;
                    t_pc := Calling (WithDeadline Background (30 * Second)
                                       (CCall 1)) |} ∧
          st_now st2 = 30 * Second ∧ st_gerr st2 = None) as (Ht2 & Hnow2 & Hg).
  { simpl in Hs. unfold step_task in Hs. rewrite Ht in Hs.
    injection Hs as <-. vm_compute in Hex. injection Hex as <-.
    vm_compute in Hex2. by injection Hex2 as <-. }
  destruct (X10_released_by_timeout waiting_app 0 [LRun] st 1%nat KStart
              0%nat wait_done st1 [LStop; LTick (30 * Second)] st2 _
              eq_refl Hex Ht (λ v, eq_refl) Hs Hex2 Ht2)
    as (T & HT & _ & _ & _ & Hlate).
  rewrite (HT eq_refl), Hnow, Hnow2 in Hlate.
  destruct Hlate as (Herr & st3 & Hs3 & _ & Hg3); [simpl; lia|].
  exists st1, st2, st3. split; [done|]. split; [done|].
  split; [exact Herr|]. split; [exact Hs3|]. by rewrite Hg3, Hg.
Defined.

(** ** A failing start callback ends the run *)

(** A failure in the history is the first failure or comes after it, and
    [g.err] holds the result of the first. *)
Lemma failure_kept st ev e :
  group_ok st → ev ∈ st_log st → result ev = Some e →
  ∃ ev1 e1, first_failure (st_log st) = Some ev1 ∧ result ev1 = Some e1 ∧
            st_gerr st = Some e1.
Proof.
  intros Hg Hin He. rewrite (group_err _ Hg).
  destruct (first_failure (st_log st)) as [x|] eqn:Hx.
  - destruct (first_failure_Some _ _ Hx) as [_ [e1 He1]].
    exists x, e1. simpl. by rewrite He1.
  - apply first_failure_None with (ev := ev) in Hx; [congruence|done].
Qed.

(** C2, amended. Suppose a start callback has returned an error. Then the
    group's context is cancelled and [g.err] holds the first failure of
    the run, for good; it is the error of that start callback when that
    was the first failure, in particular when nobody asked for a stop
    before (the root context is not cancelled) and no start callback
    returned another error. Every stop task that still waits can now
    call its callback, and it calls it on a context of its own, made from
    the background with [stopTimeout], which is not cancelled when the
    timeout is positive, while the group's context is. When every
    callback returns, the run cannot get stuck, and the goroutines alone
    bring [Run] to return; it returns [g.err], and by then every
    registered stop callback was called, after the cancellation of the
    group's context, and has returned. *)
Theorem C2_start_failure a now ls st h e :
  cancel a = None →
  exec ls (boot a now) = Some st →
  EvReturn KStart h (Some e) ∈ st_log st →
  Err st groupCtx = Some Canceled ∧
  (∃ ev e', first_failure (st_log st) = Some ev ∧ result ev = Some e' ∧
            st_gerr st = Some e') ∧
  (first_failure (st_log st) = Some (EvReturn KStart h (Some e)) →
   st_gerr st = Some e) ∧
  (CRoot ∉ st_canceled st →
   ∃ h' e', EvReturn KStart h' (Some e') ∈ st_log st ∧ st_gerr st = Some e') ∧
  (CRoot ∉ st_canceled st →
   (∀ h' e', EvReturn KStart h' (Some e') ∈ st_log st → e' = e) →
   st_gerr st = Some e) ∧
  (∀ ls' st', exec ls' st = Some st' → st_gerr st' = st_gerr st) ∧
  (∀ i h' f,
     st_tasks st !! i =
       Some {| t_body := HookTask KStop h' f; t_pc := Spawned |} →
     ∃ st1,
       step (LTask i) st = Some st1 ∧
       st_tasks st1 !! i =
         Some {| t_body := HookTask KStop h' f;
                 t_pc := Calling (WithDeadline Background
                                    (st_now st + stopTimeout (opts a))
                                    (CCall i)) |} ∧
       EvCall KStop h'
         (WithDeadline Background (st_now st + stopTimeout (opts a)) (CCall i))
         (st_now st) (Some Canceled) ∈ st_log st1 ∧
       Err st1 groupCtx = Some Canceled ∧
       (0 < stopTimeout (opts a) →
        Err st1 (WithDeadline Background (st_now st + stopTimeout (opts a))
                   (CCall i)) = None)) ∧
  ((∀ k h' f, registered a k h' f → ∀ v, ∃ e', f v = Returns e') →
   (st_status st = Running →
    ∃ l st', goroutine l = true ∧ step l st = Some st') ∧
   ∃ ls' st',
     forallb goroutine ls' = true ∧ exec ls' st = Some st' ∧
     st_status st' = Returned (st_gerr st) ∧
     ∀ h' f, registered a KStop h' f →
       ∃ i t e1,
         EvCall KStop h'
           (WithTimeout Background t (stopTimeout (opts a)) (CCall i)) t
           (Some Canceled) ∈ st_log st' ∧
         EvReturn KStop h' e1 ∈ st_log st') ∧
  (∀ r, st_status st = Returned r →
        r = st_gerr st ∧
        ∀ h' f, registered a KStop h' f →
          ∃ i t e1,
            EvCall KStop h'
              (WithTimeout Background t (stopTimeout (opts a)) (CCall i)) t
              (Some Canceled) ∈ st_log st ∧
            EvReturn KStop h' e1 ∈ st_log st ∧
            (0 < stopTimeout (opts a) →
             ∀ cs, CCall i ∉ cs →
                   ctx_err t cs
                     (WithTimeout Background t (stopTimeout (opts a)) (CCall i)) =
                   None)).
Proof.
  intros Ha Hex Hfail. pose proof (inv_run _ _ _ _ Ha Hex) as Hinv.
  pose proof (inv_wf _ _ Hinv) as Hwf.
  destruct (failure_kept st _ e (inv_group _ _ Hinv) Hfail eq_refl)
    as (ev & e' & Hev & He' & Hg).
  assert (Err st groupCtx = Some Canceled) as Herr.
  { apply (group_canceled _ (inv_group _ _ Hinv)). congruence. }
  assert (st_status st ≠ Idle) as Hni.
  { intros Hidle. apply (wf_idle _ _ Hwf) in Hidle as (_ & _ & ? & _).
    congruence. }
  assert (CRoot ∉ st_canceled st →
          ∃ h' e'', ev = EvReturn KStart h' (Some e'')) as Hstart.
  { intros Hroot.
    apply (sf_failed _ (start_first_run _ _ _ _ Ha Hex Hroot)), Hev. }
  assert (∀ st' r, inv a st' → st_status st' = Returned r →
            ∀ h' f, registered a KStop h' f →
              ∃ i t e1,
                EvCall KStop h'
                  (WithTimeout Background t (stopTimeout (opts a)) (CCall i)) t
                  (Some Canceled) ∈ st_log st' ∧
                EvReturn KStop h' e1 ∈ st_log st') as Hstops.
  { intros st' r Hinv' Hr h' f Hreg.
    destruct (returned_all_called _ _ _ _ _ _ Hinv' Hr Hreg)
      as (i & t & sh & e1 & _ & Hcall & Hsh & Hret).
    rewrite (Hsh eq_refl) in Hcall. by exists i, t, e1. }
  split; [done|]. split; [by exists ev, e'|].
  split; [|split; [|split; [|split; [|split; [|split]]]]].
  - intros Hfirst. rewrite Hfirst in Hev. injection Hev as <-.
    simpl in He'. congruence.
  - intros Hroot. destruct (Hstart Hroot) as (h' & e'' & ->).
    simpl in He'. injection He' as ->. exists h', e'. split; [|done].
    by apply (first_failure_Some _ _ Hev).
  - intros Hroot Honly. destruct (Hstart Hroot) as (h' & e'' & ->).
    simpl in He'. injection He' as ->. rewrite Hg. f_equal.
    eapply Honly. by apply (first_failure_Some _ _ Hev).
  - intros ls' st' Hex'. rewrite Hg.
    exact (gerr_kept_exec _ _ _ _ _ Hinv Hex' Hg).
  - intros i h' f Ht.
    assert (step (LTask i) st = Some (call i KStop h' st)) as Hs.
    { simpl. unfold step_task. by rewrite Ht, Herr. }
    destruct (call_step _ _ _ _ _ _ _ Hinv Ht Hs) as (_ & Ht1 & Hlog & _).
    change (timeout_of KStop (opts a)) with (stopTimeout (opts a)) in *.
    exists (call i KStop h' st).
    split; [done|]. split; [done|].
    split; [rewrite Hlog, Herr; by constructor|].
    assert (inv a (call i KStop h' st)) as Hinv1.
    { eapply inv_step; [done|]. by apply step_Step. }
    split.
    + eapply (failure_recorded _ (EvReturn KStart h (Some e)) e);
        [apply Hinv1| |done].
      rewrite Hlog. by constructor.
    + intros Hpos.
      destruct (return_step _ _ _ _ _ _ _ Hinv1 Ht1) as [Hlook _].
      change (Err (call i KStop h' st)
                (WithDeadline Background (st_now st + stopTimeout (opts a))
                   (CCall i)))
        with (v_err (look (call i KStop h' st)
                (WithDeadline Background (st_now st + stopTimeout (opts a))
                   (CCall i)))).
      rewrite Hlook. unfold call. simpl.
      destruct (_ <=? _) eqn:Hd; [|done].
      apply Z.leb_le in Hd. unfold call in Hd. simpl in Hd. lia.
  - intros Htotal. split.
    + intros Hrun. eapply stopped_progress; [done..|congruence].
    + destruct (stopped_returns a st Hinv Htotal Hni)
        as (ls' & st' & r & Hls & Hex' & Hr); [congruence|].
      pose proof (inv_exec _ _ _ _ Hinv Hex') as Hinv'.
      exists ls', st'. split; [done|]. split; [done|]. split.
      * destruct (wf_returned _ _ (inv_wf _ _ Hinv') r Hr) as [Hrg _].
        rewrite Hr, Hrg, Hg. f_equal.
        exact (gerr_kept_exec _ _ _ _ _ Hinv Hex' Hg).
      * by eapply Hstops.
  - intros r Hr.
    destruct (wf_returned _ _ Hwf r Hr) as [Hrg _]. split; [done|].
    intros h' f Hreg.
    destruct (Hstops st r Hinv Hr h' f Hreg) as (i & t & e1 & Hcall & Hret).
    exists i, t, e1. split; [done|]. split; [done|]. intros Hpos cs Hn.
    rewrite call_ctx_err, bool_decide_eq_false_2 by done.
    destruct (_ <=? _) eqn:Hd; [apply Z.leb_le in Hd; lia|done].
Qed.

Lemma C2_start_failure_witness :
  match exec [LRun; LTask 1; LTask 1; LTick 3] (boot failing_app 0) with
  | Some st =>
      st_status st = Running ∧
      Err st groupCtx = Some Canceled ∧
      st_gerr st = Some (Failure "listen") ∧
      (∃ st1, step (LTask 0) st = Some st1 ∧
              Err st1 (WithDeadline Background (3 + 30 * Second) (CCall 0)) =
                None) ∧
      ∃ ls' st',
        forallb goroutine ls' = true ∧ exec ls' st = Some st' ∧
        st_status st' = Returned (Some (Failure "listen")) ∧
        ∃ i t e1,
          EvCall KStop 0
            (WithTimeout Background t (stopTimeout (opts failing_app)) (CCall i))
            t (Some Canceled) ∈ st_log st' ∧
          EvReturn KStop 0 e1 ∈ st_log st'
  | None => False
  end.
Proof.
  destruct (exec [LRun; LTask 1%nat; LTask 1%nat; LTick 3] (boot failing_app 0))
    as [st|] eqn:Hex; [|by vm_compute in Hex].
  assert (st_status st = Running ∧
          EvReturn KStart 0 (Some (Failure "listen")) ∈ st_log st ∧
          (CRoot ∉ st_canceled st) ∧ st_now st = 3 ∧
          st_tasks st !! 0%nat =
            Some {| t_body := HookTask KStop 0 succeed; t_pc := Spawned |} ∧
          (∀ h' e', EvReturn KStart h' (Some e') ∈ st_log st →
                    e' = Failure "listen"))
    as (Hrun & Hin & Hroot & Hnow & Ht & Honly).
  { vm_compute in Hex. injection Hex as <-. split; [done|]. split.
    { apply list_elem_of_In. simpl. tauto. }
    split.
    { rewrite list_elem_of_In. simpl. intros [?|[?|[]]]; discriminate. }
    split; [done|]. split; [done|].
    intros h' e'. rewrite list_elem_of_In. simpl.
    intros [?|[?|[]]]; congruence. }
  destruct (C2_start_failure failing_app 0 _ st 0%nat (Failure "listen")
              eq_refl Hex Hin)
    as (Herr & _ & _ & _ & Hsame & _ & Hstop & Hlive & _).
  pose proof (Hsame Hroot Honly) as Hg.
  split; [done|]. split; [done|]. split; [done|]. split.
  - destruct (Hstop 0%nat 0%nat succeed Ht) as (st1 & Hs & _ & _ & _ & Hfresh).
    exists st1. split; [done|]. rewrite Hnow in Hfresh. apply Hfresh.
    reflexivity.
  - destruct Hlive as [_ (ls' & st' & Hls & Hex' & Hr & Hstops)].
    { intros k h f (hook & Hh & Hs) v.
      destruct h as [|h]; [|done]. simpl in Hh. injection Hh as <-.
      destruct k; simpl in Hs; injection Hs as <-; eexists; reflexivity. }
    exists ls', st'. split; [done|]. split; [done|].
    split; [by rewrite Hr, Hg|].
    apply (Hstops 0%nat succeed). eexists. by split.
Defined.
